(** * certifiable-data: a shallow embedding of the deterministic data pipeline

    The C sources embedded here are
      - src/dvm/primitives.c   (DVM saturating arithmetic, RNE shift)
      - src/dvm/prng.c         (SplitMix64 counter PRF)
      - src/data/shuffle.c     (cycle-walking Feistel permutation)
      - src/data/normalize.c   (per-feature affine normalisation)
      - src/data/augment.c     (flip / crop / noise)
      - src/audit/merkle.c     (leaf hash, node hash, Merkle root)
      - src/data/batch.c       (batch fill and verification)

    Conventions.  A [uintN_t] is a [Z] in [0, 2^N) with the wrap-around
    written out ([u32], [u64]); an [int32_t] is a [Z] in [-2^31, 2^31);
    bytes are [Z] in [0, 256).  Arrays reached through a pointer live in a
    heap of buffers, so that two samples holding the same [data] pointer
    really share their elements. *)

From Stdlib Require Import ZArith List Lia Bool Sorted.
From stdpp Require Import base option list gmap.
Import ListNotations.

Local Open Scope Z_scope.

(** ** Machine integers *)

Definition u32 (x : Z) : Z := x mod 2^32.
Definition u64 (x : Z) : Z := x mod 2^64.

(** Conversion of a 32-bit pattern to [int32_t] (two's complement). *)
Definition i32 (x : Z) : Z :=
  let y := x mod 2^32 in if y <? 2^31 then y else y - 2^32.

Definition INT32_MAX : Z := 2^31 - 1.
Definition INT32_MIN : Z := - 2^31.

Definition FIXED_SHIFT : Z := 16.
Definition FIXED_ONE   : Z := Z.shiftl 1 FIXED_SHIFT.
Definition FIXED_HALF  : Z := Z.shiftl 1 (FIXED_SHIFT - 1).

Definition CT_MAX_DIMS : nat := 4.

Definition CT_DOMAIN_LEAF     : Z := 0x00.
Definition CT_DOMAIN_INTERNAL : Z := 0x01.
Definition CT_DOMAIN_PROVENANCE  : Z := 0x03.
Definition CT_DOMAIN_EPOCH_CHAIN : Z := 0x04.

(** Little-endian byte strings, as the sources spell them out with
    [(uint8_t)((x >> 8k) & 0xFF)]. *)
Definition le_byte (x : Z) (k : Z) : Z := Z.land (Z.shiftr x (8 * k)) 0xFF.
Definition le32 (x : Z) : list Z := [le_byte x 0; le_byte x 1; le_byte x 2; le_byte x 3].
Definition le64 (x : Z) : list Z :=
  [le_byte x 0; le_byte x 1; le_byte x 2; le_byte x 3;
   le_byte x 4; le_byte x 5; le_byte x 6; le_byte x 7].

(** ** SHA-256 *)

Module SHA256.

(** The first 64 primes, from which FIPS 180-4 derives its constants. *)
Definition primes : list Z :=
  [   2;   3;   5;   7;  11;  13;  17;  19;  23;  29;  31;  37;  41;  43;  47;  53;
     59;  61;  67;  71;  73;  79;  83;  89;  97; 101; 103; 107; 109; 113; 127; 131;
    137; 139; 149; 151; 157; 163; 167; 173; 179; 181; 191; 193; 197; 199; 211; 223;
    227; 229; 233; 239; 241; 251; 257; 263; 269; 271; 277; 281; 283; 293; 307; 311 ].

(** Integer cube root of a number below 2^108, one bit at a time. *)
Definition icbrt (n : Z) : Z :=
  fold_left (fun r b => let r' := r + 2 ^ b in
                        if r' * r' * r' <=? n then r' else r)
            (rev (seqZ 0 36)) 0.

(** The round constants: the first 32 bits of the fractional parts of the
    cube roots of the first 64 primes. *)
Definition K : list Z :=
  Eval vm_compute in map (fun p => icbrt (p * 2 ^ 96) mod 2 ^ 32) primes.

(** The initial hash value: the first 32 bits of the fractional parts of
    the square roots of the first 8 primes. *)
Definition H0 : list Z :=
  Eval vm_compute in map (fun p => Z.sqrt (p * 2 ^ 64) mod 2 ^ 32) (firstn 8 primes).

(** Reduction modulo 2^32, as a mask. *)
Definition w32 (x : Z) : Z := Z.land x 0xFFFFFFFF.

Definition rotr (n x : Z) : Z :=
  Z.lor (Z.shiftr x n) (w32 (Z.shiftl x (32 - n))).

Definition Ch (x y z : Z) : Z := Z.lxor (Z.land x y) (Z.land (Z.lxor x 0xFFFFFFFF) z).
Definition Maj (x y z : Z) : Z :=
  Z.lxor (Z.lxor (Z.land x y) (Z.land x z)) (Z.land y z).
Definition Sigma0 (x : Z) : Z := Z.lxor (Z.lxor (rotr 2 x) (rotr 13 x)) (rotr 22 x).
Definition Sigma1 (x : Z) : Z := Z.lxor (Z.lxor (rotr 6 x) (rotr 11 x)) (rotr 25 x).
Definition sigma0 (x : Z) : Z := Z.lxor (Z.lxor (rotr 7 x) (rotr 18 x)) (Z.shiftr x 3).
Definition sigma1 (x : Z) : Z := Z.lxor (Z.lxor (rotr 17 x) (rotr 19 x)) (Z.shiftr x 10).

(** Big-endian words of a 64-byte block. *)
Fixpoint be_words (bs : list Z) : list Z :=
  match bs with
  | b0 :: b1 :: b2 :: b3 :: rest =>
      (b0 * 2^24 + b1 * 2^16 + b2 * 2^8 + b3) :: be_words rest
  | _ => []
  end.

(** Message schedule: [rev_w] holds W[t-1], W[t-2], ... (most recent first). *)
Fixpoint schedule (n : nat) (rev_w : list Z) : list Z :=
  match n with
  | O => rev_w
  | S n' =>
      let w2  := nth 1 rev_w 0 in
      let w7  := nth 6 rev_w 0 in
      let w15 := nth 14 rev_w 0 in
      let w16 := nth 15 rev_w 0 in
      schedule n' (w32 (sigma1 w2 + w7 + sigma0 w15 + w16) :: rev_w)
  end.

Record regs := Regs { ra : Z; rb : Z; rc : Z; rd : Z; re : Z; rf : Z; rg : Z; rh : Z }.

Definition round (s : regs) (kw : Z * Z) : regs :=
  let t1 := w32 (rh s + Sigma1 (re s) + Ch (re s) (rf s) (rg s) + fst kw + snd kw) in
  let t2 := w32 (Sigma0 (ra s) + Maj (ra s) (rb s) (rc s)) in
  Regs (w32 (t1 + t2)) (ra s) (rb s) (rc s) (w32 (rd s + t1)) (re s) (rf s) (rg s).

Definition regs_of (h : list Z) : regs :=
  Regs (nth 0 h 0) (nth 1 h 0) (nth 2 h 0) (nth 3 h 0)
       (nth 4 h 0) (nth 5 h 0) (nth 6 h 0) (nth 7 h 0).

Definition compress (h : list Z) (block : list Z) : list Z :=
  let w := rev (schedule 48 (rev (be_words block))) in
  let s0 := regs_of h in
  let s := fold_left round (combine K w) s0 in
  [ w32 (ra s0 + ra s); w32 (rb s0 + rb s); w32 (rc s0 + rc s); w32 (rd s0 + rd s);
    w32 (re s0 + re s); w32 (rf s0 + rf s); w32 (rg s0 + rg s); w32 (rh s0 + rh s) ].

(** Padding: 0x80, zeros up to 56 mod 64, then the bit length on 8 bytes,
    big-endian. *)
Definition pad (msg : list Z) : list Z :=
  let len := Z.of_nat (length msg) in
  let zeros := Z.to_nat ((55 - len) mod 64) in
  let bits := len * 8 in
  msg ++ [0x80] ++ repeat 0 zeros ++
  [ Z.land (Z.shiftr bits 56) 0xFF; Z.land (Z.shiftr bits 48) 0xFF;
    Z.land (Z.shiftr bits 40) 0xFF; Z.land (Z.shiftr bits 32) 0xFF;
    Z.land (Z.shiftr bits 24) 0xFF; Z.land (Z.shiftr bits 16) 0xFF;
    Z.land (Z.shiftr bits 8) 0xFF;  Z.land bits 0xFF ].

Fixpoint blocks (n : nat) (bs : list Z) (h : list Z) : list Z :=
  match n with
  | O => h
  | S n' => blocks n' (skipn 64 bs) (compress h (firstn 64 bs))
  end.

Definition be32 (x : Z) : list Z :=
  [ Z.land (Z.shiftr x 24) 0xFF; Z.land (Z.shiftr x 16) 0xFF;
    Z.land (Z.shiftr x 8) 0xFF;  Z.land x 0xFF ].

(** Modelled from the spec: the file sha256.c is not part of the sources at
    hand (only its header, with [ct_sha256_init], [ct_sha256_update] and
    [ct_sha256_final]); the spec prescribes FIPS 180-4 with big-endian words,
    the standard initial values and round constants, and the two canonical
    digests of the empty string and of "abc" ([sha256_vectors]). *)
Definition digest (msg : list Z) : list Z :=
  let p := pad msg in
  flat_map be32 (blocks (length p / 64)%nat p H0).

(** The incremental interface of sha256.h: the context is the message
    received so far. *)
Definition ctx := list Z.
Definition ct_sha256_init : ctx := [].
Definition ct_sha256_update (c : ctx) (data : list Z) (len : nat) : ctx :=
  c ++ firstn len data.
Definition ct_sha256_final (c : ctx) : list Z := digest c.

End SHA256.

(** A digest is 32 bytes ([ct_hash_t]); a [memcpy] of all 32 bytes is the
    assignment of the value. *)
Definition ct_hash_t := list Z.
Definition zero_hash : ct_hash_t := repeat 0 32%nat.

(** ** shuffle.c: Feistel permutation with cycle walking *)

Module Shuffle.

(** [ceil_log2]: the [while (m > 0)] loop runs once per significant bit of
    [m]; a [uint32_t] has at most 32 of them, which bounds the recursion. *)
Fixpoint ceil_log2_loop (fuel : nat) (m result : Z) : Z :=
  match fuel with
  | O => result
  | S fuel' =>
      if m >? 0 then ceil_log2_loop fuel' (Z.shiftr m 1) (result + 1)
      else result
  end.

Definition ceil_log2 (n : Z) : Z :=
  if n <=? 1 then 0 else ceil_log2_loop 32 (n - 1) 0.

(** [feistel_round]: SHA-256 over seed_LE(8) || epoch_LE(4) || R_LE(4) ||
    round(1), fed in three updates of 12, 4 and 1 bytes; the result is the
    first four digest bytes read little-endian. *)
Definition feistel_round (R seed epoch round_num : Z) : Z :=
  let ctx := SHA256.ct_sha256_init in
  let buf := le64 seed ++ le32 epoch ++ [round_num] in
  let R_buf := le32 R in
  let ctx := SHA256.ct_sha256_update ctx buf 12 in
  let ctx := SHA256.ct_sha256_update ctx R_buf 4 in
  let ctx := SHA256.ct_sha256_update ctx (skipn 12 buf) 1 in
  let hash := SHA256.ct_sha256_final ctx in
  Z.lor (Z.lor (Z.lor (nth 0 hash 0) (u32 (Z.shiftl (nth 1 hash 0) 8)))
               (u32 (Z.shiftl (nth 2 hash 0) 16)))
        (u32 (Z.shiftl (nth 3 hash 0) 24)).

(** The [for (round = 0; round < 4; round++)] loop on the pair (L, R). *)
Definition feistel_step (seed epoch half_mask : Z) (LR : Z * Z) (round : Z) : Z * Z :=
  let '(L, R) := LR in
  let F := Z.land (feistel_round R seed epoch round) half_mask in
  let new_L := R in
  let new_R := Z.lxor L F in
  (new_L, new_R).

Definition feistel_network (seed epoch half_bits half_mask : Z) (i : Z) : Z :=
  let L := Z.land i half_mask in
  let R := Z.land (Z.shiftr i half_bits) half_mask in
  let '(L, R) := fold_left (feistel_step seed epoch half_mask) [0; 1; 2; 3] (L, R) in
  u32 (Z.lor (Z.shiftl R half_bits) L).

(** The [while (1)] loop.  [fuel] is [max_iterations - iterations]: when it
    is exhausted the C code takes the fallback branch, here [None]. *)
Fixpoint cycle_walk (fuel : nat) (N seed epoch half_bits half_mask : Z) (i : Z) : option Z :=
  match fuel with
  | O => None
  | S fuel' =>
      let i' := feistel_network seed epoch half_bits half_mask i in
      if i' <? N then Some i'
      else cycle_walk fuel' N seed epoch half_bits half_mask i'
  end.

(** [1U << k] for [k = 32] (that is, [N > 2^31]) is outside what C defines;
    the model wraps it to 32 bits like every other [uint32_t] operation. *)
Definition ct_permute_index (index N seed epoch : Z) : Z :=
  if N <=? 1 then 0
  else if index >=? N then index mod N
  else
    let k := ceil_log2 N in
    let range := u32 (Z.shiftl 1 k) in
    let half_bits := (k + 1) / 2 in
    let half_mask := u32 (u32 (Z.shiftl 1 half_bits) - 1) in
    let max_iterations := range in
    match cycle_walk (Z.to_nat max_iterations) N seed epoch half_bits half_mask index with
    | Some i => i
    | None => index mod N
    end.

(** [ct_shuffle_verify_bijection]: the loop
    [for (i = 0; i < num_samples && i < 10; i++)] returns 0 at the first
    result outside [0, N). *)
Fixpoint verify_loop (seed epoch N : Z) (idxs : list Z) : Z :=
  match idxs with
  | [] => 1
  | i :: idxs' =>
      let result := ct_permute_index i N seed epoch in
      if result >=? N then 0 else verify_loop seed epoch N idxs'
  end.

Definition ct_shuffle_verify_bijection (seed epoch N num_samples : Z) : Z :=
  if num_samples >? N then 0
  else verify_loop seed epoch N (seqZ 0 (Z.min num_samples 10)).

End Shuffle.

(** ** The machine: heap, sticky fault flags, PRF call log *)

(** [ct_fault_flags_t] of ct_types.h (the reserved bits are left out). *)
Record ct_fault_flags_t := FaultFlags {
  overflow      : bool;
  underflow     : bool;
  div_zero      : bool;
  domain        : bool;
  precision     : bool;
  grad_floor    : bool;
  chain_invalid : bool
}.

Definition no_faults : ct_fault_flags_t :=
  FaultFlags false false false false false false false.

Definition set_overflow (f : ct_fault_flags_t) : ct_fault_flags_t :=
  FaultFlags true (underflow f) (div_zero f) (domain f) (precision f)
             (grad_floor f) (chain_invalid f).
Definition set_underflow (f : ct_fault_flags_t) : ct_fault_flags_t :=
  FaultFlags (overflow f) true (div_zero f) (domain f) (precision f)
             (grad_floor f) (chain_invalid f).
Definition set_div_zero (f : ct_fault_flags_t) : ct_fault_flags_t :=
  FaultFlags (overflow f) (underflow f) true (domain f) (precision f)
             (grad_floor f) (chain_invalid f).
Definition set_domain (f : ct_fault_flags_t) : ct_fault_flags_t :=
  FaultFlags (overflow f) (underflow f) (div_zero f) true (precision f)
             (grad_floor f) (chain_invalid f).

Definition ct_has_fault (f : ct_fault_flags_t) : bool :=
  overflow f || underflow f || div_zero f || domain f || precision f ||
  grad_floor f || chain_invalid f.

(** One PRF call: (seed, epoch, op_id). *)
Definition prf_call : Type := Z * Z * Z.

(** The state every C function runs in.
    - [mem]: the buffers reached through [data] pointers, by buffer id;
    - [faults]: the caller's [ct_fault_flags_t], passed by pointer;
    - [prf_log]: ghost record of the calls made to [ct_prng], oldest first;
    - [stack_junk]: what the automatic array [tree] of [ct_merkle_root]
      holds on entry, which C leaves indeterminate. *)
Record machine := Machine {
  mem        : gmap nat (list Z);
  faults     : ct_fault_flags_t;
  prf_log    : list prf_call;
  stack_junk : list ct_hash_t
}.

Definition M (A : Type) : Type := machine -> A * machine.

Definition ret {A} (x : A) : M A := fun m => (x, m).
Definition bind {A B} (c : M A) (k : A -> M B) : M B :=
  fun m => let '(a, m') := c m in k a m'.

Notation "'let*' x ':=' c 'in' k" := (bind c (fun x => k))
  (at level 10, x name, c at level 100, k at level 200).
Notation "c ';;' k" := (bind c (fun _ => k))
  (at level 100, k at level 200, right associativity, only parsing).

(** [for] loops over an explicit index list. *)
Fixpoint for_each {A} (l : list A) (body : A -> M unit) : M unit :=
  match l with
  | [] => ret tt
  | x :: l' => bind (body x) (fun _ => for_each l' body)
  end.

(** Indices [0, 1, ..., n-1] of a [for (i = 0; i < n; i++)] loop. *)
Definition upto (n : Z) : list Z := seqZ 0 n.

Definition update_faults (g : ct_fault_flags_t -> ct_fault_flags_t) : M unit :=
  fun m => (tt, Machine (mem m) (g (faults m)) (prf_log m) (stack_junk m)).

(** Reads and writes through a [data] pointer.  An access outside the
    buffer is undefined in C; the model reads 0 and drops the write. *)
Definition load (p : nat) (i : Z) : M Z :=
  fun m => (default 0 (mem m !! p ≫= (fun buf => buf !! Z.to_nat i)), m).

Definition store (p : nat) (i : Z) (v : Z) : M unit :=
  fun m =>
    match mem m !! p with
    | Some buf =>
        (tt, Machine (<[p := <[Z.to_nat i := v]> buf]> (mem m))
                     (faults m) (prf_log m) (stack_junk m))
    | None => (tt, m)
    end.

(** ** primitives.c: DVM arithmetic *)

Module DVM.

Definition dvm_clamp32 (x : Z) : M Z :=
  if x >? INT32_MAX then
    update_faults set_overflow ;; ret INT32_MAX
  else if x <? INT32_MIN then
    update_faults set_underflow ;; ret INT32_MIN
  else ret x.

Definition dvm_add32 (a b : Z) : M Z :=
  let wide := a + b in
  dvm_clamp32 wide.

Definition dvm_sub32 (a b : Z) : M Z :=
  let wide := a - b in
  dvm_clamp32 wide.

Definition dvm_mul64 (a b : Z) : Z := a * b.

Definition dvm_round_shift_rne (x : Z) (shift : Z) : M Z :=
  if shift >? 62 then
    update_faults set_domain ;; ret 0
  else if shift =? 0 then
    dvm_clamp32 x
  else
    let mask := Z.shiftl 1 shift - 1 in
    let halfway := Z.shiftl 1 (shift - 1) in
    let frac := Z.land x mask in
    let quot := Z.shiftr x shift in
    let result :=
      if frac <? halfway then quot
      else if frac >? halfway then quot + 1
      else quot + Z.land quot 1 in
    dvm_clamp32 result.

Definition dvm_mul_q16 (a b : Z) : M Z :=
  let prod := dvm_mul64 a b in
  dvm_round_shift_rne prod 16.

(** [num_scaled / denom] is the division of C, which truncates toward
    zero. *)
Definition dvm_div_q16 (num denom : Z) : M Z :=
  if denom =? 0 then
    update_faults set_div_zero ;; ret 0
  else
    let num_scaled := Z.shiftl num 16 in
    let result := Z.quot num_scaled denom in
    dvm_clamp32 result.

(** [ct_fault_clear] writes 0 to each of the seven flags. *)
Definition ct_fault_clear : M unit := update_faults (fun _ => no_faults).

End DVM.

(** ** prng.c: SplitMix64 counter PRF *)

Module PRNG.

Definition splitmix64 (x : Z) : Z :=
  let x := u64 (x + 0x9E3779B97F4A7C15) in
  let x := u64 (Z.lxor x (Z.shiftr x 30) * 0xBF58476D1CE4E5B9) in
  let x := u64 (Z.lxor x (Z.shiftr x 27) * 0x94D049BB133111EB) in
  Z.lxor x (Z.shiftr x 31).

Definition ct_prng (seed epoch op_id : Z) : Z :=
  let state := seed in
  let state := Z.lxor state (u64 (Z.shiftl epoch 32)) in
  let state := Z.lxor state op_id in
  let state := splitmix64 state in
  let state := splitmix64 state in
  state.

(** A call to [ct_prng] from the pipeline: the value is [ct_prng]'s, and
    the call is appended to the log. *)
Definition call_ct_prng (seed epoch op_id : Z) : M Z :=
  fun m => (ct_prng seed epoch op_id,
            Machine (mem m) (faults m) (prf_log m ++ [(seed, epoch, op_id)])
                    (stack_junk m)).

(** The [for (i = 0; i < 4 && val >= threshold; i++)] loop. *)
Fixpoint reject_loop (fuel : nat) (threshold rand val : Z) : Z :=
  match fuel with
  | O => val
  | S fuel' =>
      if val >=? threshold then
        let rand := splitmix64 rand in
        let val := u32 (Z.land rand 0xFFFFFFFF) in
        reject_loop fuel' threshold rand val
      else val
  end.

Definition ct_prng_uniform (seed epoch op_id n : Z) : M Z :=
  if n =? 0 then ret 0
  else if n =? 1 then ret 0
  else
    let* rand := call_ct_prng seed epoch op_id in
    if n <=? 65536 then
      let threshold := u32 ((0xFFFFFFFF / n) * n) in
      let val := u32 (Z.land rand 0xFFFFFFFF) in
      let val := reject_loop 4 threshold rand val in
      ret (val mod n)
    else
      ret (u32 (rand mod n)).

End PRNG.

(** ** ct_types.h: samples, contexts, batches *)

(** [data] is a pointer: the id of a buffer of [mem]. *)
Record ct_sample_t := Sample {
  version        : Z;
  dtype          : Z;
  ndims          : Z;
  dims           : list Z;
  total_elements : Z;
  data           : nat
}.

(** [memset(&sample, 0, sizeof(ct_sample_t))]; the null pointer is the
    buffer id 0, which no heap of the examples below allocates. *)
Definition zero_sample : ct_sample_t := Sample 0 0 0 [0; 0; 0; 0] 0 0%nat.

Definition dim (s : ct_sample_t) (i : nat) : Z := default 0 (dims s !! i).

Record ct_normalize_ctx_t := NormalizeCtx {
  means        : list Z;
  inv_stds     : list Z;
  num_features : Z
}.

Record ct_augment_flags_t := AugmentFlags {
  h_flip         : bool;
  v_flip         : bool;
  random_crop    : bool;
  gaussian_noise : bool
}.

Record ct_augment_ctx_t := AugmentCtx {
  seed        : Z;
  epoch       : Z;
  flags       : ct_augment_flags_t;
  crop_width  : Z;
  crop_height : Z;
  noise_std   : Z
}.

(** [samples] and [sample_hashes] point to caller-supplied arrays; the
    model holds the arrays themselves.  An index outside an array reads the
    all-zero element and drops the write. *)
Record ct_batch_t := Batch {
  samples       : list ct_sample_t;
  sample_hashes : list ct_hash_t;
  batch_size    : Z;
  batch_index   : Z;
  batch_hash    : ct_hash_t
}.

Record ct_dataset_t := Dataset {
  ds_samples   : list ct_sample_t;
  num_samples  : Z;
  dataset_hash : ct_hash_t
}.

(** [ct_provenance_t]: the state of the provenance chain. *)
Record ct_provenance_t := Provenance {
  current_epoch : Z;
  total_epochs  : Z;
  current_hash  : ct_hash_t;
  prev_hash     : ct_hash_t
}.

Definition sample_at (l : list ct_sample_t) (i : Z) : ct_sample_t :=
  default zero_sample (l !! Z.to_nat i).
Definition hash_at (l : list ct_hash_t) (i : Z) : ct_hash_t :=
  default zero_hash (l !! Z.to_nat i).

(** ** normalize.c *)

Module Normalize.
Import DVM.

Definition normalize_element (ctx : ct_normalize_ctx_t)
    (input output : ct_sample_t) (i : Z) : M unit :=
  let* x := load (data input) i in
  let mean := default 0 (means ctx !! Z.to_nat i) in
  let inv_std := default 0 (inv_stds ctx !! Z.to_nat i) in
  let* centered := dvm_sub32 x mean in
  let* normalized := dvm_mul_q16 centered inv_std in
  store (data output) i normalized.

Definition copy_element (input output : ct_sample_t) (i : Z) : M unit :=
  let* x := load (data input) i in
  store (data output) i x.

(** The metadata is copied field by field, so [output] keeps its own
    [data] pointer; [dims] is an array of [CT_MAX_DIMS] entries and the loop
    copies all of them.  The first loop runs while
    [i < total_elements && i < num_features], the second from
    [num_features] up to [total_elements]. *)
Definition ct_normalize_sample (ctx : ct_normalize_ctx_t)
    (input output : ct_sample_t) : M ct_sample_t :=
  let output := Sample (version input) (dtype input) (ndims input)
                       (dims input)
                       (total_elements input) (data output) in
  for_each (upto (Z.min (total_elements input) (num_features ctx)))
           (normalize_element ctx input output) ;;
  for_each (seqZ (num_features ctx) (total_elements input - num_features ctx))
           (copy_element input output) ;;
  ret output.

Definition normalize_slot (ctx : ct_normalize_ctx_t) (input : ct_batch_t)
    (out_samples : list ct_sample_t) (i : Z) : M (list ct_sample_t) :=
  let* s := ct_normalize_sample ctx (sample_at (samples input) i)
                                (sample_at out_samples i) in
  ret (<[Z.to_nat i := s]> out_samples).

Fixpoint normalize_slots (ctx : ct_normalize_ctx_t) (input : ct_batch_t)
    (idxs : list Z) (out_samples : list ct_sample_t) : M (list ct_sample_t) :=
  match idxs with
  | [] => ret out_samples
  | i :: idxs' =>
      let* out_samples := normalize_slot ctx input out_samples i in
      normalize_slots ctx input idxs' out_samples
  end.

Definition ct_normalize_batch (ctx : ct_normalize_ctx_t)
    (input output : ct_batch_t) : M ct_batch_t :=
  let* out_samples :=
    normalize_slots ctx input (upto (batch_size input)) (samples output) in
  ret (Batch out_samples (sample_hashes output)
             (batch_size input) (batch_index input)
             (batch_hash input)).

End Normalize.

(** ** augment.c *)

Module Augment.
Import DVM PRNG.

Definition swap_columns (sample : ct_sample_t) (width row col : Z) : M unit :=
  let left_idx := u32 (row * width + col) in
  let right_idx := u32 (row * width + (width - 1 - col)) in
  let* temp := load (data sample) left_idx in
  let* right := load (data sample) right_idx in
  store (data sample) left_idx right ;;
  store (data sample) right_idx temp.

Definition horizontal_flip (sample : ct_sample_t) (width height : Z) : M unit :=
  for_each (upto height) (fun row =>
    for_each (upto (width / 2)) (fun col =>
      swap_columns sample width row col)).

Definition copy_pixel (input output : ct_sample_t)
    (src_width crop_width crop_x crop_y y x : Z) : M unit :=
  let src_idx := u32 ((crop_y + y) * src_width + (crop_x + x)) in
  let dst_idx := u32 (y * crop_width + x) in
  let* v := load (data input) src_idx in
  store (data output) dst_idx v.

(** The static function [random_crop]; the name without suffix is the
    flag of [ct_augment_flags_t]. *)
Definition random_crop_fn (input output : ct_sample_t)
    (src_width src_height crop_width crop_height : Z)
    (seed epoch sample_idx : Z) : M ct_sample_t :=
  let max_x := u32 (src_width - crop_width) in
  let max_y := u32 (src_height - crop_height) in
  let op_id := Z.lor (u32 (Z.shiftl sample_idx 16)) 0x0001 in
  let* crop_x := ct_prng_uniform seed epoch op_id (u32 (max_x + 1)) in
  let op_id := Z.lor (u32 (Z.shiftl sample_idx 16)) 0x0002 in
  let* crop_y := ct_prng_uniform seed epoch op_id (u32 (max_y + 1)) in
  for_each (upto crop_height) (fun y =>
    for_each (upto crop_width) (fun x =>
      copy_pixel input output src_width crop_width crop_x crop_y y x)) ;;
  ret (Sample (version output) (dtype output) (ndims output)
              (<[1%nat := crop_width]> (<[0%nat := crop_height]> (dims output)))
              (u32 (crop_width * crop_height)) (data output)).

(** One pass of the noise loop, for an even [i]. *)
Definition noise_pair (sample : ct_sample_t) (noise_std seed epoch sample_idx : Z)
    (i : Z) : M unit :=
  let op_id_1 := Z.lor (u32 (Z.shiftl sample_idx 16)) (u32 (0x1000 + i)) in
  let op_id_2 := Z.lor (u32 (Z.shiftl sample_idx 16)) (u32 (0x1000 + i + 1)) in
  let* u1 := call_ct_prng seed epoch op_id_1 in
  let* u2 := call_ct_prng seed epoch op_id_2 in
  let u1_fixed := i32 (Z.land (Z.shiftr u1 32) 0xFFFF0000) in
  let u2_fixed := i32 (Z.land (Z.shiftr u2 32) 0xFFFF0000) in
  let* c1 := dvm_sub32 u1_fixed FIXED_HALF in
  let* noise_1 := dvm_mul_q16 noise_std c1 in
  let* noise_1 := dvm_add32 noise_1 noise_1 in
  let* c2 := dvm_sub32 u2_fixed FIXED_HALF in
  let* noise_2 := dvm_mul_q16 noise_std c2 in
  let* noise_2 := dvm_add32 noise_2 noise_2 in
  let* d := load (data sample) i in
  let* d := dvm_add32 d noise_1 in
  store (data sample) i d ;;
  if u32 (i + 1) <? total_elements sample then
    let* d := load (data sample) (i + 1) in
    let* d := dvm_add32 d noise_2 in
    store (data sample) (i + 1) d
  else ret tt.

(** The static function [gaussian_noise] (suffixed like [random_crop_fn]).
    [for (i = 0; i < total_elements; i += 2)]: the even indices below
    [total_elements].  (For [total_elements = 2^32 - 1] the C counter wraps
    and the loop does not end; sample sizes are far below that.) *)
Definition gaussian_noise_fn (sample : ct_sample_t)
    (noise_std seed epoch sample_idx : Z) : M unit :=
  for_each (map (fun j => 2 * j) (upto ((total_elements sample + 1) / 2)))
           (noise_pair sample noise_std seed epoch sample_idx).

(** The three guarded blocks of [ct_augment_sample], in source order. *)
Definition stage_hflip (ctx : ct_augment_ctx_t) (sample_idx width height : Z)
    (output : ct_sample_t) : M ct_sample_t :=
  if h_flip (flags ctx) then
    let op_id := Z.lor (u32 (Z.shiftl sample_idx 16)) 0x0100 in
    let* rand := call_ct_prng (seed ctx) (epoch ctx) op_id in
    (if Z.land rand 0x1 =? 1 then horizontal_flip output width height
     else ret tt) ;;
    ret output
  else ret output.

Definition stage_crop (ctx : ct_augment_ctx_t) (sample_idx width height : Z)
    (output : ct_sample_t) : M ct_sample_t :=
  if random_crop (flags ctx) && (crop_height ctx >? 0) && (crop_width ctx >? 0) then
    let temp := output in
    random_crop_fn temp output width height (crop_width ctx) (crop_height ctx)
                (seed ctx) (epoch ctx) sample_idx
  else ret output.

Definition stage_noise (ctx : ct_augment_ctx_t) (sample_idx : Z)
    (output : ct_sample_t) : M ct_sample_t :=
  if gaussian_noise (flags ctx) && (noise_std ctx >? 0) then
    gaussian_noise_fn output (noise_std ctx) (seed ctx) (epoch ctx) sample_idx ;;
    ret output
  else ret output.

(** [memcpy(output, input, sizeof(ct_sample_t))] copies the [data] pointer
    too: from here on [output] and [input] share one buffer. *)
Definition ct_augment_sample (ctx : ct_augment_ctx_t) (input : ct_sample_t)
    (sample_idx : Z) : M ct_sample_t :=
  let output := input in
  let height := dim input 0 in
  let width := if ndims input >? 1 then dim input 1 else 1 in
  let* output := stage_hflip ctx sample_idx width height output in
  let* output := stage_crop ctx sample_idx width height output in
  let* output := stage_noise ctx sample_idx output in
  ret output.

Fixpoint augment_slots (ctx : ct_augment_ctx_t) (input : ct_batch_t)
    (idxs : list Z) (out_samples : list ct_sample_t) : M (list ct_sample_t) :=
  match idxs with
  | [] => ret out_samples
  | i :: idxs' =>
      let global_idx := u32 (batch_index input * batch_size input + i) in
      let* s := ct_augment_sample ctx (sample_at (samples input) i) global_idx in
      augment_slots ctx input idxs' (<[Z.to_nat i := s]> out_samples)
  end.

Definition ct_augment_batch (ctx : ct_augment_ctx_t)
    (input output : ct_batch_t) : M ct_batch_t :=
  let* out_samples :=
    augment_slots ctx input (upto (batch_size input)) (samples output) in
  ret (Batch out_samples (sample_hashes output)
             (batch_size input) (batch_index input) (batch_hash input)).

End Augment.

(** ** merkle.c *)

Module Merkle.

(** The data loop of [ct_hash_sample]: each element is fed as four
    little-endian bytes. *)
Fixpoint hash_elements (sample : ct_sample_t) (idxs : list Z)
    (ctx : SHA256.ctx) : M SHA256.ctx :=
  match idxs with
  | [] => ret ctx
  | i :: idxs' =>
      let* val := load (data sample) i in
      let buf := le32 val in
      hash_elements sample idxs' (SHA256.ct_sha256_update ctx buf 4)
  end.

Definition ct_hash_sample (sample : ct_sample_t) : M ct_hash_t :=
  let ctx := SHA256.ct_sha256_init in
  let prefix := CT_DOMAIN_LEAF in
  let ctx := SHA256.ct_sha256_update ctx [prefix] 1 in
  let header :=
    le32 (version sample) ++ le32 (dtype sample) ++ le32 (ndims sample) ++
    flat_map (fun i => let d := if Z.of_nat i <? ndims sample
                                then dim sample i else 0 in le32 d)
             (seq 0 CT_MAX_DIMS) in
  let ctx := SHA256.ct_sha256_update ctx header (length header) in
  let* ctx := hash_elements sample (upto (total_elements sample)) ctx in
  ret (SHA256.ct_sha256_final ctx).

Definition ct_hash_internal (left right : ct_hash_t) : ct_hash_t :=
  let ctx := SHA256.ct_sha256_init in
  let prefix := CT_DOMAIN_INTERNAL in
  let ctx := SHA256.ct_sha256_update ctx [prefix] 1 in
  let ctx := SHA256.ct_sha256_update ctx left 32 in
  let ctx := SHA256.ct_sha256_update ctx right 32 in
  SHA256.ct_sha256_final ctx.

(** [for (i = 0; i < count && i < 1024; i++) memcpy(tree[i], leaves[i], 32)] *)
Definition copy_leaves (leaves : list ct_hash_t) (count : Z)
    (tree : list ct_hash_t) : list ct_hash_t :=
  fold_left (fun tree i => <[Z.to_nat i := hash_at leaves i]> tree)
            (upto (Z.min count 1024)) tree.

(** The body of the inner [for] loop, writing [tree[i]] in place. *)
Definition combine_at (current_level : Z) (tree : list ct_hash_t) (i : Z)
    : list ct_hash_t :=
  let left_idx := u32 (i * 2) in
  let right_idx := u32 (left_idx + 1) in
  if right_idx <? current_level then
    <[Z.to_nat i := ct_hash_internal (hash_at tree left_idx) (hash_at tree right_idx)]> tree
  else
    <[Z.to_nat i := hash_at tree left_idx]> tree.

Definition level_pass (current_level next_level : Z) (tree : list ct_hash_t)
    : list ct_hash_t :=
  fold_left (combine_at current_level) (upto next_level) tree.

(** [while (current_level > 1)]: every pass at least halves the level, so
    32 passes exhaust any [uint32_t] count. *)
Fixpoint build_tree (fuel : nat) (current_level : Z) (tree : list ct_hash_t)
    : list ct_hash_t :=
  match fuel with
  | O => tree
  | S fuel' =>
      if current_level >? 1 then
        let next_level := u32 (current_level + 1) / 2 in
        build_tree fuel' next_level (level_pass current_level next_level tree)
      else tree
  end.

(** [tree] is the automatic array [ct_hash_t tree[2048]]: 2048 entries
    whose contents on entry are the machine's [stack_junk].  Indices from
    2048 on are outside the array (undefined in C; read as zero and not
    written here). *)
Definition ct_merkle_root (leaves : list ct_hash_t) (count : Z) : M ct_hash_t :=
  fun m =>
    if count =? 0 then (zero_hash, m)
    else if count =? 1 then (hash_at leaves 0, m)
    else
      let tree := resize 2048 zero_hash (stack_junk m) in
      let current_level := count in
      let tree := copy_leaves leaves count tree in
      let tree := build_tree 32 current_level tree in
      (hash_at tree 0, m).

Definition ct_hash_batch (batch : ct_batch_t) : M ct_hash_t :=
  ct_merkle_root (sample_hashes batch) (batch_size batch).

Definition ct_hash_epoch (batch_hashes : list ct_hash_t) (num_batches : Z)
    : M ct_hash_t :=
  ct_merkle_root batch_hashes num_batches.

(** h_0 = SHA256(0x03 || H_dataset || H_config || seed) *)
Definition ct_provenance_init (dataset_hash config_hash : ct_hash_t) (seed : Z)
    : ct_provenance_t :=
  let ctx := SHA256.ct_sha256_init in
  let prefix := CT_DOMAIN_PROVENANCE in
  let ctx := SHA256.ct_sha256_update ctx [prefix] 1 in
  let ctx := SHA256.ct_sha256_update ctx dataset_hash 32 in
  let ctx := SHA256.ct_sha256_update ctx config_hash 32 in
  let buf := le64 seed in
  let ctx := SHA256.ct_sha256_update ctx buf 8 in
  let current_hash := SHA256.ct_sha256_final ctx in
  Provenance 0 0 current_hash current_hash.

(** h_e = SHA256(0x04 || h_{e-1} || H_epoch || e) *)
Definition ct_provenance_advance (prov : ct_provenance_t) (epoch_hash : ct_hash_t)
    : ct_provenance_t :=
  let prev_hash := current_hash prov in
  let ctx := SHA256.ct_sha256_init in
  let prefix := CT_DOMAIN_EPOCH_CHAIN in
  let ctx := SHA256.ct_sha256_update ctx [prefix] 1 in
  let ctx := SHA256.ct_sha256_update ctx prev_hash 32 in
  let ctx := SHA256.ct_sha256_update ctx epoch_hash 32 in
  let epoch := current_epoch prov in
  let buf := le32 epoch in
  let ctx := SHA256.ct_sha256_update ctx buf 4 in
  Provenance (u32 (current_epoch prov + 1)) (u32 (total_epochs prov + 1))
             (SHA256.ct_sha256_final ctx) prev_hash.

End Merkle.

(** ** batch.c *)

Module BatchOps.
Import Shuffle Merkle.

(** The fill loop: one slot of [samples] and [sample_hashes] per pass. *)
Fixpoint fill_slots (dataset : ct_dataset_t) (start_idx epoch seed : Z)
    (idxs : list Z) (ss : list ct_sample_t) (hs : list ct_hash_t)
    : M (list ct_sample_t * list ct_hash_t) :=
  match idxs with
  | [] => ret (ss, hs)
  | i :: idxs' =>
      let global_idx := u32 (start_idx + i) in
      let shuffled_idx :=
        ct_permute_index global_idx (num_samples dataset) seed epoch in
      let ss := <[Z.to_nat i := sample_at (ds_samples dataset) shuffled_idx]> ss in
      let* h := ct_hash_sample (sample_at ss i) in
      let hs := <[Z.to_nat i := h]> hs in
      fill_slots dataset start_idx epoch seed idxs' ss hs
  end.

(** The padding loop: [memset] of the remaining slots. *)
Definition pad_slots (idxs : list Z) (ss : list ct_sample_t) (hs : list ct_hash_t)
    : list ct_sample_t * list ct_hash_t :=
  fold_left (fun '(ss, hs) i =>
               (<[Z.to_nat i := zero_sample]> ss, <[Z.to_nat i := zero_hash]> hs))
            idxs (ss, hs).

(** The number of samples the fill loop places. *)
Definition samples_in_batch (batch : ct_batch_t) (dataset : ct_dataset_t)
    (batch_index : Z) : Z :=
  let start_idx := u32 (batch_index * batch_size batch) in
  let samples_in_batch := batch_size batch in
  if u32 (start_idx + samples_in_batch) >? num_samples dataset
  then u32 (num_samples dataset - start_idx)
  else samples_in_batch.

Definition ct_batch_fill (batch : ct_batch_t) (dataset : ct_dataset_t)
    (batch_index epoch seed : Z) : M ct_batch_t :=
  let start_idx := u32 (batch_index * batch_size batch) in
  let samples_in_batch := samples_in_batch batch dataset batch_index in
  let* filled :=
    fill_slots dataset start_idx epoch seed (upto samples_in_batch)
               (samples batch) (sample_hashes batch) in
  let '(ss, hs) :=
    pad_slots (seqZ samples_in_batch (batch_size batch - samples_in_batch))
              (fst filled) (snd filled) in
  let batch := Batch ss hs (batch_size batch) batch_index (batch_hash batch) in
  let* h := ct_hash_batch batch in
  ret (Batch ss hs (batch_size batch) batch_index h).

(** [memcmp(a, b, 32) == 0] *)
Definition memcmp32_eq (a b : ct_hash_t) : bool :=
  bool_decide (take 32 a = take 32 b).

Definition ct_batch_verify (batch : ct_batch_t) : M Z :=
  let* computed_hash := ct_hash_batch batch in
  ret (if memcmp32_eq computed_hash (batch_hash batch) then 1 else 0).

Definition ct_batch_init (samples : list ct_sample_t)
    (sample_hashes : list ct_hash_t) (batch_size : Z) : ct_batch_t :=
  Batch samples sample_hashes batch_size 0 zero_hash.


End BatchOps.

(** * Reference definitions

    The definitions of this module follow the words of the specification,
    not the sources; the theorems below compare the two. *)

Module Spec.

(** [y] is the round-half-to-even value of the exact quotient
    [x / 2^shift]: no integer is nearer, and on a tie [y] is even. *)
Definition is_rne (x shift y : Z) : Prop :=
  2 * Z.abs (x - y * 2 ^ shift) <= 2 ^ shift /\
  (2 * Z.abs (x - y * 2 ^ shift) = 2 ^ shift -> Z.even y = true).

(** Saturation to the [int32_t] range. *)
Definition clamp_range (y : Z) : Z := Z.max INT32_MIN (Z.min INT32_MAX y).

(** The mixing function as the specification displays it:
      x = (x ^ (x >> 30)) * 0xBF58476D1CE4E5B9
      x = (x ^ (x >> 27)) * 0x94D049BB133111EB
      x =  x ^ (x >> 31) *)
Definition mix (x : Z) : Z :=
  let x := u64 (Z.lxor x (Z.shiftr x 30) * 0xBF58476D1CE4E5B9) in
  let x := u64 (Z.lxor x (Z.shiftr x 27) * 0x94D049BB133111EB) in
  Z.lxor x (Z.shiftr x 31).

Definition prf_state (seed epoch op_id : Z) : Z :=
  Z.lxor (Z.lxor seed (u64 (Z.shiftl epoch 32))) op_id.

(** "apply the mixing function twice" to the state word. *)
Definition prf (seed epoch op_id : Z) : Z :=
  mix (mix (prf_state seed epoch op_id)).

(** The increment each call of the source's [splitmix64] adds first. *)
Definition GOLDEN_GAMMA : Z := 0x9E3779B97F4A7C15.

(** H_node(L, R) = SHA256(INTERNAL || L || R) *)
Definition H_node (L R : ct_hash_t) : ct_hash_t :=
  SHA256.digest (CT_DOMAIN_INTERNAL :: L ++ R).

Section MerkleRoot.
Variable node : ct_hash_t -> ct_hash_t -> ct_hash_t.

(** One level: adjacent nodes are paired; the last node of an odd level
    is promoted unchanged. *)
Fixpoint pair_up (l : list ct_hash_t) : list ct_hash_t :=
  match l with
  | a :: b :: rest => node a b :: pair_up rest
  | _ => l
  end.

(** Pair level by level until a single node is left. *)
Fixpoint reduce (fuel : nat) (l : list ct_hash_t) : list ct_hash_t :=
  match fuel with
  | O => l
  | S fuel' =>
      match l with
      | _ :: _ :: _ => reduce fuel' (pair_up l)
      | _ => l
      end
  end.

Definition merkle_root (l : list ct_hash_t) : ct_hash_t :=
  match l with
  | [] => zero_hash
  | [a] => a
  | _ => hd zero_hash (reduce (length l) l)
  end.
End MerkleRoot.

(** The augmentation pipeline in the order the specification fixes,
    assembled from the stages the source has: random_crop, then
    horizontal_flip (on the cropped shape), then the noise stage.  The
    source has no vertical-flip and no brightness stage to place between
    them. *)
Definition augment_in_spec_order (ctx : ct_augment_ctx_t) (input : ct_sample_t)
    (sample_idx : Z) : M ct_sample_t :=
  let output := input in
  let height := dim input 0 in
  let width := if ndims input >? 1 then dim input 1 else 1 in
  let* output := Augment.stage_crop ctx sample_idx width height output in
  let height := dim output 0 in
  let width := if ndims output >? 1 then dim output 1 else 1 in
  let* output := Augment.stage_hflip ctx sample_idx width height output in
  let* output := Augment.stage_noise ctx sample_idx output in
  ret output.

End Spec.

(** * Concrete inputs used by the examples below *)

Module Inputs.

Definition machine0 (h : gmap nat (list Z)) : machine :=
  Machine h no_faults [] [].

(** A 1 x 2 image [10; 20] in buffer 1. *)
Definition image : ct_sample_t := Sample 1 0 2 [1; 2; 0; 0] 2 1%nat.
Definition image_heap : gmap nat (list Z) := {[ 1%nat := [10; 20] ]}.

(** A 2 x 1 image [10; 20] in buffer 1 (two rows, one column). *)
Definition column : ct_sample_t := Sample 1 0 2 [2; 1; 0; 0] 2 1%nat.

Definition flags_none      : ct_augment_flags_t := AugmentFlags false false false false.
Definition flags_hflip     : ct_augment_flags_t := AugmentFlags true false false false.
Definition flags_vflip     : ct_augment_flags_t := AugmentFlags false true false false.
Definition flags_crop      : ct_augment_flags_t := AugmentFlags false false true false.
Definition flags_noise     : ct_augment_flags_t := AugmentFlags false false false true.
Definition flags_flip_crop : ct_augment_flags_t := AugmentFlags true false true false.

(** Seed 4, epoch 0, a 1 x 1 crop window, noise amplitude 1.0. *)
Definition aug_ctx (fl : ct_augment_flags_t) : ct_augment_ctx_t :=
  AugmentCtx 4 0 fl 1 1 FIXED_ONE.

(** The data of buffer 1 after running [c] on [image_heap]. *)
Definition data_after {A} (c : M A) : option (list Z) :=
  mem (snd (c (machine0 image_heap))) !! 1%nat.

(** The PRF calls made by [c] on [image_heap]. *)
Definition calls_of {A} (c : M A) : list prf_call :=
  prf_log (snd (c (machine0 image_heap))).

(** A dataset of one sample with the single element 1.0, and a batch with
    room for two. *)
Definition one_sample : ct_sample_t := Sample 1 0 1 [1; 0; 0; 0] 1 1%nat.
Definition one_heap : gmap nat (list Z) := {[ 1%nat := [65536] ]}.
Definition one_dataset : ct_dataset_t := Dataset [one_sample] 1 zero_hash.
Definition batch_of_two : ct_batch_t :=
  Batch [zero_sample; zero_sample] [zero_hash; zero_hash] 2 0 zero_hash.

(** A batch of one sample hash whose stored [batch_hash] does not match. *)
Definition bad_batch : ct_batch_t :=
  Batch [one_sample] [repeat 0x11 32%nat] 1 0 zero_hash.

(** Two lists of 1025 leaves that differ in the last leaf only. *)
Definition leaves_a : list ct_hash_t := repeat zero_hash 1024%nat ++ [zero_hash].
Definition leaves_b : list ct_hash_t := repeat zero_hash 1024%nat ++ [repeat 0xFF 32%nat].

End Inputs.

(** The node the in-place pass of [ct_merkle_root] writes at index [j],
    from the current level [L]. *)
Definition node_at (L : list ct_hash_t) (j : nat) : ct_hash_t :=
  if (2 * j + 1 <? length L)%nat
  then Merkle.ct_hash_internal (default zero_hash (L !! (2 * j)%nat))
                               (default zero_hash (L !! (2 * j + 1)%nat))
  else default zero_hash (L !! (2 * j)%nat).

(** ** Notions used by the statements on the rest of the code *)

Definition is_int32 (x : Z) : Prop := INT32_MIN <= x <= INT32_MAX.

Definition faults_le (f g : ct_fault_flags_t) : Prop :=
  (overflow f = true -> overflow g = true) /\
  (underflow f = true -> underflow g = true) /\
  (div_zero f = true -> div_zero g = true) /\
  (domain f = true -> domain g = true) /\
  (precision f = true -> precision g = true) /\
  (grad_floor f = true -> grad_floor g = true) /\
  (chain_invalid f = true -> chain_invalid g = true).

Definition only_raises {A} (c : M A) : Prop :=
  forall m, mem (snd (c m)) = mem m /\ prf_log (snd (c m)) = prf_log m /\
            stack_junk (snd (c m)) = stack_junk m /\
            faults_le (faults m) (faults (snd (c m))).

Definition half_pair (hb : Z) (p : Z * Z) : Prop :=
  0 <= fst p < 2 ^ hb /\ 0 <= snd p < 2 ^ hb.

Definition walks_home (N seed epoch index : Z) : Prop :=
  let k := Shuffle.ceil_log2 N in
  let half_bits := (k + 1) / 2 in
  Shuffle.cycle_walk (Z.to_nat (u32 (Z.shiftl 1 k))) N seed epoch half_bits
             (u32 (u32 (Z.shiftl 1 half_bits) - 1)) index <> None.

(** The sample [ct_batch_fill] places in slot [i]. *)
Definition slot_source (dataset : ct_dataset_t) (start_idx epoch seed i : Z)
    : ct_sample_t :=
  sample_at (ds_samples dataset)
            (Shuffle.ct_permute_index (u32 (start_idx + i)) (num_samples dataset)
                                      seed epoch).

(** The chain after the epochs whose hashes are [hs], oldest first. *)
Definition chain_after (dataset_hash config_hash : ct_hash_t) (sd : Z)
    (hs : list ct_hash_t) : ct_provenance_t :=
  fold_left Merkle.ct_provenance_advance hs
            (Merkle.ct_provenance_init dataset_hash config_hash sd).

(** Reading and writing one element of a heap of buffers, as [load] and
    [store] do. *)
Definition rd (h : gmap nat (list Z)) (p i : nat) : Z :=
  default 0 (h !! p ≫= (fun buf => buf !! i)).

Definition wr (h : gmap nat (list Z)) (p i : nat) (v : Z) : gmap nat (list Z) :=
  match h !! p with
  | Some buf => <[p := <[i := v]> buf]> h
  | None => h
  end.

(** One pass of a loop that reads [src[s k]], applies [f k] and writes the
    result to [dst[d k]]. *)
Definition gather_step {K : Type} (src dst : nat) (s d : K -> nat)
    (f : K -> Z -> Z) (h : gmap nat (list Z)) (k : K) : gmap nat (list Z) :=
  wr h dst (d k) (f k (rd h src (s k))).

(** A computation that leaves the PRF log and the scratch memory alone and
    clears no fault flag. *)
Definition quiet {A} (c : M A) : Prop :=
  forall m, prf_log (snd (c m)) = prf_log m /\
            stack_junk (snd (c m)) = stack_junk m /\
            faults_le (faults m) (faults (snd (c m))).

(** The exchange of two elements of a buffer, as the three assignments of
    the flip loop perform it. *)
Definition swap_cells (buf : list Z) (a b : Z) : list Z :=
  <[Z.to_nat b := default 0 (buf !! Z.to_nat a)]>
    (<[Z.to_nat a := default 0 (buf !! Z.to_nat b)]> buf).

(** Where the element at [j] comes from once the first [k] columns of row
    [r] have been exchanged with the last [k]. *)
Definition mirror (w r k j : Z) : Z :=
  if (r * w <=? j) && (j <? r * w + w) &&
     ((j - r * w <? k) || (w - k <=? j - r * w))
  then r * w + (w - 1 - (j - r * w))
  else j.

(** The op ids of the two draws of [random_crop]. *)
Definition crop_x_op (sample_idx : Z) : Z := Z.lor (u32 (Z.shiftl sample_idx 16)) 0x0001.
Definition crop_y_op (sample_idx : Z) : Z := Z.lor (u32 (Z.shiftl sample_idx 16)) 0x0002.

(** The call [ct_prng_uniform] logs for a range of [n] values: none when
    there is nothing to choose. *)
Definition uniform_calls (sd ep op_id n : Z) : list prf_call :=
  if 2 <=? n then [(sd, ep, op_id)] else [].

(** A computation that acts on the heap as [F] does, logs the PRF calls
    [L], leaves the scratch memory alone and clears no fault flag. *)
Definition runs {A} (c : M A) (F : gmap nat (list Z) -> A * gmap nat (list Z))
    (L : list prf_call) : Prop :=
  forall m, fst (c m) = fst (F (mem m)) /\
            mem (snd (c m)) = snd (F (mem m)) /\
            prf_log (snd (c m)) = prf_log m ++ L /\
            stack_junk (snd (c m)) = stack_junk m /\
            faults_le (faults m) (faults (snd (c m))).

(** The op ids of the flip decision and of the noise draw of element [e]. *)
Definition flip_op (sample_idx : Z) : Z := Z.lor (u32 (Z.shiftl sample_idx 16)) 0x0100.
Definition noise_op (sample_idx e : Z) : Z :=
  Z.lor (u32 (Z.shiftl sample_idx 16)) (u32 (0x1000 + e)).

(** The 32-bit pattern the noise loop reads as a Q16.16 number. *)
Definition noise_u_fixed (sd ep sample_idx e : Z) : Z :=
  i32 (Z.land (Z.shiftr (PRNG.ct_prng sd ep (noise_op sample_idx e)) 32) 0xFFFF0000).

(** The noise added to element [e]: n = std * (u - 0.5) * 2, every step
    saturating. *)
Definition noise_value (noise_std sd ep sample_idx e : Z) : Z :=
  let c := Spec.clamp_range (noise_u_fixed sd ep sample_idx e - FIXED_HALF) in
  let n := fst (DVM.dvm_mul_q16 noise_std c (Inputs.machine0 ∅)) in
  Spec.clamp_range (n + n).

(** One pass of the noise loop on the heap. *)
Definition noise_step (p : nat) (total noise_std sd ep sample_idx : Z)
    (h : gmap nat (list Z)) (i : Z) : gmap nat (list Z) :=
  let G := gather_step p p Z.to_nat Z.to_nat
             (fun e x => Spec.clamp_range (x + noise_value noise_std sd ep sample_idx e)) in
  let h1 := G h i in
  if u32 (i + 1) <? total then G h1 (i + 1) else h1.

(** A computation that writes to no buffer but [p], resizes none, only
    appends to the PRF log, leaves the scratch memory alone and clears no
    fault flag. *)
Definition touches {A} (p : nat) (c : M A) : Prop :=
  forall m,
    (forall q, q <> p -> mem (snd (c m)) !! q = mem m !! q) /\
    length <$> (mem (snd (c m)) !! p) = length <$> (mem m !! p) /\
    prf_log m `prefix_of` prf_log (snd (c m)) /\
    stack_junk (snd (c m)) = stack_junk m /\
    faults_le (faults m) (faults (snd (c m))).

(** The sample [random_crop] leaves in [output]. *)
Definition cropped (output : ct_sample_t) (crop_width crop_height : Z) : ct_sample_t :=
  Sample (version output) (dtype output) (ndims output)
         (<[1%nat := crop_width]> (<[0%nat := crop_height]> (dims output)))
         (u32 (crop_width * crop_height)) (data output).

(** The sample [ct_augment_sample] returns for [s]: the crop stage alone
    changes the metadata. *)
Definition augmented (ctx : ct_augment_ctx_t) (s : ct_sample_t) : ct_sample_t :=
  if random_crop (flags ctx) && (crop_height ctx >? 0) && (crop_width ctx >? 0)
  then cropped s (crop_width ctx) (crop_height ctx)
  else s.

(** The sample [ct_normalize_sample] leaves in [output]: the metadata of
    [input] with the data pointer of [output]. *)
Definition normalized_into (input output : ct_sample_t) : ct_sample_t :=
  Sample (version input) (dtype input) (ndims input) (dims input)
         (total_elements input) (data output).


(** What C leaves to the caller of [ct_augment_sample]: the sample's buffer
    holds the image an enabled flip or crop works on, the crop window lies
    inside the image, and the noise loop stays inside the buffer and below
    2^32 - 1 elements, where its counter, which advances by two, cannot
    wrap. *)
Definition augment_fits (ctx : ct_augment_ctx_t) (input : ct_sample_t)
    (m : machine) : Prop :=
  let height := dim input 0 in
  let width := if ndims input >? 1 then dim input 1 else 1 in
  exists buf,
    mem m !! data input = Some buf /\
    Z.of_nat (length buf) < 2 ^ 32 /\
    0 <= width /\ 0 <= height /\
    (h_flip (flags ctx) = true -> width * height <= Z.of_nat (length buf)) /\
    (random_crop (flags ctx) && (crop_height ctx >? 0) && (crop_width ctx >? 0) = true ->
       crop_width ctx <= width /\ crop_height ctx <= height /\
       width * height <= Z.of_nat (length buf)) /\
    (gaussian_noise (flags ctx) && (noise_std ctx >? 0) = true ->
       0 <= total_elements (augmented ctx input) <= Z.of_nat (length buf) /\
       total_elements (augmented ctx input) < 2 ^ 32 - 1).

(** A computation that appends the PRF calls [L] to the log. *)
Definition logs {A} (c : M A) (L : list prf_call) : Prop :=
  forall m, prf_log (snd (c m)) = prf_log m ++ L.

(** What C leaves to the caller of [ct_normalize_sample]: both buffers hold
    the input's elements, and the two arrays of the context hold
    [num_features] entries. *)
Definition normalize_fits (ctx : ct_normalize_ctx_t) (input output : ct_sample_t)
    (m : machine) : Prop :=
  exists xs ys,
    mem m !! data input = Some xs /\ mem m !! data output = Some ys /\
    0 <= total_elements input <= Z.of_nat (length xs) /\
    total_elements input <= Z.of_nat (length ys) /\
    0 <= num_features ctx /\
    num_features ctx <= Z.of_nat (length (means ctx)) /\
    num_features ctx <= Z.of_nat (length (inv_stds ctx)).

(** The slots below the input's [batch_size] exist in both batches. *)
Definition slots_exist (input output : ct_batch_t) : Prop :=
  0 <= batch_size input /\
  (Z.to_nat (batch_size input) <= length (samples input))%nat /\
  (Z.to_nat (batch_size input) <= length (samples output))%nat.

(** What C leaves to the caller of [ct_normalize_batch] and of
    [ct_augment_batch]: the slots exist and every slot meets the
    preconditions of the sample-level function. *)
Definition normalize_batch_fits (ctx : ct_normalize_ctx_t)
    (input output : ct_batch_t) (m : machine) : Prop :=
  slots_exist input output /\
  forall i, 0 <= i < batch_size input ->
    normalize_fits ctx (sample_at (samples input) i)
                   (sample_at (samples output) i) m.

Definition augment_batch_fits (ctx : ct_augment_ctx_t)
    (input output : ct_batch_t) (m : machine) : Prop :=
  slots_exist input output /\
  forall i, 0 <= i < batch_size input ->
    augment_fits ctx (sample_at (samples input) i) m.




(** A batch holding the 1 x 2 image of [Inputs], an empty batch whose one
    slot points to buffer 2, and a heap with both buffers. *)
Definition image_batch : ct_batch_t :=
  Batch [Inputs.image] [zero_hash] 1 0 (repeat 0xAB 32%nat).
Definition blank_batch : ct_batch_t :=
  Batch [Sample 0 0 0 [0; 0; 0; 0] 0 2%nat] [zero_hash] 1 0 zero_hash.
Definition two_buffers : gmap nat (list Z) := <[2%nat := [0; 0]]> Inputs.image_heap.

(** What C leaves to the caller of [ct_batch_fill]: the batch starts inside
    the dataset, whose size is within the range of [ct_permute_index], the
    index arithmetic does not wrap, both arrays of the batch have
    [batch_size] entries, and the dataset holds [num_samples] samples whose
    buffers hold their elements. *)
Definition fill_fits (batch : ct_batch_t) (dataset : ct_dataset_t)
    (batch_index : Z) (m : machine) : Prop :=
  0 <= batch_index < 2 ^ 32 /\ 0 <= batch_size batch /\
  batch_index * batch_size batch <= num_samples dataset /\
  num_samples dataset <= 2 ^ 31 /\
  batch_index * batch_size batch + batch_size batch < 2 ^ 32 /\
  (Z.to_nat (batch_size batch) <= length (samples batch))%nat /\
  (Z.to_nat (batch_size batch) <= length (sample_hashes batch))%nat /\
  (forall j : nat, (j < Z.to_nat (num_samples dataset))%nat ->
     exists s buf, ds_samples dataset !! j = Some s /\
                   mem m !! data s = Some buf /\
                   0 <= total_elements s <= Z.of_nat (length buf)).

(** Splitting the conjunctions of a frame statement. *)
Ltac frame_split := split; [|split; [|split]].
Ltac runs_split := split; [|split; [|split; [|split]]].
Ltac touches_split := split; [|split; [|split; [|split]]].

(** * Theorems *)

(** ** Machine integers *)

Lemma u32_small (x : Z) : 0 <= x < 2 ^ 32 -> u32 x = x.
Proof. intros. unfold u32. apply Z.mod_small. assumption. Qed.

Lemma land_1_mod (q : Z) : Z.land q 1 = q mod 2.
Proof. change 1 with (Z.ones 1). rewrite Z.land_ones by lia. reflexivity. Qed.

(** ** DVM: round-to-nearest-even shift *)

Section RoundShift.
Import DVM.

Lemma is_rne_unique x shift y y' :
  0 <= shift -> Spec.is_rne x shift y -> Spec.is_rne x shift y' -> y = y'.
Proof.
  intros Hs [H1 T1] [H2 T2].
  assert (Hp : 0 < 2 ^ shift) by (apply Z.pow_pos_nonneg; lia).
  assert (Hd : Z.abs (y - y') <= 1) by nia.
  destruct (Z.eq_dec y y') as [|Hne]; [assumption|exfalso].
  assert (Ht1 : 2 * Z.abs (x - y * 2 ^ shift) = 2 ^ shift) by nia.
  assert (Ht2 : 2 * Z.abs (x - y' * 2 ^ shift) = 2 ^ shift) by nia.
  specialize (T1 Ht1). specialize (T2 Ht2).
  apply Z.even_spec in T1, T2. destruct T1 as [a ->], T2 as [b ->]. lia.
Qed.

Lemma dvm_clamp32_value y m : fst (dvm_clamp32 y m) = Spec.clamp_range y.
Proof.
  unfold dvm_clamp32, Spec.clamp_range, INT32_MAX, INT32_MIN.
  destruct (Z.gtb_spec y (2 ^ 31 - 1)); [cbn; lia|].
  destruct (Z.ltb_spec y (- 2 ^ 31)); cbn; lia.
Qed.

Lemma rne_split x shift :
  0 < shift ->
  let q := Z.shiftr x shift in
  let r := Z.land x (Z.shiftl 1 shift - 1) in
  x = q * 2 ^ shift + r /\ 0 <= r < 2 ^ shift /\
  Z.shiftl 1 (shift - 1) * 2 = 2 ^ shift.
Proof.
  intros Hs q r. subst q r.
  assert (Hp : 0 < 2 ^ shift) by (apply Z.pow_pos_nonneg; lia).
  rewrite Z.shiftr_div_pow2 by lia.
  replace (Z.shiftl 1 shift - 1) with (Z.ones shift)
    by (rewrite Z.ones_equiv, Z.shiftl_1_l; lia).
  rewrite Z.land_ones by lia.
  rewrite Z.shiftl_1_l.
  repeat split.
  - pose proof (Z.div_mod x (2 ^ shift)). lia.
  - apply Z.mod_pos_bound; lia.
  - apply Z.mod_pos_bound; lia.
  - replace shift with (shift - 1 + 1) at 2 by lia.
    rewrite Z.pow_add_r by lia. lia.
Qed.

Lemma even_round_up q : Z.even (q + Z.land q 1) = true.
Proof.
  rewrite land_1_mod, Z.even_add. rewrite (Zmod_even q).
  destruct (Z.even q); reflexivity.
Qed.

(** C6: for a shift above 62, [dvm_round_shift_rne] sets the domain fault
    and returns 0; for a shift in [0, 62] it returns the saturation to the
    32-bit signed range of the round-half-to-even value [y] of the exact
    quotient x / 2^shift, where [y = x] when the shift is 0 and, on a tie
    (frac = 2^(shift-1)), [y = quot + (quot & 1)]. *)
Theorem dvm_round_shift_rne_correct (x shift : Z) (m : machine) :
  0 <= shift ->
  (62 < shift /\
   dvm_round_shift_rne x shift m =
     (0, Machine (mem m) (set_domain (faults m)) (prf_log m) (stack_junk m)))
  \/
  (shift <= 62 /\
   exists y, Spec.is_rne x shift y /\
     dvm_round_shift_rne x shift m = dvm_clamp32 y m /\
     fst (dvm_round_shift_rne x shift m) = Spec.clamp_range y /\
     (shift = 0 -> y = x) /\
     (0 < shift -> Z.land x (Z.shiftl 1 shift - 1) = Z.shiftl 1 (shift - 1) ->
      y = Z.shiftr x shift + Z.land (Z.shiftr x shift) 1)).
Proof.
  intros Hs. unfold dvm_round_shift_rne.
  destruct (Z.gtb_spec shift 62) as [Hbig|Hle]; [left; split; [lia|reflexivity]|].
  right. split; [assumption|].
  destruct (Z.eqb_spec shift 0) as [->|Hnz].
  - exists x. split; [|split; [reflexivity|split; [apply dvm_clamp32_value|split; [reflexivity|lia]]]].
    unfold Spec.is_rne. rewrite Z.pow_0_r. split; lia.
  - destruct (rne_split x shift ltac:(lia)) as (Hx & Hr & Hh).
    set (q := Z.shiftr x shift) in *.
    set (r := Z.land x (Z.shiftl 1 shift - 1)) in *.
    set (h := Z.shiftl 1 (shift - 1)) in *.
    destruct (Z.ltb_spec r h) as [Hlt|Hge].
    + exists q. split; [split; lia|].
      split; [reflexivity|split; [apply dvm_clamp32_value|split; lia]].
    + destruct (Z.gtb_spec r h) as [Hgt|Hng].
      * exists (q + 1). split; [split; lia|].
        split; [reflexivity|split; [apply dvm_clamp32_value|split; lia]].
      * exists (q + Z.land q 1). split.
        -- split; [|intros _; apply even_round_up].
           assert (Hb : Z.land q 1 = 0 \/ Z.land q 1 = 1).
           { rewrite land_1_mod. pose proof (Z.mod_pos_bound q 2). lia. }
           nia.
        -- split; [reflexivity|split; [apply dvm_clamp32_value|split; [lia|reflexivity]]].
Qed.

(** The first reference vector of the test suite: 1.5 rounds to 2. *)
Lemma dvm_round_shift_rne_correct_witness :
  0 <= 16 /\
  fst (dvm_round_shift_rne 0x18000 16 (Machine ∅ no_faults [] [])) = 2.
Proof.
  split; [lia|].
  destruct (dvm_round_shift_rne_correct 0x18000 16 (Machine ∅ no_faults [] []))
    as [[Hbig _]|(_ & y & Hy & _ & Hval & _)]; [lia | lia |].
  rewrite Hval.
  assert (H2 : Spec.is_rne 0x18000 16 2).
  { split; [vm_compute; discriminate | intros _; reflexivity]. }
  rewrite (is_rne_unique 0x18000 16 y 2 ltac:(lia) Hy H2). reflexivity.
Defined.

End RoundShift.

(** ** PRF *)

(** The state word of the source is the one the specification builds. *)
Lemma ct_prng_state (seed epoch op_id : Z) :
  PRNG.ct_prng seed epoch op_id
  = PRNG.splitmix64 (PRNG.splitmix64 (Spec.prf_state seed epoch op_id)).
Proof. reflexivity. Qed.

(** Each call of [splitmix64] adds the increment, then mixes. *)
Lemma splitmix64_mix (x : Z) :
  PRNG.splitmix64 x = Spec.mix (u64 (x + Spec.GOLDEN_GAMMA)).
Proof. reflexivity. Qed.

(** C7, as amended: [ct_prng] applies the displayed mixing function twice
    to the state word seed XOR (epoch << 32) XOR op_id, and before each of
    the two applications it adds 0x9E3779B97F4A7C15 modulo 2^64. *)
Theorem ct_prng_is_splitmix (seed epoch op_id : Z) :
  PRNG.ct_prng seed epoch op_id
  = Spec.mix (u64 (Spec.mix (u64 (Spec.prf_state seed epoch op_id
                                   + Spec.GOLDEN_GAMMA))
                   + Spec.GOLDEN_GAMMA)).
Proof. rewrite ct_prng_state, !splitmix64_mix. reflexivity. Qed.

(** C7 as stated fails: without the increment the all-zero state is a fixed
    point of the mixing function, while the source returns a non-zero
    value. *)
Lemma ct_prng_not_plain_mix :
  Spec.prf 0 0 0 = 0 /\ PRNG.ct_prng 0 0 0 = 0xA706DD2F4D197E6F /\
  PRNG.ct_prng 0 0 0 <> Spec.prf 0 0 0.
Proof. repeat split. vm_compute. discriminate. Qed.

(** ** Permutation *)

Lemma ct_permute_index_trivial (index N seed epoch : Z) :
  N <= 1 -> Shuffle.ct_permute_index index N seed epoch = 0.
Proof.
  intros H. unfold Shuffle.ct_permute_index.
  destruct (Z.leb_spec N 1); [reflexivity|lia].
Qed.

Lemma ct_permute_index_clamp (index N seed epoch : Z) :
  1 < N -> N <= index -> Shuffle.ct_permute_index index N seed epoch = index mod N.
Proof.
  intros H1 H2. unfold Shuffle.ct_permute_index.
  destruct (Z.leb_spec N 1); [lia|].
  destruct (Z.geb_spec index N); [reflexivity|lia].
Qed.

Lemma cycle_walk_range (fuel : nat) (N seed epoch half_bits half_mask : Z) :
  forall i j,
    Shuffle.cycle_walk fuel N seed epoch half_bits half_mask i = Some j ->
    0 <= j < N.
Proof.
  induction fuel as [|fuel IH]; intros i j H; [discriminate H|].
  cbn [Shuffle.cycle_walk] in H.
  set (i' := Shuffle.feistel_network seed epoch half_bits half_mask i) in *.
  destruct (Z.ltb_spec i' N) as [Hlt|Hge].
  - injection H as <-. split; [|assumption].
    subst i'. unfold Shuffle.feistel_network.
    destruct (fold_left _ _ _) as [L R]. unfold u32.
    apply Z.mod_pos_bound. reflexivity.
  - apply (IH i' j H).
Qed.

(** Whatever the round function does, the result lies in [0, N). *)
Lemma ct_permute_index_range (index N seed epoch : Z) :
  1 <= N -> 0 <= Shuffle.ct_permute_index index N seed epoch < N.
Proof.
  intros HN. unfold Shuffle.ct_permute_index.
  destruct (Z.leb_spec N 1); [lia|].
  destruct (Z.geb_spec index N); [apply Z.mod_pos_bound; lia|].
  destruct (Shuffle.cycle_walk _ _ _ _ _ _ _) as [j|] eqn:Hw.
  - apply (cycle_walk_range _ _ _ _ _ _ _ _ Hw).
  - apply Z.mod_pos_bound. lia.
Qed.

(** C1 at N = 2, seed = 5, epoch = 0: the cycle walk from index 0 does not
    reach [0, 2) within its two iterations, so index 0 falls back to
    0 mod 2 = 0; index 1 is permuted to 0 as well, and nothing maps to 1. *)
Theorem ct_permute_index_not_bijective :
  Shuffle.cycle_walk 2 2 5 0 1 1 0 = None /\
  Shuffle.ct_permute_index 0 2 5 0 = 0 /\
  Shuffle.ct_permute_index 1 2 5 0 = 0 /\
  ~ (exists i, 0 <= i < 2 /\ Shuffle.ct_permute_index i 2 5 0 = 1).
Proof.
  assert (H0 : Shuffle.ct_permute_index 0 2 5 0 = 0) by (vm_compute; reflexivity).
  assert (H1 : Shuffle.ct_permute_index 1 2 5 0 = 0) by (vm_compute; reflexivity).
  split; [vm_compute; reflexivity|].
  split; [exact H0|]. split; [exact H1|].
  intros (i & Hi & Hp).
  assert (Hc : i = 0 \/ i = 1) by lia.
  destruct Hc as [-> | ->]; congruence.
Qed.

(** The reference vectors of the specification, on the model. *)
Example ct_permute_index_vectors :
  Shuffle.ct_permute_index 0 100 0x123456789ABCDEF0 0 = 26 /\
  Shuffle.ct_permute_index 99 100 0x123456789ABCDEF0 0 = 41 /\
  Shuffle.ct_permute_index 0 100 0x123456789ABCDEF0 1 = 66 /\
  Shuffle.ct_permute_index 0 60000 0xFEDCBA9876543210 0 = 26382 /\
  Shuffle.ct_permute_index 59999 60000 0xFEDCBA9876543210 0 = 20774.
Proof. vm_compute. repeat split. Qed.

(** The first and last round constants and the first initial word. *)
Example sha256_constants :
  nth 0 SHA256.K 0 = 0x428a2f98 /\ nth 63 SHA256.K 0 = 0xc67178f2 /\
  nth 0 SHA256.H0 0 = 0x6a09e667 /\ nth 7 SHA256.H0 0 = 0x5be0cd19.
Proof. repeat split. Qed.

(** The canonical digests of the empty string and of "abc". *)
Example sha256_vectors :
  SHA256.digest [] =
    [0xe3; 0xb0; 0xc4; 0x42; 0x98; 0xfc; 0x1c; 0x14; 0x9a; 0xfb; 0xf4; 0xc8;
     0x99; 0x6f; 0xb9; 0x24; 0x27; 0xae; 0x41; 0xe4; 0x64; 0x9b; 0x93; 0x4c;
     0xa4; 0x95; 0x99; 0x1b; 0x78; 0x52; 0xb8; 0x55] /\
  SHA256.digest [0x61; 0x62; 0x63] =
    [0xba; 0x78; 0x16; 0xbf; 0x8f; 0x01; 0xcf; 0xea; 0x41; 0x41; 0x40; 0xde;
     0x5d; 0xae; 0x22; 0x23; 0xb0; 0x03; 0x61; 0xa3; 0x96; 0x17; 0x7a; 0x9c;
     0xb4; 0x10; 0xff; 0x61; 0xf2; 0x00; 0x15; 0xad].
Proof. vm_compute. split; reflexivity. Qed.

(** ** Augmentation *)

Section AugmentFacts.
Import Augment Inputs.

(** With every flag cleared [ct_augment_sample] returns its input and
    leaves the machine as it was: no element is touched and no PRF call is
    made. *)
Lemma ct_augment_sample_all_disabled (seed epoch cw ch ns : Z)
    (input : ct_sample_t) (sample_idx : Z) (m : machine) :
  ct_augment_sample (AugmentCtx seed epoch flags_none cw ch ns) input sample_idx m
  = (input, m).
Proof. reflexivity. Qed.

(** The [v_flip] flag is never read: setting it alone changes nothing. *)
Lemma ct_augment_sample_vflip_ignored (seed epoch cw ch ns : Z)
    (input : ct_sample_t) (sample_idx : Z) (m : machine) :
  ct_augment_sample (AugmentCtx seed epoch flags_vflip cw ch ns) input sample_idx m
  = (input, m).
Proof. reflexivity. Qed.

(** Reads, writes and loops over them make no PRF call. *)
Lemma store_log (p : nat) (i v : Z) (m : machine) :
  prf_log (snd (store p i v m)) = prf_log m.
Proof. unfold store. destruct (mem m !! p); reflexivity. Qed.

Lemma for_each_log {A : Type} (l : list A) (body : A -> M unit) :
  (forall x m, prf_log (snd (body x m)) = prf_log m) ->
  forall m, prf_log (snd (for_each l body m)) = prf_log m.
Proof.
  intros Hb. induction l as [|x l IH]; intros m; [reflexivity|].
  cbn [for_each]. unfold bind. specialize (Hb x m).
  destruct (body x m) as [[] m1]. cbn [snd] in Hb.
  rewrite IH. exact Hb.
Qed.

Lemma swap_columns_log (sample : ct_sample_t) (width row col : Z) (m : machine) :
  prf_log (snd (swap_columns sample width row col m)) = prf_log m.
Proof.
  unfold swap_columns, bind, load.
  match goal with |- context [store ?p ?i ?v m] =>
    pose proof (store_log p i v m) as H1; destruct (store p i v m) as [[] m1] end.
  cbn [snd] in H1. rewrite store_log. exact H1.
Qed.

Lemma horizontal_flip_log (sample : ct_sample_t) (width height : Z) (m : machine) :
  prf_log (snd (horizontal_flip sample width height m)) = prf_log m.
Proof.
  unfold horizontal_flip. apply for_each_log. intros row m'.
  apply for_each_log. intros col m''. apply swap_columns_log.
Qed.

(** C2 as stated fails on the 1 x 2 image at seed 4, epoch 0, sample 0: the
    configuration with every flag cleared makes no PRF call, the one with
    the horizontal flip enabled makes one, the one with the noise enabled
    two. *)
Lemma augment_prf_calls_depend_on_flags :
  calls_of (ct_augment_sample (aug_ctx flags_none) image 0) = [] /\
  calls_of (ct_augment_sample (aug_ctx flags_hflip) image 0) = [(4, 0, 0x0100)] /\
  calls_of (ct_augment_sample (aug_ctx flags_noise) image 0)
    = [(4, 0, 0x1000); (4, 0, 0x1001)] /\
  calls_of (ct_augment_sample (aug_ctx flags_none) image 0)
    <> calls_of (ct_augment_sample (aug_ctx flags_hflip) image 0).
Proof. vm_compute. repeat split. discriminate. Qed.

(** C3, as amended: [ct_augment_sample] runs the three operations the
    source has in the fixed order horizontal flip, random crop, noise,
    whatever the flags, and a stage whose flag is cleared is the identity
    on the sample and on the machine. *)
Theorem augment_fixed_order (ctx : ct_augment_ctx_t) (input : ct_sample_t)
    (sample_idx : Z) (m : machine) :
  let height := dim input 0 in
  let width := if ndims input >? 1 then dim input 1 else 1 in
  ct_augment_sample ctx input sample_idx m
  = (let '(o1, m1) := stage_hflip ctx sample_idx width height input m in
     let '(o2, m2) := stage_crop ctx sample_idx width height o1 m1 in
     stage_noise ctx sample_idx o2 m2) /\
  (forall sd ep vf rc gn cw ch ns,
     stage_hflip (AugmentCtx sd ep (AugmentFlags false vf rc gn) cw ch ns)
                 sample_idx width height input m = (input, m)) /\
  (forall sd ep hf vf gn cw ch ns,
     stage_crop (AugmentCtx sd ep (AugmentFlags hf vf false gn) cw ch ns)
                sample_idx width height input m = (input, m)) /\
  (forall sd ep hf vf rc cw ch ns,
     stage_noise (AugmentCtx sd ep (AugmentFlags hf vf rc false) cw ch ns)
                 sample_idx input m = (input, m)).
Proof.
  intros height width. split; [|repeat split].
  unfold ct_augment_sample, bind, ret. fold height. fold width.
  destruct (stage_hflip ctx sample_idx width height input m) as [o1 m1].
  destruct (stage_crop ctx sample_idx width height o1 m1) as [o2 m2].
  destruct (stage_noise ctx sample_idx o2 m2) as [o3 m3]. reflexivity.
Qed.

(** C3 as stated fails on the 1 x 2 image [10; 20] with the flip and a
    1 x 1 crop enabled (seed 4: the flip is taken, the crop offset is
    x = 1).  The source flips first and crops second, which leaves 10 in
    the output element; cropping first and flipping second, the order the
    specification fixes, leaves 20.  A vertical flip is never applied: with
    [v_flip] alone the 2 x 1 image comes back unchanged for every seed. *)
Lemma augment_order_differs :
  data_after (ct_augment_sample (aug_ctx flags_flip_crop) image 0)
    = Some [10; 10] /\
  data_after (Spec.augment_in_spec_order (aug_ctx flags_flip_crop) image 0)
    = Some [20; 20] /\
  total_elements (fst (ct_augment_sample (aug_ctx flags_flip_crop) image 0
                                         (machine0 image_heap))) = 1 /\
  (forall seed epoch cw ch ns sample_idx,
     ct_augment_sample (AugmentCtx seed epoch flags_vflip cw ch ns) column
                       sample_idx (machine0 image_heap)
     = (column, machine0 image_heap)).
Proof.
  split; [vm_compute; reflexivity|].
  split; [vm_compute; reflexivity|].
  split; [vm_compute; reflexivity|].
  intros. apply ct_augment_sample_vflip_ignored.
Qed.

(** The flip alone, taken at seed 4, reverses the row. *)
Example hflip_taken :
  data_after (ct_augment_sample (aug_ctx flags_hflip) image 0) = Some [20; 10].
Proof. vm_compute. reflexivity. Qed.

End AugmentFacts.

(** ** Batch-level normalize: the data changes under the stored hash *)

(** Normalising the one-sample batch in place changes buffer 1 while the
    stored hash stays the input's; the statement for every batch comes with
    the slot-level facts at the end. *)
Example normalize_rewrites_data :
  let input := Batch [Inputs.one_sample] [zero_hash] 1 0 (repeat 0xAB 32%nat) in
  let r := Normalize.ct_normalize_batch (NormalizeCtx [FIXED_HALF] [FIXED_ONE] 1)
             input input (Inputs.machine0 Inputs.one_heap) in
  mem (snd r) !! 1%nat = Some [32768] /\
  batch_hash (fst r) = repeat 0xAB 32%nat.
Proof. vm_compute. split; reflexivity. Qed.

(** ** Merkle root *)

Section MerkleFacts.
Import Merkle.

Lemma upto_snoc (k : nat) : upto (Z.of_nat (S k)) = upto (Z.of_nat k) ++ [Z.of_nat k].
Proof.
  unfold upto. replace (Z.of_nat (S k)) with (Z.of_nat k + 1) by lia.
  rewrite seqZ_app by lia. reflexivity.
Qed.

Section Levels.
Variable L : list ct_hash_t.

(** The in-place pass, after [k] steps: the first [k] entries hold the
    next level, the others are untouched. *)
Lemma level_pass_prefix (tree : list ct_hash_t) (k : nat) :
  (length L <= length tree)%nat ->
  Z.of_nat (length L) < 2 ^ 31 ->
  take (length L) tree = L ->
  (2 * k <= length L + 1)%nat ->
  let tree' := fold_left (combine_at (Z.of_nat (length L))) (upto (Z.of_nat k)) tree in
  length tree' = length tree /\
  (forall j, (j < k)%nat -> tree' !! j = Some (node_at L j)) /\
  (forall j, (k <= j)%nat -> tree' !! j = tree !! j).
Proof.
  intros Hlen Hbig Htake. induction k as [|k IH]; intros Hk tree'.
  - subst tree'. cbn. split; [reflexivity|split; [intros j Hj; lia|reflexivity]].
  - destruct (IH ltac:(lia)) as (Hl & Hlo & Hhi). clear IH.
    subst tree'. rewrite upto_snoc, fold_left_app. cbn [fold_left].
    set (t := fold_left (combine_at (Z.of_nat (length L))) (upto (Z.of_nat k)) tree) in *.
    assert (Hat : forall i, (k <= i)%nat -> (i < length L)%nat ->
               hash_at t (Z.of_nat i) = default zero_hash (L !! i)).
    { intros i Hi Hi'. unfold hash_at. rewrite Nat2Z.id, Hhi by lia.
      rewrite <- (lookup_take_lt tree (length L) i) by lia.
      rewrite Htake. reflexivity. }
    assert (Hnew : combine_at (Z.of_nat (length L)) t (Z.of_nat k)
                   = <[k := node_at L k]> t).
    { unfold combine_at, node_at.
      rewrite (u32_small (Z.of_nat k * 2)) by lia.
      rewrite (u32_small (Z.of_nat k * 2 + 1)) by lia.
      rewrite Nat2Z.id.
      replace (Z.of_nat k * 2) with (Z.of_nat (2 * k)) by lia.
      replace (Z.of_nat (2 * k) + 1) with (Z.of_nat (2 * k + 1)) by lia.
      destruct (Z.ltb_spec (Z.of_nat (2 * k + 1)) (Z.of_nat (length L)));
        destruct (Nat.ltb_spec (2 * k + 1) (length L)); try lia.
      - rewrite !Hat by lia. reflexivity.
      - rewrite Hat by lia. reflexivity. }
    rewrite Hnew. split; [|split].
    + rewrite length_insert. assumption.
    + intros j Hj. destruct (decide (j = k)) as [->|Hne].
      * apply list_lookup_insert_eq. lia.
      * rewrite list_lookup_insert_ne by congruence. apply Hlo. lia.
    + intros j Hj. rewrite list_lookup_insert_ne by lia. apply Hhi. lia.
Qed.
End Levels.

Section PairUp.
Variable node : ct_hash_t -> ct_hash_t -> ct_hash_t.

Lemma pair_up_length (l : list ct_hash_t) :
  length (Spec.pair_up node l) = ((length l + 1) / 2)%nat.
Proof.
  induction l as [l IH] using (induction_ltof1 _ (@length _)); unfold ltof in IH.
  destruct l as [|a [|b r]]; [reflexivity..|].
  cbn [Spec.pair_up length]. rewrite IH by (cbn; lia).
  replace (S (S (length r)) + 1)%nat with (length r + 1 + 1 * 2)%nat by lia.
  rewrite Nat.div_add by lia. lia.
Qed.
End PairUp.

Lemma pair_up_lookup (l : list ct_hash_t) (j : nat) :
  (2 * j < length l)%nat ->
  Spec.pair_up ct_hash_internal l !! j = Some (node_at l j).
Proof.
  revert l. induction j as [|j IH]; intros l Hj.
  - destruct l as [|a [|b r]]; cbn in Hj; try lia; reflexivity.
  - destruct l as [|a [|b r]]; cbn in Hj; try lia.
    cbn [Spec.pair_up]. rewrite lookup_cons_ne_0 by lia. cbn [pred].
    rewrite IH by lia. f_equal. unfold node_at. cbn [length].
    replace (2 * S j)%nat with (S (S (2 * j))) by lia.
    replace (S (S (2 * j)) + 1)%nat with (S (S (2 * j + 1))) by lia.
    cbn [lookup list_lookup].
    destruct (Nat.ltb_spec (S (S (2 * j + 1))) (S (S (length r))));
      destruct (Nat.ltb_spec (2 * j + 1) (length r)); try lia; reflexivity.
Qed.

Lemma level_pass_pair_up (L tree : list ct_hash_t) :
  (length L <= length tree)%nat ->
  Z.of_nat (length L) < 2 ^ 31 ->
  take (length L) tree = L ->
  let next := u32 (Z.of_nat (length L) + 1) / 2 in
  let tree' := level_pass (Z.of_nat (length L)) next tree in
  let L' := Spec.pair_up ct_hash_internal L in
  next = Z.of_nat (length L') /\
  length tree' = length tree /\
  take (length L') tree' = L'.
Proof.
  intros Hlen Hbig Htake next tree' L'.
  assert (HL' : length L' = ((length L + 1) / 2)%nat) by apply pair_up_length.
  assert (Hnext : next = Z.of_nat (length L')).
  { subst next. rewrite u32_small by lia. rewrite HL'.
    rewrite Nat2Z.inj_div. f_equal. lia. }
  pose proof (Nat.div_mod_eq (length L + 1) 2) as Hdm.
  pose proof (Nat.mod_upper_bound (length L + 1) 2 ltac:(lia)) as Hmb.
  destruct (level_pass_prefix L tree (length L') Hlen Hbig Htake ltac:(lia))
    as (Hl & Hlo & _).
  split; [assumption|].
  subst tree'. unfold level_pass. rewrite Hnext.
  split; [assumption|].
  apply list_eq. intros j.
  destruct (decide (j < length L')%nat) as [Hj|Hj].
  - rewrite lookup_take_lt by lia. rewrite Hlo by assumption.
    symmetry. apply pair_up_lookup. lia.
  - rewrite lookup_take_ge by lia. symmetry. apply lookup_ge_None. lia.
Qed.

Lemma build_tree_reduce (fuel : nat) : forall (L tree : list ct_hash_t),
  (1 <= length L)%nat ->
  (length L <= length tree)%nat ->
  Z.of_nat (length L) < 2 ^ 31 ->
  take (length L) tree = L ->
  let R := Spec.reduce ct_hash_internal fuel L in
  (1 <= length R)%nat /\
  take (length R) (build_tree fuel (Z.of_nat (length L)) tree) = R.
Proof.
  induction fuel as [|fuel IH]; intros L tree Hne Hlen Hbig Htake R.
  - subst R. cbn. split; assumption.
  - subst R. destruct L as [|a [|b r]].
    + cbn in Hne. lia.
    + cbn. split; [lia|assumption].
    + cbn [Spec.reduce build_tree].
    set (L := a :: b :: r) in *.
    assert (Hgt : (Z.of_nat (length L) >? 1) = true)
      by (apply Z.gtb_lt; subst L; cbn [length]; lia).
    rewrite Hgt.
    destruct (level_pass_pair_up L tree Hlen Hbig Htake) as (Hnext & Hl' & Htake').
    pose proof (pair_up_length ct_hash_internal L) as HL'.
    assert (Hdiv : (1 <= (length L + 1) / 2 <= length L)%nat).
    { subst L. cbn [length]. split.
      - apply Nat.div_le_lower_bound; lia.
      - apply Nat.Div0.div_le_upper_bound; lia. }
    set (next := u32 (Z.of_nat (length L) + 1) / 2) in *.
    set (tree' := level_pass (Z.of_nat (length L)) next tree) in *.
    pose proof (IH (Spec.pair_up ct_hash_internal L) tree'
                  ltac:(lia) ltac:(lia) ltac:(lia) Htake') as HIH.
    cbv zeta in HIH. rewrite <- Hnext in HIH. exact HIH.
Qed.

Section Fuel.
Variable node : ct_hash_t -> ct_hash_t -> ct_hash_t.

Lemma reduce_fuel (f1 : nat) : forall (f2 : nat) (l : list ct_hash_t),
  Z.of_nat (length l) <= 2 ^ Z.of_nat f1 ->
  Z.of_nat (length l) <= 2 ^ Z.of_nat f2 ->
  Spec.reduce node f1 l = Spec.reduce node f2 l.
Proof.
  induction f1 as [|f1 IH]; intros f2 l H1 H2.
  - destruct l as [|a [|b r]]; [destruct f2; reflexivity..|].
    cbn in H1. lia.
  - destruct l as [|a [|b r]]; [destruct f2; reflexivity..|].
    destruct f2 as [|f2]; [cbn in H2; lia|].
    cbn [Spec.reduce]. set (l := a :: b :: r) in *.
    pose proof (pair_up_length node l) as Hl.
    assert (Hhalf : forall f, Z.of_nat (length l) <= 2 ^ Z.of_nat (S f) ->
               Z.of_nat (length (Spec.pair_up node l)) <= 2 ^ Z.of_nat f).
    { intros f Hf. rewrite Hl, Nat2Z.inj_div.
      rewrite Nat2Z.inj_succ, Z.pow_succ_r in Hf by lia.
      change (Z.of_nat 2) with 2.
      generalize dependent (2 ^ Z.of_nat f). intros p Hp.
      Z.div_mod_to_equations. lia. }
    apply IH; apply Hhalf; assumption.
Qed.
End Fuel.

Lemma copy_leaves_prefix (leaves tree : list ct_hash_t) (k : nat) :
  (k <= length leaves)%nat -> (k <= length tree)%nat ->
  let tree' := fold_left (fun tree i => <[Z.to_nat i := hash_at leaves i]> tree)
                         (upto (Z.of_nat k)) tree in
  length tree' = length tree /\ take k tree' = take k leaves.
Proof.
  induction k as [|k IH]; intros Hk Hk' tree'.
  - subst tree'. cbn. split; [reflexivity|]. rewrite !take_0. reflexivity.
  - destruct (IH ltac:(lia) ltac:(lia)) as (Hl & Ht). clear IH.
    subst tree'. rewrite upto_snoc, fold_left_app. cbn [fold_left].
    set (t := fold_left _ (upto (Z.of_nat k)) tree) in *.
    rewrite Nat2Z.id. split; [rewrite length_insert; assumption|].
    destruct (lookup_lt_is_Some_2 leaves k ltac:(lia)) as [x Hx].
    unfold hash_at. rewrite Nat2Z.id, Hx. cbn [default].
    rewrite (take_S_r leaves k x Hx).
    rewrite (take_S_r (<[k:=x]> t) k x) by (apply list_lookup_insert_eq; lia).
    rewrite take_insert_ge by lia. rewrite Ht. reflexivity.
Qed.

Lemma ct_merkle_root_within_capacity (leaves : list ct_hash_t) (m : machine) :
  (length leaves <= 1024)%nat ->
  fst (ct_merkle_root leaves (Z.of_nat (length leaves)) m)
  = Spec.merkle_root ct_hash_internal leaves.
Proof.
  intros Hcap. unfold ct_merkle_root.
  destruct leaves as [|a [|b r]]; [reflexivity..|].
  set (leaves := a :: b :: r) in *.
  assert (Hn : (2 <= length leaves)%nat) by (subst leaves; cbn [length]; lia).
  destruct (Z.eqb_spec (Z.of_nat (length leaves)) 0); [lia|].
  destruct (Z.eqb_spec (Z.of_nat (length leaves)) 1); [lia|].
  cbn [fst]. unfold copy_leaves.
  rewrite Z.min_l by lia.
  set (tree0 := resize 2048 zero_hash (stack_junk m)).
  assert (H0 : length tree0 = 2048%nat) by apply length_resize.
  destruct (copy_leaves_prefix leaves tree0 (length leaves) ltac:(lia) ltac:(lia))
    as (Hl1 & Ht1).
  set (tree1 := fold_left _ (upto (Z.of_nat (length leaves))) tree0) in *.
  rewrite firstn_all in Ht1.
  destruct (build_tree_reduce 32 leaves tree1 ltac:(lia) ltac:(lia) ltac:(lia) Ht1)
    as (HR & HtR).
  set (t := build_tree 32 (Z.of_nat (length leaves)) tree1) in *.
  change (Spec.merkle_root ct_hash_internal leaves)
    with (hd zero_hash (Spec.reduce ct_hash_internal (length leaves) leaves)).
  rewrite (reduce_fuel ct_hash_internal (length leaves) 32 leaves).
  - set (R := Spec.reduce ct_hash_internal 32 leaves) in *.
    unfold hash_at. cbn [Z.to_nat].
    rewrite <- HtR. destruct R as [|x R']; [cbn in HR; lia|].
    cbn [length]. destruct t as [|y t']; reflexivity.
  - pose proof (Z.pow_gt_lin_r 2 (Z.of_nat (length leaves))). lia.
  - change (2 ^ Z.of_nat 32) with 4294967296. lia.
Qed.

(** *** Beyond the capacity: only the first 1024 leaves are read *)

Lemma fold_left_ext_elem {A B : Type} (f g : A -> B -> A) (l : list B) :
  forall a, (forall a x, x ∈ l -> f a x = g a x) ->
  fold_left f l a = fold_left g l a.
Proof.
  induction l as [|x l IH]; intros a H; [reflexivity|].
  cbn [fold_left]. rewrite (H a x) by (left).
  apply IH. intros a' y Hy. apply H. right. assumption.
Qed.

Lemma copy_leaves_truncates (l1 l2 : list ct_hash_t) (count : Z)
    (tree : list ct_hash_t) :
  take 1024 l1 = take 1024 l2 ->
  copy_leaves l1 count tree = copy_leaves l2 count tree.
Proof.
  intros Ht. unfold copy_leaves. apply fold_left_ext_elem.
  intros t i Hi. apply elem_of_seqZ in Hi. f_equal. unfold hash_at.
  rewrite <- (lookup_take_lt l1 1024) by lia.
  rewrite <- (lookup_take_lt l2 1024) by lia.
  rewrite Ht. reflexivity.
Qed.

Lemma ct_merkle_root_truncates (l1 l2 : list ct_hash_t) (count : Z) (m : machine) :
  take 1024 l1 = take 1024 l2 ->
  ct_merkle_root l1 count m = ct_merkle_root l2 count m.
Proof.
  intros Ht. unfold ct_merkle_root.
  destruct (count =? 0); [reflexivity|].
  destruct (count =? 1).
  - f_equal. unfold hash_at.
    rewrite <- (lookup_take_lt l1 1024) by (cbn; lia).
    rewrite <- (lookup_take_lt l2 1024) by (cbn; lia).
    rewrite Ht. reflexivity.
  - rewrite (copy_leaves_truncates l1 l2 count _ Ht). reflexivity.
Qed.

(** [ct_merkle_root] has no access to the fault flags: the machine comes
    back as it was, for every leaf count. *)
Lemma ct_merkle_root_pure (leaves : list ct_hash_t) (count : Z) (m : machine) :
  snd (ct_merkle_root leaves count m) = m.
Proof.
  unfold ct_merkle_root.
  destruct (count =? 0); [reflexivity|].
  destruct (count =? 1); reflexivity.
Qed.

Lemma hash_at_resize (leaves : list ct_hash_t) (n : nat) (i : Z) :
  (Z.to_nat i < n)%nat ->
  hash_at (resize n zero_hash leaves) i = hash_at leaves i.
Proof.
  intros Hi. unfold hash_at.
  destruct (decide (Z.to_nat i < length leaves)%nat) as [Hl|Hl].
  - rewrite lookup_resize by lia. reflexivity.
  - rewrite lookup_resize_new by lia.
    rewrite (lookup_ge_None_2 leaves) by lia. reflexivity.
Qed.

(** Within the capacity the root is that of the first [count] entries,
    an absent entry reading as the all-zero digest; the scratch array's
    previous contents play no part. *)
Lemma ct_merkle_root_resize (leaves : list ct_hash_t) (count : Z) (m : machine) :
  0 <= count <= 1024 ->
  fst (ct_merkle_root leaves count m)
  = Spec.merkle_root ct_hash_internal (resize (Z.to_nat count) zero_hash leaves).
Proof.
  intros Hc.
  set (L := resize (Z.to_nat count) zero_hash leaves).
  assert (HL : length L = Z.to_nat count) by (subst L; apply length_resize).
  rewrite <- (ct_merkle_root_within_capacity L m) by lia.
  rewrite HL, Z2Nat.id by lia.
  unfold ct_merkle_root.
  destruct (count =? 0); [reflexivity|].
  destruct (Z.eqb_spec count 1) as [->|Hne].
  - cbn [fst]. subst L. symmetry. apply hash_at_resize. cbn. lia.
  - cbn [fst].
    assert (Hcp : forall t, copy_leaves leaves count t = copy_leaves L count t).
    { intros t. unfold copy_leaves.
      apply fold_left_ext_elem. intros t' i Hi. apply elem_of_seqZ in Hi.
      f_equal. subst L. symmetry. apply hash_at_resize. lia. }
    rewrite Hcp. reflexivity.
Qed.

(** *** The node function *)

Lemma blocks_length (n : nat) : forall (bs h : list Z),
  length h = 8%nat -> length (SHA256.blocks n bs h) = 8%nat.
Proof.
  induction n as [|n IH]; intros bs h Hh; cbn [SHA256.blocks]; [assumption|].
  apply IH. reflexivity.
Qed.

Lemma digest_length (msg : list Z) : length (SHA256.digest msg) = 32%nat.
Proof.
  unfold SHA256.digest.
  pose proof (blocks_length (length (SHA256.pad msg) / 64) (SHA256.pad msg)
                SHA256.H0 eq_refl) as H.
  destruct (SHA256.blocks _ _ _) as [|x0 [|x1 [|x2 [|x3 [|x4 [|x5 [|x6 [|x7 [|x8 r]]]]]]]]];
    try discriminate H.
  reflexivity.
Qed.

Lemma ct_hash_internal_node (L R : ct_hash_t) :
  length L = 32%nat -> length R = 32%nat ->
  ct_hash_internal L R = Spec.H_node L R.
Proof.
  intros HL HR.
  unfold ct_hash_internal, Spec.H_node, SHA256.ct_sha256_final,
    SHA256.ct_sha256_update, SHA256.ct_sha256_init.
  rewrite !firstn_all2 by (cbn [length]; lia). reflexivity.
Qed.

(** *** Levels of equal nodes

    A level made of [2^k] copies of one node followed by one more node
    reduces to a single pairing at the top. *)

Section RepeatLevels.
Variable node : ct_hash_t -> ct_hash_t -> ct_hash_t.

Lemma pair_up_repeat_snoc (x z : ct_hash_t) (n : nat) :
  Spec.pair_up node (repeat x (2 * n) ++ [z]) = repeat (node x x) n ++ [z].
Proof.
  induction n as [|n IH]; [reflexivity|].
  replace (2 * S n)%nat with (S (S (2 * n))) by lia.
  cbn [repeat app Spec.pair_up]. rewrite IH. reflexivity.
Qed.

Lemma reduce_repeat_snoc (k : nat) : forall (fuel : nat) (x z : ct_hash_t),
  (k < fuel)%nat ->
  Spec.reduce node fuel (repeat x (2 ^ k) ++ [z])
  = [node (Nat.iter k (fun y => node y y) x) z].
Proof.
  induction k as [|k IH]; intros fuel x z Hf.
  - destruct fuel as [|fuel]; [lia|]. cbn. destruct fuel; reflexivity.
  - destruct fuel as [|fuel]; [lia|].
    rewrite Nat.pow_succ_r'.
    pose proof (Nat.pow_nonzero 2 k ltac:(lia)) as Hnz.
    destruct (2 ^ k)%nat as [|p] eqn:Hp; [congruence|].
    replace (2 * S p)%nat with (S (S (2 * p))) by lia.
    cbn [repeat app Spec.reduce].
    change (x :: x :: repeat x (2 * p) ++ [z])
      with (repeat x (S (S (2 * p))) ++ [z]).
    replace (S (S (2 * p))) with (2 * S p)%nat by lia.
    rewrite pair_up_repeat_snoc, IH by lia.
    rewrite Nat.iter_succ_r. reflexivity.
Qed.

Lemma merkle_root_repeat_snoc (k : nat) (x z : ct_hash_t) :
  Spec.merkle_root node (repeat x (2 ^ k) ++ [z])
  = node (Nat.iter k (fun y => node y y) x) z.
Proof.
  assert (Hlen : length (repeat x (2 ^ k) ++ [z]) = (2 ^ k + 1)%nat)
    by (rewrite length_app, repeat_length; reflexivity).
  pose proof (Nat.pow_gt_lin_r 2 k ltac:(lia)) as Hgt.
  unfold Spec.merkle_root.
  rewrite Hlen, reduce_repeat_snoc by lia.
  pose proof (Nat.pow_nonzero 2 k ltac:(lia)) as Hnz.
  destruct (2 ^ k)%nat as [|[|p]]; [congruence|reflexivity..].
Qed.

End RepeatLevels.

(** *** Main results *)

(** C5, as amended: for every list of at most 1024 leaves (the capacity of
    the scratch array), [ct_merkle_root] returns the all-zero digest for no
    leaf, the leaf itself for one leaf, and otherwise the root obtained by
    pairing adjacent nodes level by level with the last node of an odd level
    promoted unchanged; for three 32-byte leaves that is
    H_node(H_node(a, b), c). *)
Theorem ct_merkle_root_promotes (leaves : list ct_hash_t) (m : machine) :
  (length leaves <= 1024)%nat ->
  let root := fst (ct_merkle_root leaves (Z.of_nat (length leaves)) m) in
  root = Spec.merkle_root ct_hash_internal leaves /\
  (leaves = [] -> root = zero_hash) /\
  (forall a, leaves = [a] -> root = a) /\
  (forall a b c, leaves = [a; b; c] ->
     length a = 32%nat -> length b = 32%nat -> length c = 32%nat ->
     root = Spec.H_node (Spec.H_node a b) c).
Proof.
  intros Hcap root.
  assert (Hroot : root = Spec.merkle_root ct_hash_internal leaves)
    by (apply ct_merkle_root_within_capacity; assumption).
  split; [assumption|]. rewrite Hroot. clear Hroot root.
  split; [intros ->; reflexivity|].
  split; [intros a ->; reflexivity|].
  intros a b c -> Ha Hb Hc.
  change (Spec.merkle_root ct_hash_internal [a; b; c])
    with (ct_hash_internal (ct_hash_internal a b) c).
  rewrite (ct_hash_internal_node a b Ha Hb).
  apply ct_hash_internal_node; [apply digest_length|assumption].
Qed.

(** The 3-leaf test of the unit tests (leaves 0x11.., 0x22.., 0x33..). *)
Lemma ct_merkle_root_promotes_witness :
  (3 <= 1024)%nat /\
  fst (ct_merkle_root [repeat 0x11 32%nat; repeat 0x22 32%nat; repeat 0x33 32%nat] 3
                      (Inputs.machine0 ∅))
  = Spec.H_node (Spec.H_node (repeat 0x11 32%nat) (repeat 0x22 32%nat))
                (repeat 0x33 32%nat).
Proof.
  split; [lia|].
  apply (ct_merkle_root_promotes
           [repeat 0x11 32%nat; repeat 0x22 32%nat; repeat 0x33 32%nat]
           (Inputs.machine0 ∅)); [cbn; lia | reflexivity..].
Defined.

(** C5 as stated, for every list of leaves, fails at 1025 leaves: the two
    lists of [Inputs] differ in their last leaf, so their roots under the
    pairing-and-promotion rule differ, but the source returns one and the
    same value for both, whatever the scratch array held. *)
Lemma ct_merkle_root_beyond_capacity :
  ~ (forall (leaves : list ct_hash_t) (m : machine),
       fst (ct_merkle_root leaves (Z.of_nat (length leaves)) m)
       = Spec.merkle_root ct_hash_internal leaves).
Proof.
  intros H.
  pose proof (H Inputs.leaves_a (Inputs.machine0 ∅)) as Ha.
  pose proof (H Inputs.leaves_b (Inputs.machine0 ∅)) as Hb.
  assert (La : Z.of_nat (length Inputs.leaves_a) = 1025) by (vm_compute; reflexivity).
  assert (Lb : Z.of_nat (length Inputs.leaves_b) = 1025) by (vm_compute; reflexivity).
  assert (Ht : take 1024 Inputs.leaves_a = take 1024 Inputs.leaves_b)
    by (vm_compute; reflexivity).
  rewrite La in Ha. rewrite Lb in Hb.
  pose proof (ct_merkle_root_truncates Inputs.leaves_a Inputs.leaves_b 1025
                (Inputs.machine0 ∅) Ht) as Hcut.
  assert (Heq : Spec.merkle_root ct_hash_internal Inputs.leaves_a
                = Spec.merkle_root ct_hash_internal Inputs.leaves_b)
    by congruence.
  clear - Heq. unfold Inputs.leaves_a, Inputs.leaves_b in Heq.
  change 1024%nat with (2 ^ 10)%nat in Heq.
  rewrite !merkle_root_repeat_snoc in Heq.
  revert Heq. vm_compute. discriminate.
Qed.

(** C9, as amended: [ct_merkle_root] has no fault-flag output and leaves the
    machine, fault flags included, unchanged; for every leaf list within the
    capacity of 1024 no leaf is dropped: all of them are copied into the
    scratch array, and the root does not depend on what the array held
    before. *)
Theorem ct_merkle_root_capacity (leaves : list ct_hash_t) (m m' : machine) :
  (length leaves <= 1024)%nat ->
  let count := Z.of_nat (length leaves) in
  (forall (ls : list ct_hash_t) (c : Z), snd (ct_merkle_root ls c m) = m) /\
  take (length leaves)
       (copy_leaves leaves count (resize 2048 zero_hash (stack_junk m))) = leaves /\
  fst (ct_merkle_root leaves count m) = fst (ct_merkle_root leaves count m').
Proof.
  intros Hcap count. split; [intros ls c; apply ct_merkle_root_pure|]. split.
  - unfold copy_leaves. subst count. rewrite Z.min_l by lia.
    destruct (copy_leaves_prefix leaves (resize 2048 zero_hash (stack_junk m))
                (length leaves) ltac:(lia)
                ltac:(rewrite length_resize; lia)) as (_ & Ht).
    rewrite Ht. apply firstn_all.
  - subst count. rewrite !ct_merkle_root_within_capacity by assumption.
    reflexivity.
Qed.

Lemma ct_merkle_root_capacity_witness :
  (2 <= 1024)%nat /\
  fst (ct_merkle_root [repeat 0x11 32%nat; repeat 0x22 32%nat] 2
                      (Machine ∅ no_faults [] []))
  = fst (ct_merkle_root [repeat 0x11 32%nat; repeat 0x22 32%nat] 2
                        (Machine ∅ no_faults [] [repeat 0x77 32%nat; repeat 0x88 32%nat])).
Proof.
  split; [lia|].
  apply (ct_merkle_root_capacity [repeat 0x11 32%nat; repeat 0x22 32%nat]
           (Machine ∅ no_faults [] [])
           (Machine ∅ no_faults [] [repeat 0x77 32%nat; repeat 0x88 32%nat])).
  cbn. lia.
Defined.

(** C9 as stated fails at 1025 leaves, one more than the capacity: the
    domain flag stays clear, no other flag is set, a root is returned, and
    it is the same for two lists that differ in the leaf beyond the
    capacity: that leaf is dropped without notice. *)
Lemma ct_merkle_root_truncates_silently :
  Z.of_nat (length Inputs.leaves_a) = 1025 /\
  Inputs.leaves_a <> Inputs.leaves_b /\
  domain (faults (snd (ct_merkle_root Inputs.leaves_a 1025 (Inputs.machine0 ∅))))
    = false /\
  ct_has_fault (faults (snd (ct_merkle_root Inputs.leaves_a 1025 (Inputs.machine0 ∅))))
    = false /\
  (forall m, ct_merkle_root Inputs.leaves_a 1025 m
             = ct_merkle_root Inputs.leaves_b 1025 m).
Proof.
  split; [vm_compute; reflexivity|].
  split.
  { intros Heq. apply (f_equal (fun l => l !! 1024%nat)) in Heq.
    revert Heq. vm_compute. discriminate. }
  rewrite ct_merkle_root_pure.
  split; [reflexivity|]. split; [reflexivity|].
  intros m. apply ct_merkle_root_truncates. vm_compute. reflexivity.
Qed.

End MerkleFacts.

(** ** Batch fill and verification *)

Section BatchFacts.
Import Merkle BatchOps.

Lemma hash_elements_pure (sample : ct_sample_t) (idxs : list Z) :
  forall (ctx : SHA256.ctx) (m : machine),
    snd (hash_elements sample idxs ctx m) = m.
Proof.
  induction idxs as [|i idxs IH]; intros ctx m; [reflexivity|].
  cbn [hash_elements]. unfold bind, load. apply IH.
Qed.

Lemma ct_hash_sample_pure (sample : ct_sample_t) (m : machine) :
  snd (ct_hash_sample sample m) = m.
Proof.
  unfold ct_hash_sample, bind, ret.
  pose proof (hash_elements_pure sample (upto (total_elements sample))) as H.
  match goal with |- context [hash_elements ?s ?l ?c ?m] =>
    specialize (H c m); destruct (hash_elements s l c m) as [c' m'] end.
  exact H.
Qed.

Lemma fill_slots_pure (dataset : ct_dataset_t) (start_idx epoch seed : Z)
    (idxs : list Z) :
  forall (ss : list ct_sample_t) (hs : list ct_hash_t) (m : machine),
    snd (fill_slots dataset start_idx epoch seed idxs ss hs m) = m /\
    length (snd (fst (fill_slots dataset start_idx epoch seed idxs ss hs m)))
      = length hs.
Proof.
  induction idxs as [|i idxs IH]; intros ss hs m; [split; reflexivity|].
  cbn [fill_slots]. unfold bind.
  match goal with |- context [ct_hash_sample ?s m] =>
    pose proof (ct_hash_sample_pure s m) as Hp;
    destruct (ct_hash_sample s m) as [h m1] end.
  cbn [snd] in Hp. subst m1.
  match goal with |- context [fill_slots _ _ _ _ idxs ?ss' ?hs' m] =>
    destruct (IH ss' hs' m) as (H1 & H2) end.
  split; [assumption|]. rewrite H2. apply length_insert.
Qed.

(** The padding loop writes the zero digest at each of its indices. *)
Lemma pad_slots_zero (idxs : list Z) : forall (ss : list ct_sample_t)
    (hs : list ct_hash_t) (j : nat),
  hs !! j = Some zero_hash \/
  ((j < length hs)%nat /\ exists i, i ∈ idxs /\ Z.to_nat i = j) ->
  snd (pad_slots idxs ss hs) !! j = Some zero_hash.
Proof.
  unfold pad_slots.
  induction idxs as [|a idxs IH]; intros ss hs j Hj.
  - destruct Hj as [Hj|(_ & i & Hi & _)]; [exact Hj|].
    apply elem_of_nil in Hi. contradiction.
  - cbn [fold_left]. apply IH.
    destruct (decide (Z.to_nat a = j)) as [Heq|Hne].
    + left. rewrite Heq. apply list_lookup_insert_eq.
      destruct Hj as [Hj|[Hj _]]; [apply lookup_lt_Some in Hj|]; assumption.
    + destruct Hj as [Hj|(Hlt & i & Hi & Hij)].
      * left. rewrite list_lookup_insert_ne by assumption. exact Hj.
      * right. rewrite length_insert. split; [assumption|].
        exists i. split; [|assumption].
        apply elem_of_cons in Hi. destruct Hi as [->|Hi]; [congruence|assumption].
Qed.

Lemma fill_slots_lookup (dataset : ct_dataset_t) (start ep sd : Z) (m : machine)
    (idxs : list Z) :
  forall (ss : list ct_sample_t) (hs : list ct_hash_t),
    NoDup (Z.to_nat <$> idxs) ->
    let r := fst (fill_slots dataset start ep sd idxs ss hs m) in
    length (fst r) = length ss /\ length (snd r) = length hs /\
    (forall j, j ∉ (Z.to_nat <$> idxs) ->
       fst r !! j = ss !! j /\ snd r !! j = hs !! j) /\
    (forall i, i ∈ idxs -> (Z.to_nat i < length ss)%nat ->
       fst r !! Z.to_nat i = Some (slot_source dataset start ep sd i) /\
       ((Z.to_nat i < length hs)%nat ->
        snd r !! Z.to_nat i
        = Some (fst (ct_hash_sample (slot_source dataset start ep sd i) m)))).
Proof.
  induction idxs as [|i idxs IH]; intros ss hs Hnd r.
  - subst r. cbn. repeat split; try reflexivity.
    + apply elem_of_nil in H. contradiction.
    + apply elem_of_nil in H. contradiction.
  - rewrite fmap_cons in Hnd. apply NoDup_cons in Hnd as [Hni Hnd].
    subst r. cbn [fill_slots]. unfold bind.
    fold (slot_source dataset start ep sd i).
    set (src := slot_source dataset start ep sd i).
    set (ss1 := <[Z.to_nat i := src]> ss).
    pose proof (ct_hash_sample_pure (sample_at ss1 i) m) as Hp.
    destruct (ct_hash_sample (sample_at ss1 i) m) as [h m1] eqn:Hh.
    cbn [snd] in Hp. subst m1.
    set (hs1 := <[Z.to_nat i := h]> hs).
    destruct (IH ss1 hs1 Hnd) as (Hl1 & Hl2 & Hout & Hin). clear IH.
    split; [rewrite Hl1; subst ss1; apply length_insert|].
    split; [rewrite Hl2; subst hs1; apply length_insert|].
    split.
    + intros j Hj. rewrite fmap_cons in Hj. apply not_elem_of_cons in Hj as [Hji Hj].
      destruct (Hout j Hj) as [H1 H2]. rewrite H1, H2. subst ss1 hs1.
      rewrite !list_lookup_insert_ne by congruence. split; reflexivity.
    + intros x Hx Hlt. apply elem_of_cons in Hx as [->|Hx].
      * destruct (Hout (Z.to_nat i) Hni) as [H1 H2]. rewrite H1, H2.
        subst ss1 hs1. split.
        -- apply list_lookup_insert_eq. exact Hlt.
        -- intros Hlt'. rewrite list_lookup_insert_eq by exact Hlt'.
           f_equal. replace h with (fst (ct_hash_sample (sample_at (<[Z.to_nat i := src]> ss) i) m))
             by (rewrite Hh; reflexivity).
           unfold sample_at. rewrite list_lookup_insert_eq by exact Hlt. reflexivity.
      * assert (Hx' : (Z.to_nat x < length ss1)%nat)
          by (subst ss1; rewrite length_insert; exact Hlt).
        destruct (Hin x Hx Hx') as [H1 H2]. split; [exact H1|].
        intros Hlt'. apply H2. subst hs1. rewrite length_insert. exact Hlt'.
Qed.

Lemma pad_slots_lookup (idxs : list Z) :
  forall (ss : list ct_sample_t) (hs : list ct_hash_t),
    let r := pad_slots idxs ss hs in
    length (fst r) = length ss /\ length (snd r) = length hs /\
    (forall j, j ∉ (Z.to_nat <$> idxs) ->
       fst r !! j = ss !! j /\ snd r !! j = hs !! j) /\
    (forall i, i ∈ idxs -> (Z.to_nat i < length ss)%nat ->
       fst r !! Z.to_nat i = Some zero_sample).
Proof.
  unfold pad_slots.
  induction idxs as [|a idxs IH]; intros ss hs.
  - cbn. repeat split; try reflexivity.
    intros i Hi. apply elem_of_nil in Hi. contradiction.
  - cbn [fold_left].
    destruct (IH (<[Z.to_nat a := zero_sample]> ss) (<[Z.to_nat a := zero_hash]> hs))
      as (Hl1 & Hl2 & Hout & Hin). clear IH.
    rewrite length_insert in Hl1. rewrite length_insert in Hl2.
    split; [exact Hl1|]. split; [exact Hl2|]. split.
    + intros j Hj. rewrite fmap_cons in Hj. apply not_elem_of_cons in Hj as [Hja Hj].
      destruct (Hout j Hj) as [H1 H2]. rewrite H1, H2.
      rewrite !list_lookup_insert_ne by congruence. split; reflexivity.
    + intros i Hi Hlt.
      destruct (decide (i ∈ idxs)) as [Hi'|Hi'].
      * apply Hin; [exact Hi'|]. rewrite length_insert. exact Hlt.
      * apply elem_of_cons in Hi as [->|Hi]; [|contradiction].
        destruct (decide (Z.to_nat a ∈ (Z.to_nat <$> idxs))) as [Hm|Hm].
        -- apply list_elem_of_fmap in Hm as (b & Hb & Hbi).
           pose proof (Hin b Hbi) as Hb'. rewrite <- Hb in Hb'.
           apply Hb'. rewrite length_insert. exact Hlt.
        -- destruct (Hout _ Hm) as [H1 _]. rewrite H1.
           apply list_lookup_insert_eq. exact Hlt.
Qed.

Lemma NoDup_to_nat_seqZ (a n : Z) : 0 <= a -> NoDup (Z.to_nat <$> seqZ a n).
Proof.
  intros Ha. apply NoDup_fmap_2_strong; [|apply NoDup_seqZ].
  intros x y Hx Hy Heq. apply elem_of_seqZ in Hx, Hy. lia.
Qed.

Lemma not_elem_of_to_nat_seqZ (a n j : Z) :
  0 <= j -> 0 <= a -> (j < a \/ a + n <= j) -> Z.to_nat j ∉ (Z.to_nat <$> seqZ a n).
Proof.
  intros Hj Ha Hout Hin. apply list_elem_of_fmap in Hin as (b & Hb & Hbi).
  apply elem_of_seqZ in Hbi. lia.
Qed.

(** The state of the batch after [ct_batch_fill], slot by slot. *)
Lemma ct_batch_fill_unfold (batch : ct_batch_t) (dataset : ct_dataset_t)
    (bi ep sd : Z) (m : machine) :
  let start := u32 (bi * batch_size batch) in
  let eff := samples_in_batch batch dataset bi in
  let filled := fst (fill_slots dataset start ep sd (upto eff)
                               (samples batch) (sample_hashes batch) m) in
  let padded := pad_slots (seqZ eff (batch_size batch - eff))
                          (fst filled) (snd filled) in
  ct_batch_fill batch dataset bi ep sd m
  = (Batch (fst padded) (snd padded) (batch_size batch) bi
           (fst (ct_merkle_root (snd padded) (batch_size batch) m)), m).
Proof.
  intros start eff filled padded.
  unfold ct_batch_fill, bind, ret, ct_hash_batch.
  fold start. fold eff.
  pose proof (fill_slots_pure dataset start ep sd (upto eff) (samples batch)
                (sample_hashes batch) m) as [Hp _].
  subst padded filled.
  destruct (fill_slots dataset start ep sd (upto eff) (samples batch)
              (sample_hashes batch) m) as [f m1].
  cbn [snd fst] in *. subst m1.
  destruct (pad_slots _ (fst f) (snd f)) as [ss hs]. cbn [sample_hashes batch_size fst snd].
  pose proof (ct_merkle_root_pure hs (batch_size batch) m) as Hq.
  destruct (ct_merkle_root hs (batch_size batch) m) as [h m2].
  cbn [snd fst] in *. subst m2. reflexivity.
Qed.

Lemma samples_in_batch_range (batch : ct_batch_t) (dataset : ct_dataset_t) (bi : Z) :
  0 <= batch_size batch -> 0 <= samples_in_batch batch dataset bi.
Proof.
  intros HB. unfold samples_in_batch.
  destruct (_ >? _); [|exact HB]. apply Z.mod_pos_bound. reflexivity.
Qed.

Lemma fill_fits_count (batch : ct_batch_t) (dataset : ct_dataset_t) (bi : Z)
    (m : machine) :
  fill_fits batch dataset bi m ->
  u32 (bi * batch_size batch) = bi * batch_size batch /\
  samples_in_batch batch dataset bi
  = Z.min (batch_size batch) (num_samples dataset - bi * batch_size batch) /\
  0 <= samples_in_batch batch dataset bi <= batch_size batch.
Proof.
  intros (Hbi & HB & Hst & HN & Hw & _).
  assert (Hs : 0 <= bi * batch_size batch) by nia.
  assert (Hu : u32 (bi * batch_size batch) = bi * batch_size batch)
    by (apply u32_small; lia).
  split; [exact Hu|].
  unfold samples_in_batch. rewrite Hu.
  rewrite (u32_small (bi * batch_size batch + batch_size batch)) by lia.
  destruct (Z.gtb_spec (bi * batch_size batch + batch_size batch)
                       (num_samples dataset)).
  - rewrite u32_small by lia. lia.
  - lia.
Qed.

(** The hashes a filled batch stores in its first [batch_size] slots. *)
Lemma filled_hashes (batch : ct_batch_t) (dataset : ct_dataset_t)
    (bi ep sd : Z) (m : machine) :
  fill_fits batch dataset bi m ->
  let B := batch_size batch in
  let start := bi * B in
  let eff := Z.min B (num_samples dataset - start) in
  take (Z.to_nat B)
       (sample_hashes (fst (ct_batch_fill batch dataset bi ep sd m)))
  = ((fun i => fst (ct_hash_sample (slot_source dataset start ep sd i) m))
       <$> upto eff)
    ++ replicate (Z.to_nat (B - eff)) zero_hash.
Proof.
  intros Hfit B start eff.
  destruct (fill_fits_count batch dataset bi m Hfit) as (Hu & He & Hr).
  destruct Hfit as (Hbi & HB & Hst & HN & Hw & Hls & Hlh & _).
  fold B in Hu, He, Hr, HB, Hls, Hlh. fold start in Hu, He. fold eff in He.
  rewrite ct_batch_fill_unfold. cbn [fst snd sample_hashes].
  fold B. fold start. rewrite Hu, He.
  destruct (fill_slots_lookup dataset start ep sd m (upto eff) (samples batch)
              (sample_hashes batch) (NoDup_to_nat_seqZ 0 eff ltac:(lia)))
    as (Hl1 & Hl2 & _ & Hin).
  set (f := fst (fill_slots _ _ _ _ _ _ _ _)) in *.
  destruct (pad_slots_lookup (seqZ eff (B - eff)) (fst f) (snd f))
    as (_ & Hl3 & Hout & _).
  pose proof (pad_slots_zero (seqZ eff (B - eff)) (fst f) (snd f)) as Hzero.
  set (hs := snd (pad_slots _ _ _)) in *.
  assert (Heff : 0 <= eff <= B) by lia.
  apply list_eq. intros j. unfold upto.
  destruct (decide (Z.of_nat j < eff)) as [Hj|Hj].
  - rewrite lookup_take_lt by lia.
    rewrite lookup_app_l by (rewrite length_fmap, length_seqZ; lia).
    rewrite list_lookup_fmap. rewrite lookup_seqZ_lt by lia. cbn.
    destruct (Hout j) as [_ H2].
    { replace j with (Z.to_nat (Z.of_nat j)) by lia.
      apply not_elem_of_to_nat_seqZ; lia. }
    rewrite H2.
    destruct (Hin (Z.of_nat j)) as [_ H4];
      [apply elem_of_seqZ; lia | lia |].
    rewrite Nat2Z.id in H4. apply H4. lia.
  - destruct (decide (Z.of_nat j < B)) as [HjB|HjB].
    + rewrite lookup_take_lt by lia.
      rewrite lookup_app_r by (rewrite length_fmap, length_seqZ; lia).
      rewrite length_fmap, length_seqZ.
      rewrite lookup_replicate_2 by lia.
      apply Hzero. right. split; [lia|].
      exists (Z.of_nat j). split; [apply elem_of_seqZ; lia|lia].
    + rewrite lookup_take_ge by lia. symmetry. apply lookup_ge_None_2.
      rewrite length_app, length_fmap, length_seqZ, length_replicate. lia.
Qed.

(** Within the capacity [ct_hash_batch] is the root of the first
    [batch_size] entries. *)
Lemma ct_hash_batch_root (batch : ct_batch_t) (m : machine) :
  0 <= batch_size batch <= 1024 ->
  (Z.to_nat (batch_size batch) <= length (sample_hashes batch))%nat ->
  fst (ct_hash_batch batch m)
  = Spec.merkle_root ct_hash_internal
      (take (Z.to_nat (batch_size batch)) (sample_hashes batch)).
Proof.
  intros HB Hl. unfold ct_hash_batch.
  rewrite ct_merkle_root_resize by exact HB.
  rewrite resize_le by exact Hl. reflexivity.
Qed.

(** C4, as amended: for a batch of at most 1024 slots that starts inside
    the dataset, [ct_batch_fill] keeps the declared [batch_size]; the first
    [batch_size] entries of [sample_hashes] are then the leaf hashes of the
    min(B, N - start) permuted samples followed by all-zero digests, and the
    stored [batch_hash] is the Merkle root (adjacent nodes paired, the last
    node of an odd level promoted) of all these [batch_size] entries: the
    padding entries are part of the hashed input. *)
Theorem ct_batch_fill_hashes_all_slots (batch : ct_batch_t) (dataset : ct_dataset_t)
    (batch_index epoch seed : Z) (m : machine) :
  fill_fits batch dataset batch_index m ->
  batch_size batch <= 1024 ->
  let b' := fst (ct_batch_fill batch dataset batch_index epoch seed m) in
  let B := batch_size batch in
  let start := batch_index * B in
  let eff := Z.min B (num_samples dataset - start) in
  let leaves := take (Z.to_nat B) (sample_hashes b') in
  batch_size b' = B /\
  samples_in_batch batch dataset batch_index = eff /\
  leaves
  = ((fun i => fst (ct_hash_sample (slot_source dataset start epoch seed i) m))
       <$> upto eff)
    ++ replicate (Z.to_nat (B - eff)) zero_hash /\
  batch_hash b' = Spec.merkle_root ct_hash_internal leaves /\
  (forall i, eff <= i < B -> 0 <= i ->
     sample_hashes b' !! Z.to_nat i = Some zero_hash).
Proof.
  intros Hfit Hcap b' B start eff leaves.
  destruct (fill_fits_count batch dataset batch_index m Hfit) as (Hu & He & Hr).
  pose proof (filled_hashes batch dataset batch_index epoch seed m Hfit) as Hleaves.
  cbv zeta in Hleaves. fold B start eff b' leaves in Hleaves.
  assert (Hsize : batch_size b' = B)
    by (subst b'; rewrite ct_batch_fill_unfold; reflexivity).
  assert (Hlen : (Z.to_nat B <= length (sample_hashes b'))%nat).
  { destruct Hfit as (_ & _ & _ & _ & _ & _ & Hlh & _). fold B in Hlh.
    subst b'. rewrite ct_batch_fill_unfold. cbn [fst sample_hashes].
    destruct (fill_slots_lookup dataset (u32 (batch_index * batch_size batch))
                epoch seed m (upto (samples_in_batch batch dataset batch_index))
                (samples batch) (sample_hashes batch)
                (NoDup_to_nat_seqZ 0 _ ltac:(lia))) as (_ & Hl2 & _).
    set (f := fst (fill_slots _ _ _ _ _ _ _ _)) in *.
    destruct (pad_slots_lookup
                (seqZ (samples_in_batch batch dataset batch_index)
                      (batch_size batch - samples_in_batch batch dataset batch_index))
                (fst f) (snd f)) as (_ & Hl3 & _).
    rewrite Hl3, Hl2. exact Hlh. }
  split; [exact Hsize|]. split; [exact He|]. split; [exact Hleaves|].
  split.
  - assert (Hb : batch_hash b' = fst (ct_hash_batch b' m)).
    { subst b'. rewrite ct_batch_fill_unfold. reflexivity. }
    rewrite Hb. subst leaves. rewrite <- Hsize.
    apply ct_hash_batch_root; rewrite Hsize; [|exact Hlen].
    destruct Hfit as (_ & HB & _). fold B in HB. lia.
  - intros i Hi Hnn.
    rewrite <- (lookup_take_lt _ (Z.to_nat B)) by lia.
    fold leaves. rewrite Hleaves. unfold upto.
    rewrite lookup_app_r by (rewrite length_fmap, length_seqZ; lia).
    rewrite length_fmap, length_seqZ. apply lookup_replicate_2. lia.
Qed.

(** One sample, a batch of two: slot 1 is padding, and the stored hash is
    the node over the leaf hash of the sample and the zero digest. *)
Lemma ct_batch_fill_hashes_all_slots_witness :
  fill_fits Inputs.batch_of_two Inputs.one_dataset 0
            (Inputs.machine0 Inputs.one_heap) /\
  batch_size Inputs.batch_of_two <= 1024 /\
  batch_hash (fst (ct_batch_fill Inputs.batch_of_two Inputs.one_dataset 0 0
                     0x123456789ABCDEF0 (Inputs.machine0 Inputs.one_heap)))
  = Spec.merkle_root ct_hash_internal
      (take (Z.to_nat (batch_size Inputs.batch_of_two))
         (sample_hashes
            (fst (ct_batch_fill Inputs.batch_of_two Inputs.one_dataset 0 0
                    0x123456789ABCDEF0 (Inputs.machine0 Inputs.one_heap))))).
Proof.
  assert (H1 : fill_fits Inputs.batch_of_two Inputs.one_dataset 0
                 (Inputs.machine0 Inputs.one_heap)).
  { unfold fill_fits. cbn [Inputs.batch_of_two Inputs.one_dataset batch_size
      num_samples samples sample_hashes ds_samples length].
    repeat (split; [lia|]).
    intros j Hj. assert (j = 0%nat) as -> by lia.
    exists Inputs.one_sample, [65536].
    split; [reflexivity|]. split; [reflexivity|]. cbn. lia. }
  assert (H2 : batch_size Inputs.batch_of_two <= 1024) by (cbn; lia).
  split; [exact H1|]. split; [exact H2|].
  exact (proj1 (proj2 (proj2 (proj2
           (ct_batch_fill_hashes_all_slots Inputs.batch_of_two Inputs.one_dataset
              0 0 0x123456789ABCDEF0 (Inputs.machine0 Inputs.one_heap) H1 H2))))).
Defined.

(** C4 as stated fails for a dataset of one sample and a batch of two:
    one slot is effective, yet the stored hash is not the Merkle root of
    that one entry (which would be the entry itself) but the node hash of
    the entry and the all-zero padding digest. *)
Lemma ct_batch_fill_hashes_padding :
  let m := Inputs.machine0 Inputs.one_heap in
  let b' := fst (ct_batch_fill Inputs.batch_of_two Inputs.one_dataset 0 0
                               0x123456789ABCDEF0 m) in
  samples_in_batch Inputs.batch_of_two Inputs.one_dataset 0 = 1 /\
  batch_hash b' <> fst (ct_merkle_root (take 1 (sample_hashes b')) 1 m) /\
  batch_hash b' = ct_hash_internal (hash_at (sample_hashes b') 0) zero_hash.
Proof.
  vm_compute. split; [reflexivity|]. split; [discriminate|reflexivity].
Qed.

(** C8, as amended: for every batch of at most 1024 slots whose
    [sample_hashes] array holds [batch_size] entries, [ct_batch_verify]
    returns 1 exactly when the Merkle root of these entries (adjacent nodes
    paired, the last node of an odd level promoted) equals the stored
    [batch_hash] on all 32 bytes, and 0 otherwise; it takes no fault flags
    and leaves the machine, fault flags included, unchanged. *)
Theorem ct_batch_verify_iff (batch : ct_batch_t) (m : machine) :
  0 <= batch_size batch <= 1024 ->
  (Z.to_nat (batch_size batch) <= length (sample_hashes batch))%nat ->
  let root := Spec.merkle_root ct_hash_internal
                (take (Z.to_nat (batch_size batch)) (sample_hashes batch)) in
  (fst (ct_batch_verify batch m) = 1 <->
   take 32 root = take 32 (batch_hash batch)) /\
  (fst (ct_batch_verify batch m) = 1 \/ fst (ct_batch_verify batch m) = 0) /\
  snd (ct_batch_verify batch m) = m.
Proof.
  intros HB Hl root.
  pose proof (ct_hash_batch_root batch m HB Hl) as Hroot. fold root in Hroot.
  unfold ct_batch_verify, bind, ret.
  pose proof (ct_merkle_root_pure (sample_hashes batch) (batch_size batch) m) as Hp.
  fold (ct_hash_batch batch) in Hp.
  destruct (ct_hash_batch batch m) as [h m1].
  cbn [fst snd] in *. subst m1 h. unfold memcmp32_eq.
  destruct (bool_decide_reflect (take 32 root = take 32 (batch_hash batch)))
    as [He|Hne].
  - split; [split; [intros _; exact He | reflexivity]|].
    split; [left|]; reflexivity.
  - split; [split; [discriminate | intros He; contradiction]|].
    split; [right|]; reflexivity.
Qed.

(** The single stored hash of the mismatching batch of [Inputs] is its own
    root; it differs from the stored [batch_hash], and verification answers
    0 and leaves the machine alone. *)
Lemma ct_batch_verify_iff_witness :
  0 <= batch_size Inputs.bad_batch <= 1024 /\
  (Z.to_nat (batch_size Inputs.bad_batch)
   <= length (sample_hashes Inputs.bad_batch))%nat /\
  (fst (ct_batch_verify Inputs.bad_batch (Inputs.machine0 ∅)) = 1 <->
   take 32 (Spec.merkle_root ct_hash_internal
              (take (Z.to_nat (batch_size Inputs.bad_batch))
                    (sample_hashes Inputs.bad_batch)))
   = take 32 (batch_hash Inputs.bad_batch)).
Proof.
  assert (H1 : 0 <= batch_size Inputs.bad_batch <= 1024) by (cbn; lia).
  assert (H2 : (Z.to_nat (batch_size Inputs.bad_batch)
                <= length (sample_hashes Inputs.bad_batch))%nat) by (cbn; lia).
  split; [exact H1|]. split; [exact H2|].
  exact (proj1 (ct_batch_verify_iff Inputs.bad_batch (Inputs.machine0 ∅) H1 H2)).
Defined.

(** C8 as stated fails on the mismatching batch of [Inputs]: verification
    returns 0 and every fault flag is still clear afterwards. *)
Lemma ct_batch_verify_sets_no_flag :
  let r := ct_batch_verify Inputs.bad_batch (Inputs.machine0 ∅) in
  fst r = 0 /\ faults (snd r) = no_faults /\ ct_has_fault (faults (snd r)) = false.
Proof. vm_compute. repeat split. Qed.

End BatchFacts.

(** * The rest of the code *)

(** ** primitives.c: frames, saturation, multiplication and division *)

Section DvmFrames.
Import DVM.


Lemma faults_le_refl f : faults_le f f.
Proof. unfold faults_le. tauto. Qed.

Lemma faults_le_trans f g h : faults_le f g -> faults_le g h -> faults_le f h.
Proof. unfold faults_le. tauto. Qed.


Lemma only_raises_ret {A} (x : A) : only_raises (ret x).
Proof. intros m. cbn. frame_split; try reflexivity. apply faults_le_refl. Qed.

Lemma only_raises_bind {A B} (c : M A) (k : A -> M B) :
  only_raises c -> (forall a, only_raises (k a)) -> only_raises (bind c k).
Proof.
  intros Hc Hk m. unfold bind. specialize (Hc m).
  destruct (c m) as [a m1]. cbn [snd] in Hc. specialize (Hk a m1).
  destruct Hc as (H1 & H2 & H3 & H4), Hk as (K1 & K2 & K3 & K4).
  frame_split; try congruence. eapply faults_le_trans; eassumption.
Qed.

Lemma only_raises_set (g : ct_fault_flags_t -> ct_fault_flags_t) :
  (forall f, faults_le f (g f)) -> only_raises (update_faults g).
Proof. intros Hg m. cbn. frame_split; try reflexivity. apply Hg. Qed.

Lemma set_overflow_le f : faults_le f (set_overflow f).
Proof. unfold faults_le, set_overflow. cbn. tauto. Qed.
Lemma set_underflow_le f : faults_le f (set_underflow f).
Proof. unfold faults_le, set_underflow. cbn. tauto. Qed.
Lemma set_div_zero_le f : faults_le f (set_div_zero f).
Proof. unfold faults_le, set_div_zero. cbn. tauto. Qed.
Lemma set_domain_le f : faults_le f (set_domain f).
Proof. unfold faults_le, set_domain. cbn. tauto. Qed.

Lemma only_raises_clamp32 x : only_raises (dvm_clamp32 x).
Proof.
  unfold dvm_clamp32.
  destruct (x >? INT32_MAX); [|destruct (x <? INT32_MIN)].
  - apply only_raises_bind; [apply only_raises_set, set_overflow_le|intros; apply only_raises_ret].
  - apply only_raises_bind; [apply only_raises_set, set_underflow_le|intros; apply only_raises_ret].
  - apply only_raises_ret.
Qed.

Lemma only_raises_rne x s : only_raises (dvm_round_shift_rne x s).
Proof.
  unfold dvm_round_shift_rne.
  destruct (s >? 62).
  - apply only_raises_bind; [apply only_raises_set, set_domain_le|intros; apply only_raises_ret].
  - destruct (s =? 0); apply only_raises_clamp32.
Qed.

Lemma only_raises_add32 a b : only_raises (dvm_add32 a b).
Proof. apply only_raises_clamp32. Qed.
Lemma only_raises_sub32 a b : only_raises (dvm_sub32 a b).
Proof. apply only_raises_clamp32. Qed.
Lemma only_raises_mul_q16 a b : only_raises (dvm_mul_q16 a b).
Proof. apply only_raises_rne. Qed.
Lemma only_raises_div_q16 a b : only_raises (dvm_div_q16 a b).
Proof.
  unfold dvm_div_q16. destruct (b =? 0).
  - apply only_raises_bind; [apply only_raises_set, set_div_zero_le|intros; apply only_raises_ret].
  - apply only_raises_clamp32.
Qed.

(** X1: the DVM primitives [dvm_clamp32], [dvm_add32], [dvm_sub32],
    [dvm_round_shift_rne], [dvm_mul_q16] and [dvm_div_q16] change nothing of
    the machine but the fault flags, and clear none: every flag that is
    set on entry is still set on return. *)
Theorem dvm_faults_are_sticky (a b : Z) :
  only_raises (dvm_clamp32 a) /\ only_raises (dvm_add32 a b) /\
  only_raises (dvm_sub32 a b) /\ only_raises (dvm_round_shift_rne a b) /\
  only_raises (dvm_mul_q16 a b) /\ only_raises (dvm_div_q16 a b).
Proof.
  split; [|split; [|split; [|split; [|split]]]].
  all: first [apply only_raises_clamp32 | apply only_raises_add32 | apply only_raises_sub32
             | apply only_raises_rne | apply only_raises_mul_q16 | apply only_raises_div_q16].
Qed.

End DvmFrames.

Section DvmArith.
Import DVM.

Lemma clamp_in_range x : is_int32 x -> Spec.clamp_range x = x.
Proof. unfold is_int32, Spec.clamp_range, INT32_MIN, INT32_MAX. lia. Qed.

Lemma clamp_is_int32 x : is_int32 (Spec.clamp_range x).
Proof. unfold is_int32, Spec.clamp_range, INT32_MIN, INT32_MAX. lia. Qed.

Lemma dvm_clamp32_exact x m : is_int32 x -> dvm_clamp32 x m = (x, m).
Proof.
  unfold is_int32, dvm_clamp32, INT32_MIN, INT32_MAX. intros H.
  destruct (Z.gtb_spec x (2 ^ 31 - 1)); [lia|].
  destruct (Z.ltb_spec x (- 2 ^ 31)); [lia|]. reflexivity.
Qed.

Lemma dvm_clamp32_high x m :
  INT32_MAX < x ->
  dvm_clamp32 x m = (INT32_MAX, Machine (mem m) (set_overflow (faults m)) (prf_log m) (stack_junk m)).
Proof.
  unfold dvm_clamp32. intros H.
  destruct (Z.gtb_spec x INT32_MAX); [reflexivity|lia].
Qed.

Lemma dvm_clamp32_low x m :
  x < INT32_MIN ->
  dvm_clamp32 x m = (INT32_MIN, Machine (mem m) (set_underflow (faults m)) (prf_log m) (stack_junk m)).
Proof.
  unfold dvm_clamp32, INT32_MIN, INT32_MAX. intros H.
  destruct (Z.gtb_spec x (2 ^ 31 - 1)); [lia|].
  destruct (Z.ltb_spec x (- 2 ^ 31)); [reflexivity|lia].
Qed.

(** X2: for 32-bit operands [dvm_add32] and [dvm_sub32] return the exact
    sum and difference saturated to [INT32_MIN, INT32_MAX].  Either the
    result is exact and the machine untouched, or the operands have the
    signs that make the true result leave the range on that side, the
    result is the bound of that side and exactly the flag of that side is
    raised (overflow at INT32_MAX, underflow at INT32_MIN), the other one
    keeping its value. *)
Theorem dvm_add32_sub32_saturate (a b : Z) (m : machine) :
  is_int32 a -> is_int32 b ->
  let r := dvm_add32 a b m in
  let s := dvm_sub32 a b m in
  (fst r = Spec.clamp_range (a + b) /\ fst s = Spec.clamp_range (a - b)) /\
  (r = (a + b, m) \/
   (0 < a /\ 0 < b /\ fst r = INT32_MAX /\ overflow (faults (snd r)) = true
      /\ underflow (faults (snd r)) = underflow (faults m)) \/
   (a < 0 /\ b < 0 /\ fst r = INT32_MIN /\ underflow (faults (snd r)) = true
      /\ overflow (faults (snd r)) = overflow (faults m))) /\
  (s = (a - b, m) \/
   (0 <= a /\ b < 0 /\ fst s = INT32_MAX /\ overflow (faults (snd s)) = true
      /\ underflow (faults (snd s)) = underflow (faults m)) \/
   (a < 0 /\ 0 < b /\ fst s = INT32_MIN /\ underflow (faults (snd s)) = true
      /\ overflow (faults (snd s)) = overflow (faults m))).
Proof.
  intros Ha Hb r s. subst r s. unfold dvm_add32, dvm_sub32.
  split; [split; apply dvm_clamp32_value|].
  unfold is_int32, INT32_MIN, INT32_MAX in Ha, Hb.
  split.
  - destruct (Z.lt_trichotomy (a + b) INT32_MIN) as [Hlo|Hmid].
    + right. right. rewrite dvm_clamp32_low by assumption.
      unfold INT32_MIN in Hlo. cbn. repeat split; lia.
    + destruct (Z.le_gt_cases (a + b) INT32_MAX) as [Hle|Hhi].
      * left. apply dvm_clamp32_exact. unfold is_int32. lia.
      * right. left. rewrite dvm_clamp32_high by lia.
        unfold INT32_MAX in Hhi. cbn. repeat split; lia.
  - destruct (Z.lt_trichotomy (a - b) INT32_MIN) as [Hlo|Hmid].
    + right. right. rewrite dvm_clamp32_low by assumption.
      unfold INT32_MIN in Hlo. cbn. repeat split; lia.
    + destruct (Z.le_gt_cases (a - b) INT32_MAX) as [Hle|Hhi].
      * left. apply dvm_clamp32_exact. unfold is_int32. lia.
      * right. left. rewrite dvm_clamp32_high by lia.
        unfold INT32_MAX in Hhi. cbn. repeat split; lia.
Qed.

Lemma dvm_add32_sub32_saturate_witness :
  is_int32 INT32_MAX /\ is_int32 1 /\
  fst (dvm_add32 INT32_MAX 1 (Machine ∅ no_faults [] [])) = Spec.clamp_range (INT32_MAX + 1).
Proof.
  assert (H1 : is_int32 INT32_MAX) by (unfold is_int32, INT32_MIN, INT32_MAX; lia).
  assert (H2 : is_int32 1) by (unfold is_int32, INT32_MIN, INT32_MAX; lia).
  split; [exact H1|]. split; [exact H2|].
  exact (proj1 (proj1 (dvm_add32_sub32_saturate INT32_MAX 1 (Machine ∅ no_faults [] []) H1 H2))).
Defined.

(** Multiplication by an integer-valued Q16.16 number is exact. *)
Lemma rne16_exact (y : Z) (m : machine) :
  dvm_round_shift_rne (y * 65536) 16 m = dvm_clamp32 y m.
Proof.
  unfold dvm_round_shift_rne.
  change (16 >? 62) with false. change (16 =? 0) with false. cbv iota.
  destruct (rne_split (y * 65536) 16 ltac:(lia)) as (Hx & Hr & Hh).
  change (2 ^ 16) with 65536 in *.
  set (q := Z.shiftr (y * 65536) 16) in *.
  set (r := Z.land (y * 65536) (Z.shiftl 1 16 - 1)) in *.
  assert (Hq : q = y /\ r = 0) by lia. destruct Hq as [-> ->].
  change (Z.shiftl 1 (16 - 1)) with 32768. reflexivity.
Qed.

(** X3: multiplying a 32-bit value [a] by the Q16.16 integer [k]
    ([k * FIXED_ONE]), on either side, gives [a * k] saturated, with no
    rounding; multiplying by [FIXED_ONE] gives [a] back and leaves the
    machine untouched, and multiplying by 0 gives 0. *)
Theorem dvm_mul_q16_by_integer (a k : Z) (m : machine) :
  is_int32 a ->
  dvm_mul_q16 a (k * FIXED_ONE) m = dvm_clamp32 (a * k) m /\
  dvm_mul_q16 (k * FIXED_ONE) a m = dvm_clamp32 (k * a) m /\
  dvm_mul_q16 a FIXED_ONE m = (a, m) /\
  dvm_mul_q16 FIXED_ONE a m = (a, m) /\
  dvm_mul_q16 a 0 m = (0, m).
Proof.
  intros Ha. unfold dvm_mul_q16, dvm_mul64. change FIXED_ONE with 65536.
  split; [|split; [|split; [|split]]].
  - replace (a * (k * 65536)) with (a * k * 65536) by lia. apply rne16_exact.
  - replace (k * 65536 * a) with (k * a * 65536) by lia. apply rne16_exact.
  - rewrite rne16_exact. apply dvm_clamp32_exact. assumption.
  - replace (65536 * a) with (a * 65536) by lia.
    rewrite rne16_exact. apply dvm_clamp32_exact. assumption.
  - replace (a * 0) with (0 * 65536) by lia. rewrite rne16_exact. reflexivity.
Qed.

Lemma dvm_mul_q16_by_integer_witness :
  is_int32 (3 * 65536) /\
  dvm_mul_q16 (3 * 65536) (2 * FIXED_ONE) (Machine ∅ no_faults [] [])
  = (6 * 65536, Machine ∅ no_faults [] []).
Proof.
  assert (H : is_int32 (3 * 65536)) by (unfold is_int32, INT32_MIN, INT32_MAX; lia).
  split; [exact H|].
  rewrite (proj1 (dvm_mul_q16_by_integer (3 * 65536) 2 (Machine ∅ no_faults [] []) H)).
  reflexivity.
Defined.

(** X4: [dvm_div_q16] with a zero denominator returns 0 and raises
    [div_zero] (and nothing else); otherwise it returns the saturation of
    the quotient [q] of [num * 2^16] by [denom] truncated toward zero:
    |q * denom| <= |num * 2^16| < |q * denom| + |denom|, and [q * denom]
    never has the sign opposite to [num]. *)
Theorem dvm_div_q16_truncates (num denom : Z) (m : machine) :
  (denom = 0 /\
   dvm_div_q16 num denom m
   = (0, Machine (mem m) (set_div_zero (faults m)) (prf_log m) (stack_junk m)))
  \/
  (denom <> 0 /\
   exists q, dvm_div_q16 num denom m = dvm_clamp32 q m /\
     Z.abs (q * denom) <= Z.abs (num * 65536) < Z.abs (q * denom) + Z.abs denom /\
     0 <= q * denom * num).
Proof.
  unfold dvm_div_q16.
  destruct (Z.eqb_spec denom 0) as [->|Hnz]; [left; split; reflexivity|].
  right. split; [assumption|].
  rewrite Z.shiftl_mul_pow2 by lia. change (2 ^ 16) with 65536.
  exists (Z.quot (num * 65536) denom). split; [reflexivity|].
  set (x := num * 65536) in *.
  pose proof (Z.quot_div x denom Hnz) as Hq.
  assert (Hd : 0 < Z.abs denom) by lia.
  pose proof (Z.div_mod (Z.abs x) (Z.abs denom) ltac:(lia)) as Hdm.
  pose proof (Z.mod_pos_bound (Z.abs x) (Z.abs denom) Hd) as Hmb.
  assert (Hk : 0 <= Z.abs x / Z.abs denom) by (apply Z.div_pos; lia).
  set (k := Z.abs x / Z.abs denom) in *.
  set (q := Z.quot x denom) in *.
  pose proof (Z.sgn_abs denom) as Hsd.
  assert (Hqd : q * denom = Z.sgn x * (Z.abs denom * k)).
  { rewrite Hq, <- Hsd. ring. }
  assert (Hx0 : x = 0 -> k = 0) by (intros E; subst k; rewrite E; reflexivity).
  destruct (Z.sgn_spec x) as [[Hs E]|[[Hs E]|[Hs E]]]; rewrite E in Hqd.
  - split; [|subst x; nia]. rewrite Hqd. lia.
  - specialize (Hx0 (eq_sym Hs)). split; [|subst x; nia]. rewrite Hqd. lia.
  - split; [|subst x; nia]. rewrite Hqd. lia.
Qed.

(** X5: for a 32-bit [a] and a non-zero integer [k] with [a * k] in the
    32-bit range, multiplying [a] by the Q16.16 integer [k] and dividing the
    product by it gives [a] back and raises no flag; dividing by
    [FIXED_ONE] is the identity. *)
Theorem dvm_mul_div_q16_round_trip (a k : Z) (m : machine) :
  is_int32 a -> k <> 0 -> is_int32 (a * k) ->
  (let* p := dvm_mul_q16 a (k * FIXED_ONE) in dvm_div_q16 p (k * FIXED_ONE)) m
  = (a, m) /\
  dvm_div_q16 a FIXED_ONE m = (a, m).
Proof.
  intros Ha Hk Hak.
  assert (Hdiv : forall x d, d <> 0 -> is_int32 x ->
             dvm_div_q16 (x * d) (d * FIXED_ONE) m = (x, m)).
  { intros x d Hd Hx. unfold dvm_div_q16. change FIXED_ONE with 65536.
    destruct (Z.eqb_spec (d * 65536) 0) as [|_]; [lia|].
    rewrite Z.shiftl_mul_pow2 by lia. change (2 ^ 16) with 65536.
    replace (x * d * 65536) with (x * (d * 65536)) by ring.
    rewrite Z.quot_mul by lia. apply dvm_clamp32_exact. exact Hx. }
  split.
  - unfold bind, dvm_mul_q16, dvm_mul64. change FIXED_ONE with 65536.
    replace (a * (k * 65536)) with (a * k * 65536) by ring.
    rewrite rne16_exact, (dvm_clamp32_exact (a * k) m Hak).
    apply (Hdiv a k Hk Ha).
  - rewrite <- (Z.mul_1_r a) at 1. rewrite <- (Z.mul_1_l FIXED_ONE).
    apply (Hdiv a 1); [lia|exact Ha].
Qed.

Lemma dvm_mul_div_q16_round_trip_witness :
  is_int32 (5 * 65536) /\ 3 <> 0 /\ is_int32 (5 * 65536 * 3) /\
  dvm_div_q16 (5 * 65536) FIXED_ONE (Machine ∅ no_faults [] [])
  = (5 * 65536, Machine ∅ no_faults [] []).
Proof.
  assert (H1 : is_int32 (5 * 65536)) by (unfold is_int32, INT32_MIN, INT32_MAX; lia).
  assert (H2 : 3 <> 0) by lia.
  assert (H3 : is_int32 (5 * 65536 * 3)) by (unfold is_int32, INT32_MIN, INT32_MAX; lia).
  split; [exact H1|]. split; [exact H2|]. split; [exact H3|].
  exact (proj2 (dvm_mul_div_q16_round_trip (5 * 65536) 3 (Machine ∅ no_faults [] [])
                  H1 H2 H3)).
Defined.

End DvmArith.

(** ** prng.c: ranges *)

Section PrngFacts.
Import PRNG.

Lemma lxor_below (n a b : Z) :
  0 <= n -> 0 <= a < 2 ^ n -> 0 <= b < 2 ^ n -> 0 <= Z.lxor a b < 2 ^ n.
Proof.
  intros Hn Ha Hb. split; [apply Z.lxor_nonneg; lia|].
  destruct (Z.eq_dec (Z.lxor a b) 0) as [->|Hz]; [apply Z.pow_pos_nonneg; lia|].
  assert (Hpos : 0 < Z.lxor a b) by (pose proof (proj2 (Z.lxor_nonneg a b)); lia).
  assert (Hn0 : 0 < n).
  { destruct (Z.eq_dec n 0) as [->|]; [|lia].
    assert (a = 0) by (change (2 ^ 0) with 1 in Ha; lia).
    assert (b = 0) by (change (2 ^ 0) with 1 in Hb; lia).
    subst a b. exfalso. apply Hz. reflexivity. }
  apply Z.log2_lt_pow2; [assumption|].
  pose proof (Z.log2_lxor a b ltac:(lia) ltac:(lia)) as Hl.
  assert (Hla : Z.log2 a < n).
  { destruct (Z.eq_dec a 0) as [->|]; [cbn; lia|]. apply Z.log2_lt_pow2; lia. }
  assert (Hlb : Z.log2 b < n).
  { destruct (Z.eq_dec b 0) as [->|]; [cbn; lia|]. apply Z.log2_lt_pow2; lia. }
  lia.
Qed.

Lemma shiftr_below (n a k : Z) : 0 <= k -> 0 <= a < 2 ^ n -> 0 <= Z.shiftr a k < 2 ^ n.
Proof.
  intros Hk Ha. rewrite Z.shiftr_div_pow2 by assumption.
  assert (0 < 2 ^ k) by (apply Z.pow_pos_nonneg; lia).
  split; [apply Z.div_pos; lia|].
  apply Z.le_lt_trans with a; [|lia]. apply Z.div_le_upper_bound; nia.
Qed.

Lemma u64_range x : 0 <= u64 x < 2 ^ 64.
Proof. unfold u64. apply Z.mod_pos_bound. reflexivity. Qed.

Lemma splitmix64_range (x : Z) : 0 <= splitmix64 x < 2 ^ 64.
Proof.
  unfold splitmix64.
  apply lxor_below; [lia|apply u64_range|].
  apply shiftr_below; [lia|apply u64_range].
Qed.

(** X7: for all arguments, also outside their C types, [ct_prng] returns
    a value of [0, 2^64). *)
Theorem ct_prng_is_64_bit (seed epoch op_id : Z) :
  0 <= ct_prng seed epoch op_id < 2 ^ 64.
Proof. unfold ct_prng. apply splitmix64_range. Qed.

Lemma call_ct_prng_run seed epoch op_id m :
  call_ct_prng seed epoch op_id m
  = (ct_prng seed epoch op_id,
     Machine (mem m) (faults m) (prf_log m ++ [(seed, epoch, op_id)]) (stack_junk m)).
Proof. reflexivity. Qed.

(** X8: for a 32-bit [n], [ct_prng_uniform] returns 0 without any PRF
    call when n <= 1; for n >= 2 it returns a value of [0, n) and makes
    exactly one call of [ct_prng], with the op_id it was given: the retries
    of the rejection loop draw from [splitmix64], not from [ct_prng]. *)
Theorem ct_prng_uniform_in_range (sd ep op_id n : Z) (m : machine) :
  0 <= n < 2 ^ 32 ->
  let r := ct_prng_uniform sd ep op_id n m in
  (n <= 1 /\ r = (0, m)) \/
  (2 <= n /\ 0 <= fst r < n /\
   snd r = Machine (mem m) (faults m) (prf_log m ++ [(sd, ep, op_id)]) (stack_junk m)).
Proof.
  intros Hn r. subst r. unfold ct_prng_uniform.
  destruct (Z.eqb_spec n 0) as [->|H0]; [left; split; [lia|reflexivity]|].
  destruct (Z.eqb_spec n 1) as [->|H1]; [left; split; [lia|reflexivity]|].
  right. split; [lia|]. unfold bind. rewrite call_ct_prng_run.
  destruct (n <=? 65536); cbn [fst snd ret].
  - split; [apply Z.mod_pos_bound; lia|reflexivity].
  - split; [|reflexivity].
    pose proof (Z.mod_pos_bound (ct_prng sd ep op_id) n ltac:(lia)).
    rewrite u32_small by lia. assumption.
Qed.

Lemma ct_prng_uniform_in_range_witness :
  0 <= 10 < 2 ^ 32 /\
  0 <= fst (ct_prng_uniform 7 0 3 10 (Machine ∅ no_faults [] [])) < 10.
Proof.
  split; [lia|].
  destruct (ct_prng_uniform_in_range 7 0 3 10 (Machine ∅ no_faults [] []) ltac:(lia))
    as [[H _]|(_ & H & _)]; [lia|exact H].
Defined.

End PrngFacts.

(** ** shuffle.c: the width, the Feistel network, the walk *)

Section CeilLog2.
Import Shuffle.

(** ceil_log2 *)
Lemma ceil_log2_loop_spec (fuel : nat) : forall m r,
  0 < m -> Z.log2 m < Z.of_nat fuel ->
  ceil_log2_loop fuel m r = r + Z.log2 m + 1.
Proof.
  induction fuel as [|fuel IH]; intros m r Hm Hf.
  - pose proof (Z.log2_nonneg m). lia.
  - cbn [ceil_log2_loop].
    destruct (Z.gtb_spec m 0) as [_|]; [|lia].
    destruct (Z.eq_dec m 1) as [->|Hm1].
    + change (Z.shiftr 1 1) with 0. change (Z.log2 1) with 0. destruct fuel; cbn [ceil_log2_loop]; [lia|]. change (0 >? 0) with false. cbv iota. lia.
    + assert (Hs : 0 < Z.shiftr m 1).
      { rewrite Z.shiftr_div_pow2 by lia. change (2 ^ 1) with 2.
        apply Z.div_str_pos. lia. }
      pose proof (Z.log2_shiftr m 1 Hm) as Hl.
      assert (Hlog : 1 <= Z.log2 m) by (apply Z.log2_le_pow2; [lia|change (2 ^ 1) with 2; lia]).
      rewrite IH by lia. lia.
Qed.

Lemma ceil_log2_log2_up (n : Z) : n <= 2 ^ 32 -> ceil_log2 n = Z.log2_up n.
Proof.
  intros Hn. unfold ceil_log2. destruct (Z.leb_spec n 1) as [H1|H1].
  - symmetry. apply Z.log2_up_eqn0. assumption.
  - rewrite Z.log2_up_eqn by lia.
    replace (Z.pred n) with (n - 1) by lia.
    rewrite ceil_log2_loop_spec; [lia|lia|].
    change (Z.of_nat 32) with 32.
    apply Z.log2_lt_pow2; lia.
Qed.

Lemma ceil_log2_bracket (n : Z) :
  2 <= n <= 2 ^ 32 ->
  2 ^ (ceil_log2 n - 1) < n <= 2 ^ ceil_log2 n /\ 1 <= ceil_log2 n <= 32.
Proof.
  intros Hn. rewrite ceil_log2_log2_up by lia.
  pose proof (Z.log2_up_spec n ltac:(lia)) as Hs.
  unfold Z.pred in Hs. split; [exact Hs|].
  split.
  - pose proof (Z.log2_up_pos n ltac:(lia)). lia.
  - apply Z.log2_up_le_pow2; lia.
Qed.

(** X9: for n <= 2^32 the shift loop of [ceil_log2] computes the ceiling
    of the binary logarithm: 0 for n <= 1, and for n >= 2 the k of
    [1, 32] with 2^(k-1) < n <= 2^k. *)
Theorem ceil_log2_is_log2_up (n : Z) :
  n <= 2 ^ 32 ->
  ceil_log2 n = Z.log2_up n /\
  (n <= 1 -> ceil_log2 n = 0) /\
  (2 <= n -> 2 ^ (ceil_log2 n - 1) < n <= 2 ^ ceil_log2 n /\ 1 <= ceil_log2 n <= 32).
Proof.
  intros Hn.
  split; [apply ceil_log2_log2_up; exact Hn|]. split.
  - intros H1. unfold ceil_log2. destruct (Z.leb_spec n 1); [reflexivity|lia].
  - intros H2. apply ceil_log2_bracket. lia.
Qed.

Lemma ceil_log2_is_log2_up_witness :
  100 <= 2 ^ 32 /\ ceil_log2 100 = 7.
Proof.
  split; [lia|].
  rewrite (proj1 (ceil_log2_is_log2_up 100 ltac:(lia))). reflexivity.
Defined.

End CeilLog2.

Section FeistelFacts.
Import Shuffle.

Lemma land_low_mask (x hb : Z) : 0 <= hb -> Z.land x (2 ^ hb - 1) = x mod 2 ^ hb.
Proof.
  intros H. replace (2 ^ hb - 1) with (Z.ones hb) by (rewrite Z.ones_equiv; lia).
  apply Z.land_ones. assumption.
Qed.

Lemma lor_shiftl_low (R L hb : Z) :
  0 <= hb -> 0 <= L < 2 ^ hb -> Z.lor (Z.shiftl R hb) L = R * 2 ^ hb + L.
Proof.
  intros Hhb HL.
  assert (Hland : Z.land (Z.shiftl R hb) L = 0).
  { apply Z.bits_inj'. intros n Hn. rewrite Z.land_spec, Z.bits_0.
    destruct (Z.lt_ge_cases n hb) as [Hlt|Hge].
    - rewrite Z.shiftl_spec_low by assumption. reflexivity.
    - rewrite <- (Z.mod_small L (2 ^ hb)) by assumption.
      rewrite Z.mod_pow2_bits_high by lia. apply andb_false_r. }
  rewrite <- Z.lxor_lor, <- Z.add_nocarry_lxor by assumption.
  rewrite Z.shiftl_mul_pow2 by assumption. reflexivity.
Qed.

Lemma lxor_cancel_r (a b c : Z) : Z.lxor a c = Z.lxor b c -> a = b.
Proof.
  intros H.
  assert (Hx : forall x, Z.lxor (Z.lxor x c) c = x)
    by (intros x; rewrite Z.lxor_assoc, Z.lxor_nilpotent, Z.lxor_0_r; reflexivity).
  rewrite <- (Hx a), <- (Hx b), H. reflexivity.
Qed.

Lemma nth_map_seq {A : Type} (f : nat -> A) (n a : nat) (d : A) :
  (a < n)%nat -> nth a (map f (seq 0 n)) d = f a.
Proof.
  intros H. rewrite (nth_indep _ d (f 0%nat)) by (rewrite length_map, length_seq; lia).
  rewrite map_nth, seq_nth by lia. reflexivity.
Qed.

Section Feistel.
Variables sd ep hb : Z.
Hypothesis Hhb : 0 <= hb <= 16.

Local Abbreviation mask := (2 ^ hb - 1).
Local Abbreviation step := (feistel_step sd ep (2 ^ hb - 1)).
Local Abbreviation pi := (feistel_network sd ep hb (2 ^ hb - 1)).

Lemma step_closed (p : Z * Z) (r : Z) : half_pair hb p -> half_pair hb (step p r).
Proof.
  destruct p as [L R]. intros [HL HR]. cbn in HL, HR.
  unfold feistel_step, half_pair. cbn [fst snd].
  split; [assumption|].
  apply lxor_below; [lia|assumption|].
  rewrite land_low_mask by lia.
  apply Z.mod_pos_bound. apply Z.pow_pos_nonneg; lia.
Qed.

Lemma step_inj (p q : Z * Z) (r : Z) : step p r = step q r -> p = q.
Proof.
  destruct p as [L R], q as [L' R']. unfold feistel_step.
  intros H. injection H as HR HL. subst R'.
  apply lxor_cancel_r in HL. subst. reflexivity.
Qed.

Lemma rounds_closed (p : Z * Z) :
  half_pair hb p -> half_pair hb (fold_left step [0; 1; 2; 3] p).
Proof. intros H. cbn [fold_left]. do 4 apply step_closed. assumption. Qed.

Lemma rounds_inj (p q : Z * Z) :
  fold_left step [0; 1; 2; 3] p = fold_left step [0; 1; 2; 3] q -> p = q.
Proof. cbn [fold_left]. intros H. do 4 apply step_inj in H. assumption. Qed.

Lemma pow_double : 2 ^ (2 * hb) = 2 ^ hb * 2 ^ hb.
Proof. replace (2 * hb) with (hb + hb) by lia. apply Z.pow_add_r; lia. Qed.

Lemma halves_pair (i : Z) :
  0 <= i < 2 ^ (2 * hb) ->
  half_pair hb (Z.land i mask, Z.land (Z.shiftr i hb) mask) /\
  Z.land i mask = i mod 2 ^ hb /\ Z.land (Z.shiftr i hb) mask = i / 2 ^ hb.
Proof.
  intros Hi. rewrite pow_double in Hi.
  assert (Hp : 0 < 2 ^ hb) by (apply Z.pow_pos_nonneg; lia).
  rewrite !land_low_mask, Z.shiftr_div_pow2 by lia.
  assert (Hq : 0 <= i / 2 ^ hb < 2 ^ hb).
  { split; [apply Z.div_pos; lia|apply Z.div_lt_upper_bound; lia]. }
  rewrite (Z.mod_small (i / 2 ^ hb)) by assumption.
  split; [|split; reflexivity].
  split; cbn [fst snd]; [apply Z.mod_pos_bound; lia|assumption].
Qed.

Lemma pi_unfold (i : Z) :
  0 <= i < 2 ^ (2 * hb) ->
  exists L R, fold_left step [0; 1; 2; 3] (i mod 2 ^ hb, i / 2 ^ hb) = (L, R) /\
    half_pair hb (L, R) /\ pi i = R * 2 ^ hb + L.
Proof.
  intros Hi. destruct (halves_pair i Hi) as (Hhp & HL & HR).
  unfold feistel_network. rewrite HL, HR in *.
  pose proof (rounds_closed _ Hhp) as Hc.
  destruct (fold_left step [0; 1; 2; 3] (i mod 2 ^ hb, i / 2 ^ hb)) as [L R] eqn:E.
  exists L, R. split; [reflexivity|]. split; [assumption|].
  destruct Hc as [HcL HcR]. cbn [fst snd] in HcL, HcR.
  rewrite lor_shiftl_low by lia.
  apply u32_small.
  assert (2 ^ hb <= 2 ^ 16) by (apply Z.pow_le_mono_r; lia).
  change (2 ^ 16) with 65536 in *. nia.
Qed.

Lemma pi_range (i : Z) : 0 <= i < 2 ^ (2 * hb) -> 0 <= pi i < 2 ^ (2 * hb).
Proof.
  intros Hi. destruct (pi_unfold i Hi) as (L & R & _ & [HL HR] & ->).
  cbn [fst snd] in HL, HR. rewrite pow_double. nia.
Qed.

Lemma pi_inj (i j : Z) :
  0 <= i < 2 ^ (2 * hb) -> 0 <= j < 2 ^ (2 * hb) -> pi i = pi j -> i = j.
Proof.
  intros Hi Hj H.
  destruct (pi_unfold i Hi) as (L & R & E & [HL HR] & Hpi).
  destruct (pi_unfold j Hj) as (L' & R' & E' & [HL' HR'] & Hpj).
  cbn [fst snd] in *. rewrite Hpi, Hpj in H.
  assert (Hp : 0 < 2 ^ hb) by (apply Z.pow_pos_nonneg; lia).
  assert (R = R') by nia. subst R'. assert (L = L') by lia. subst L'.
  rewrite <- E' in E. apply rounds_inj in E. injection E as Em Ed.
  rewrite (Z.div_mod i (2 ^ hb)), (Z.div_mod j (2 ^ hb)) by lia. congruence.
Qed.

Lemma iter_range (t : nat) (i : Z) :
  0 <= i < 2 ^ (2 * hb) -> 0 <= Nat.iter t pi i < 2 ^ (2 * hb).
Proof. intros Hi. induction t as [|t IH]; [assumption|]. cbn. apply pi_range. assumption. Qed.

Lemma iter_inj (t : nat) (i j : Z) :
  0 <= i < 2 ^ (2 * hb) -> 0 <= j < 2 ^ (2 * hb) ->
  Nat.iter t pi i = Nat.iter t pi j -> i = j.
Proof.
  intros Hi Hj. induction t as [|t IH]; [trivial|]. cbn. intros H.
  apply pi_inj in H; [auto|apply iter_range; assumption..].
Qed.

Lemma iter_add (s t : nat) (i : Z) :
  Nat.iter (s + t) pi i = Nat.iter s pi (Nat.iter t pi i).
Proof.
  induction s as [|s IH]; [reflexivity|].
  change (S s + t)%nat with (S (s + t)). rewrite !Nat.iter_succ, IH. reflexivity.
Qed.

Section Walk.
Variable N : Z.
Hypothesis HN : 0 < N <= 2 ^ (2 * hb).

Lemma walk_some (fuel : nat) : forall i j,
  cycle_walk fuel N sd ep hb mask i = Some j ->
  exists t, (1 <= t <= fuel)%nat /\ j = Nat.iter t pi i /\ j < N /\
            forall s, (1 <= s < t)%nat -> N <= Nat.iter s pi i.
Proof.
  induction fuel as [|fuel IH]; intros i j H; [discriminate H|].
  cbn [cycle_walk] in H.
  destruct (Z.ltb_spec (pi i) N) as [Hlt|Hge].
  - injection H as <-. exists 1%nat. split; [lia|]. split; [reflexivity|].
    split; [assumption|]. intros s Hs. lia.
  - apply IH in H. destruct H as (t & Ht & Hj & HjN & Hlow).
    exists (S t). split; [lia|]. split; [rewrite Nat.iter_succ_r; exact Hj|].
    split; [assumption|]. intros s Hs.
    destruct s as [|s]; [lia|]. rewrite Nat.iter_succ_r.
    destruct s as [|s]; [exact Hge|]. apply Hlow. lia.
Qed.

Lemma walk_none (fuel : nat) : forall i,
  cycle_walk fuel N sd ep hb mask i = None -> forall s, (1 <= s <= fuel)%nat -> N <= Nat.iter s pi i.
Proof.
  induction fuel as [|fuel IH]; intros i H s Hs; [lia|].
  cbn [cycle_walk] in H.
  destruct (Z.ltb_spec (pi i) N) as [Hlt|Hge]; [discriminate H|].
  destruct s as [|s]; [lia|]. rewrite Nat.iter_succ_r.
  destruct s as [|s]; [exact Hge|]. apply (IH (pi i) H). lia.
Qed.

Lemma walk_inj (fuel : nat) (i1 i2 j : Z) :
  0 <= i1 < N -> 0 <= i2 < N ->
  cycle_walk fuel N sd ep hb mask i1 = Some j ->
  cycle_walk fuel N sd ep hb mask i2 = Some j -> i1 = i2.
Proof.
  assert (Hgen : forall a b ta tb,
             0 <= a < N -> 0 <= b < N -> (1 <= ta <= tb)%nat ->
             Nat.iter ta pi a = Nat.iter tb pi b ->
             (forall s, (1 <= s < tb)%nat -> N <= Nat.iter s pi b) -> a = b).
  { intros a b ta tb Ha Hb Ht Heq Hlow.
    replace tb with (ta + (tb - ta))%nat in Heq by lia.
    rewrite iter_add in Heq.
    apply iter_inj in Heq; [|lia|apply iter_range; lia].
    destruct (Nat.eq_dec (tb - ta)%nat 0%nat) as [E|E]; [rewrite E in Heq; exact Heq|].
    specialize (Hlow (tb - ta)%nat ltac:(lia)). lia. }
  intros H1 H2 W1 W2.
  apply walk_some in W1. destruct W1 as (t1 & Ht1 & Hj1 & _ & Hl1).
  apply walk_some in W2. destruct W2 as (t2 & Ht2 & Hj2 & _ & Hl2).
  destruct (Nat.le_ge_cases t1 t2).
  - apply (Hgen i1 i2 t1 t2); try assumption; [lia|congruence].
  - symmetry. apply (Hgen i2 i1 t2 t1); try assumption; [lia|congruence].
Qed.

(** With as many steps as the Feistel domain has elements, a walk from
    inside [0, N) always comes back inside. *)
Lemma walk_total (fuel : nat) (i : Z) :
  0 <= i < N -> 2 ^ (2 * hb) <= Z.of_nat fuel -> cycle_walk fuel N sd ep hb mask i <> None.
Proof.
  intros Hi Hfuel Hnone.
  pose proof (walk_none fuel i Hnone) as Hout.
  set (orbit := map (fun t => Nat.iter t pi i) (seq 0 (S fuel))).
  assert (Hnd : List.NoDup orbit).
  { apply (NoDup_nth orbit 0). subst orbit. rewrite length_map, length_seq.
    assert (Hlt : forall a b, (a < b)%nat -> (b < S fuel)%nat ->
               Nat.iter a pi i <> Nat.iter b pi i).
    { intros a b Hab Hb Heq.
      replace b with (a + (b - a))%nat in Heq by lia. rewrite iter_add in Heq.
      apply iter_inj in Heq; [|lia|apply iter_range; lia].
      specialize (Hout (b - a)%nat ltac:(lia)). lia. }
    intros a b Ha Hb Heq.
    rewrite !nth_map_seq in Heq by lia.
    destruct (Nat.lt_trichotomy a b) as [Hc|[Hc|Hc]]; [|assumption|].
    - exfalso. exact (Hlt a b Hc Hb Heq).
    - exfalso. symmetry in Heq. exact (Hlt b a Hc Ha Heq). }
  assert (Hincl : incl orbit (map Z.of_nat (seq 0 (Z.to_nat (2 ^ (2 * hb)))))).
  { intros x Hx. subst orbit. apply in_map_iff in Hx. destruct Hx as (t & <- & _).
    pose proof (iter_range t i ltac:(lia)) as Hr.
    apply in_map_iff. exists (Z.to_nat (Nat.iter t pi i)).
    split; [lia|]. apply in_seq. lia. }
  pose proof (NoDup_incl_length Hnd Hincl) as Hlen.
  subst orbit. rewrite !length_map, !length_seq in Hlen. lia.
Qed.

End Walk.
End Feistel.

End FeistelFacts.

Section PermuteFacts.
Import Shuffle.

Lemma finite_inj_surj (f : Z -> Z) (N : Z) :
  (forall i, 0 <= i < N -> 0 <= f i < N) ->
  (forall i j, 0 <= i < N -> 0 <= j < N -> f i = f j -> i = j) ->
  forall j, 0 <= j < N -> exists i, 0 <= i < N /\ f i = j.
Proof.
  intros Hr Hi j Hj.
  set (dom := map Z.of_nat (seq 0 (Z.to_nat N))).
  assert (Hdom : forall x, In x dom <-> 0 <= x < N).
  { intros x. subst dom. rewrite in_map_iff. split.
    - intros (t & <- & Ht). apply in_seq in Ht. lia.
    - intros Hx. exists (Z.to_nat x). split; [lia|]. apply in_seq. lia. }
  assert (Hnd : List.NoDup (map f dom)).
  { apply (NoDup_nth (map f dom) 0). subst dom. rewrite !length_map, length_seq.
    intros a b Ha Hb Heq. rewrite map_map in Heq.
    rewrite !nth_map_seq in Heq by assumption.
    assert (Z.of_nat a = Z.of_nat b) by (apply Hi; [lia|lia|exact Heq]). lia. }
  assert (Hincl : incl (map f dom) dom).
  { intros x Hx. apply in_map_iff in Hx. destruct Hx as (y & <- & Hy).
    apply Hdom. apply Hr. apply Hdom. assumption. }
  assert (Hlen : (length dom <= length (map f dom))%nat) by (rewrite length_map; apply Nat.le_refl).
  pose proof (NoDup_length_incl Hnd Hlen Hincl) as Hback.
  specialize (Hback j (proj2 (Hdom j) Hj)).
  apply in_map_iff in Hback. destruct Hback as (i & Hfi & Hin).
  exists i. split; [apply Hdom; assumption|assumption].
Qed.

Section Params.
Variables N sd ep : Z.
Hypothesis HN : 2 <= N <= 2 ^ 31.

Local Abbreviation k := (ceil_log2 N).
Local Abbreviation hb := ((ceil_log2 N + 1) / 2).

Lemma params_facts :
  1 <= k <= 31 /\ N <= 2 ^ k /\ 0 <= hb <= 16 /\ N <= 2 ^ (2 * hb) /\
  u32 (Z.shiftl 1 k) = 2 ^ k /\ u32 (u32 (Z.shiftl 1 hb) - 1) = 2 ^ hb - 1 /\
  (Z.even k = true -> 2 * hb = k).
Proof.
  assert (HN32 : 2 <= N <= 2 ^ 32) by lia.
  destruct (ceil_log2_bracket N HN32) as ((Hlo & Hhi) & Hk1 & Hk32).
  assert (Hk31 : k <= 31).
  { destruct (Z.le_gt_cases k 31); [assumption|].
    assert (k = 32) by lia. replace (k - 1) with 31 in Hlo by lia. lia. }
  assert (Hhb : 0 <= hb <= 16) by (split; [apply Z.div_pos; lia|apply Z.div_le_upper_bound; lia]).
  assert (H2hb : k <= 2 * hb).
  { pose proof (Z.div_mod (k + 1) 2 ltac:(lia)).
    pose proof (Z.mod_pos_bound (k + 1) 2 ltac:(lia)). lia. }
  assert (Hpk : 0 < 2 ^ k < 2 ^ 32).
  { split; [apply Z.pow_pos_nonneg; lia|apply Z.pow_lt_mono_r; lia]. }
  assert (Hph : 0 < 2 ^ hb < 2 ^ 32).
  { split; [apply Z.pow_pos_nonneg; lia|apply Z.pow_lt_mono_r; lia]. }
  split; [lia|]. split; [assumption|]. split; [assumption|].
  split; [apply Z.le_trans with (2 ^ k); [assumption|apply Z.pow_le_mono_r; lia]|].
  split; [rewrite Z.shiftl_1_l; apply u32_small; lia|].
  split.
  { rewrite Z.shiftl_1_l, (u32_small (2 ^ hb)) by lia. apply u32_small. lia. }
  intros Hev. apply Z.even_spec in Hev. destruct Hev as [c Hc].
  rewrite Hc. replace (2 * c + 1) with (1 + c * 2) by lia.
  rewrite Z.div_add by lia. change (1 / 2) with 0. lia.
Qed.

Lemma permute_unfold (index : Z) :
  0 <= index < N ->
  ct_permute_index index N sd ep
  = match cycle_walk (Z.to_nat (2 ^ k)) N sd ep hb (2 ^ hb - 1) index with
    | Some i => i
    | None => index mod N
    end.
Proof.
  intros Hi. destruct params_facts as (_ & _ & _ & _ & Hr & Hm & _).
  unfold ct_permute_index.
  destruct (Z.leb_spec N 1); [lia|].
  destruct (Z.geb_spec index N); [lia|].
  rewrite Hr, Hm. reflexivity.
Qed.

Lemma walks_home_unfold (index : Z) :
  walks_home N sd ep index <->
  cycle_walk (Z.to_nat (2 ^ k)) N sd ep hb (2 ^ hb - 1) index <> None.
Proof.
  destruct params_facts as (_ & _ & _ & _ & Hr & Hm & _).
  unfold walks_home. cbv zeta. rewrite Hr, Hm. reflexivity.
Qed.

Lemma permute_bijective_if_walks :
  (forall i, 0 <= i < N -> walks_home N sd ep i) ->
  (forall i, 0 <= i < N -> 0 <= ct_permute_index i N sd ep < N) /\
  (forall i j, 0 <= i < N -> 0 <= j < N ->
     ct_permute_index i N sd ep = ct_permute_index j N sd ep -> i = j) /\
  (forall j, 0 <= j < N -> exists i, 0 <= i < N /\ ct_permute_index i N sd ep = j).
Proof.
  intros Hw. destruct params_facts as (_ & _ & Hhb & HND & _).
  assert (Hrange : forall i, 0 <= i < N -> 0 <= ct_permute_index i N sd ep < N)
    by (intros i _; apply ct_permute_index_range; lia).
  assert (Hinj : forall i j, 0 <= i < N -> 0 <= j < N ->
             ct_permute_index i N sd ep = ct_permute_index j N sd ep -> i = j).
  { intros i j Hi Hj. rewrite !permute_unfold by assumption.
    pose proof (proj1 (walks_home_unfold i) (Hw i Hi)) as Wi.
    pose proof (proj1 (walks_home_unfold j) (Hw j Hj)) as Wj.
    destruct (cycle_walk _ _ _ _ _ _ i) as [x|] eqn:Ei; [|congruence].
    destruct (cycle_walk _ _ _ _ _ _ j) as [y|] eqn:Ej; [|congruence].
    intros <-. apply (walk_inj sd ep hb Hhb N ltac:(lia) _ i j x Hi Hj Ei Ej). }
  split; [assumption|]. split; [assumption|].
  apply finite_inj_surj; assumption.
Qed.

Lemma even_width_walks (i : Z) :
  Z.even k = true -> 0 <= i < N -> walks_home N sd ep i.
Proof.
  intros Hev Hi. destruct params_facts as (Hk & _ & Hhb & HND & _ & _ & H2).
  apply walks_home_unfold.
  apply (walk_total sd ep hb Hhb N ltac:(lia) _ i Hi).
  rewrite (H2 Hev). rewrite Z2Nat.id by (apply Z.pow_nonneg; lia). lia.
Qed.

End Params.

(** X10: for every seed, epoch and half width of at most 16 bits, the
    four-round Feistel network of [ct_permute_index] maps [0, 2^(2 hb))
    into itself, injectively and onto: it is a permutation of the padded
    domain, whatever the round function returns. *)
Theorem feistel_network_permutes (sd ep hb : Z) :
  0 <= hb <= 16 ->
  let pi := feistel_network sd ep hb (2 ^ hb - 1) in
  (forall i, 0 <= i < 2 ^ (2 * hb) -> 0 <= pi i < 2 ^ (2 * hb)) /\
  (forall i j, 0 <= i < 2 ^ (2 * hb) -> 0 <= j < 2 ^ (2 * hb) -> pi i = pi j -> i = j) /\
  (forall j, 0 <= j < 2 ^ (2 * hb) -> exists i, 0 <= i < 2 ^ (2 * hb) /\ pi i = j).
Proof.
  intros Hhb pi.
  assert (Hr : forall i, 0 <= i < 2 ^ (2 * hb) -> 0 <= pi i < 2 ^ (2 * hb))
    by (intros i Hi; apply pi_range; assumption).
  assert (Hi : forall i j, 0 <= i < 2 ^ (2 * hb) -> 0 <= j < 2 ^ (2 * hb) ->
             pi i = pi j -> i = j)
    by (intros i j; apply pi_inj; assumption).
  split; [assumption|]. split; [assumption|].
  apply finite_inj_surj; assumption.
Qed.

Lemma feistel_network_permutes_witness :
  0 <= 1 <= 16 /\
  forall j, 0 <= j < 2 ^ (2 * 1) ->
    exists i, 0 <= i < 2 ^ (2 * 1) /\ feistel_network 5 0 1 (2 ^ 1 - 1) i = j.
Proof.
  assert (H : 0 <= 1 <= 16) by lia.
  split; [exact H|].
  exact (proj2 (proj2 (feistel_network_permutes 5 0 1 H))).
Defined.


(** X11: for 2 <= N <= 2^31, if the cycle walk of every index of [0, N)
    comes back inside [0, N) within the [max_iterations] steps the loop
    allows (so that the fallback [index % N] is never taken), then
    [ct_permute_index] is injective on [0, N) and onto [0, N). *)
Theorem ct_permute_index_bijective_if_walks (N sd ep : Z) :
  2 <= N <= 2 ^ 31 ->
  (forall i, 0 <= i < N -> walks_home N sd ep i) ->
  (forall i j, 0 <= i < N -> 0 <= j < N ->
     ct_permute_index i N sd ep = ct_permute_index j N sd ep -> i = j) /\
  (forall j, 0 <= j < N -> exists i, 0 <= i < N /\ ct_permute_index i N sd ep = j).
Proof.
  intros HN Hw. destruct (permute_bijective_if_walks N sd ep HN Hw) as (_ & H1 & H2).
  split; assumption.
Qed.

Lemma ct_permute_index_bijective_if_walks_witness :
  2 <= 5 <= 2 ^ 31 /\
  (forall i, 0 <= i < 5 -> walks_home 5 1 0 i) /\
  forall j, 0 <= j < 5 -> exists i, 0 <= i < 5 /\ ct_permute_index i 5 1 0 = j.
Proof.
  assert (HN : 2 <= 5 <= 2 ^ 31) by lia.
  assert (Hw : forall i, 0 <= i < 5 -> walks_home 5 1 0 i).
  { intros i Hi.
    assert (Hc : i = 0 \/ i = 1 \/ i = 2 \/ i = 3 \/ i = 4) by lia.
    destruct Hc as [->|[->|[->|[->| ->]]]]; vm_compute; discriminate. }
  split; [exact HN|]. split; [exact Hw|].
  exact (proj2 (ct_permute_index_bijective_if_walks 5 1 0 HN Hw)).
Defined.


(** X12: for 2 <= N <= 2^31 with an even [ceil_log2 N] (the Feistel
    domain then has exactly [max_iterations] elements), every walk comes
    back inside [0, N), and [ct_permute_index] is a bijection of [0, N) for
    every seed and epoch. *)
Theorem ct_permute_index_bijective_even_width (N sd ep : Z) :
  2 <= N <= 2 ^ 31 -> Z.even (ceil_log2 N) = true ->
  (forall i, 0 <= i < N -> walks_home N sd ep i) /\
  (forall i j, 0 <= i < N -> 0 <= j < N ->
     ct_permute_index i N sd ep = ct_permute_index j N sd ep -> i = j) /\
  (forall j, 0 <= j < N -> exists i, 0 <= i < N /\ ct_permute_index i N sd ep = j).
Proof.
  intros HN Hev.
  assert (Hw : forall i, 0 <= i < N -> walks_home N sd ep i)
    by (intros i Hi; apply even_width_walks; assumption).
  split; [assumption|].
  destruct (permute_bijective_if_walks N sd ep HN Hw) as (_ & H1 & H2).
  split; assumption.
Qed.

Lemma ct_permute_index_bijective_even_width_witness :
  2 <= 4 <= 2 ^ 31 /\ Z.even (ceil_log2 4) = true /\
  forall j, 0 <= j < 4 -> exists i, 0 <= i < 4 /\ ct_permute_index i 4 5 0 = j.
Proof.
  assert (HN : 2 <= 4 <= 2 ^ 31) by lia.
  assert (Hev : Z.even (ceil_log2 4) = true) by reflexivity.
  split; [exact HN|]. split; [exact Hev|].
  exact (proj2 (proj2 (ct_permute_index_bijective_even_width 4 5 0 HN Hev))).
Defined.


Lemma verify_loop_passes (seed epoch N : Z) (idxs : list Z) :
  1 <= N -> verify_loop seed epoch N idxs = 1.
Proof.
  intros HN. induction idxs as [|i idxs IH]; [reflexivity|].
  cbn [verify_loop].
  pose proof (ct_permute_index_range i N seed epoch HN).
  destruct (Z.geb_spec (ct_permute_index i N seed epoch) N); [lia|assumption].
Qed.

(** X13: [ct_shuffle_verify_bijection] returns 0 exactly when
    [num_samples > N], and 1 otherwise, for every seed and epoch: the range
    test of its loop never fails, and distinctness is not tested. *)
Theorem ct_shuffle_verify_bijection_checks_range_only (seed epoch N num_samples : Z) :
  0 <= N -> 0 <= num_samples ->
  ct_shuffle_verify_bijection seed epoch N num_samples
  = (if num_samples >? N then 0 else 1).
Proof.
  intros HN Hn. unfold ct_shuffle_verify_bijection.
  destruct (Z.gtb_spec num_samples N) as [|Hle]; [reflexivity|].
  destruct (Z.eq_dec num_samples 0) as [->|Hnz]; [reflexivity|].
  apply verify_loop_passes. lia.
Qed.

(** The check passes for N = 2, seed 5, epoch 0, where indices 0 and 1
    both map to 0. *)
Lemma ct_shuffle_verify_bijection_checks_range_only_witness :
  0 <= 2 /\ ct_shuffle_verify_bijection 5 0 2 2 = 1 /\
  ct_permute_index 0 2 5 0 = ct_permute_index 1 2 5 0.
Proof.
  assert (H : 0 <= 2) by lia.
  split; [exact H|]. split.
  - exact (ct_shuffle_verify_bijection_checks_range_only 5 0 2 2 H H).
  - vm_compute. reflexivity.
Defined.

End PermuteFacts.

(** ** merkle.c and batch.c: provenance chain, leaf hash, batches *)

Section ChainAndBatch.
Import Merkle BatchOps.


Section MoreMerkle.

Lemma chain_after_snoc (dh cfg : ct_hash_t) (sd : Z) (hs : list ct_hash_t)
    (h : ct_hash_t) :
  chain_after dh cfg sd (hs ++ [h])
  = ct_provenance_advance (chain_after dh cfg sd hs) h.
Proof. unfold chain_after. rewrite fold_left_app. reflexivity. Qed.

(** X15: after [ct_provenance_init] and one [ct_provenance_advance] per
    epoch hash of [hs], both counters equal the number of epochs modulo
    2^32 and the current hash has 32 bytes.  With no epoch, the previous hash
    is the current one, SHA256(0x03 || dataset hash || config hash || seed
    as 8 little-endian bytes).  After a last epoch with hash [h], the
    previous hash is the current hash of the chain before it and the current
    hash is SHA256(0x04 || previous || h || e as 4 little-endian bytes),
    where e counts the epochs before this one. *)
Theorem ct_provenance_chain (dh cfg : ct_hash_t) (sd : Z) (hs : list ct_hash_t) :
  let p := chain_after dh cfg sd hs in
  current_epoch p = u32 (Z.of_nat (length hs)) /\
  total_epochs p = current_epoch p /\
  length (current_hash p) = 32%nat /\
  (hs = [] ->
     prev_hash p = current_hash p /\
     current_hash p
     = SHA256.digest (CT_DOMAIN_PROVENANCE :: take 32 dh ++ take 32 cfg ++ le64 sd)) /\
  (forall hs0 h, hs = hs0 ++ [h] ->
     prev_hash p = current_hash (chain_after dh cfg sd hs0) /\
     current_hash p
     = SHA256.digest (CT_DOMAIN_EPOCH_CHAIN :: prev_hash p ++ take 32 h
                        ++ le32 (u32 (Z.of_nat (length hs0))))).
Proof.
  induction hs as [|h hs IH] using rev_ind; intros p.
  - subst p. cbn [chain_after fold_left length].
    repeat split.
    + apply digest_length.
    + unfold ct_provenance_init, current_hash, SHA256.ct_sha256_final,
        SHA256.ct_sha256_update, SHA256.ct_sha256_init. cbn [app firstn].
      rewrite <- !app_assoc. reflexivity.
    + exfalso. destruct hs0; discriminate.
    + exfalso. destruct hs0; discriminate.
  - destruct IH as (He & Ht & Hl & _).
    subst p. rewrite chain_after_snoc.
    set (q := chain_after dh cfg sd hs) in *.
    assert (Hu : forall n, u32 (u32 (Z.of_nat n) + 1) = u32 (Z.of_nat (S n))).
    { intros n. unfold u32. rewrite Nat2Z.inj_succ, Zplus_mod_idemp_l.
      f_equal. }
    cbn [ct_provenance_advance current_epoch total_epochs current_hash prev_hash].
    rewrite Ht, He, Hu, length_app, Nat.add_1_r.
    split; [reflexivity|]. split; [reflexivity|].
    split; [apply digest_length|].
    split; [intros Hnil; destruct hs; discriminate|].
    intros hs0 h0 Heq. apply app_inj_tail in Heq as [<- <-].
    split; [reflexivity|].
    unfold SHA256.ct_sha256_final, SHA256.ct_sha256_update, SHA256.ct_sha256_init.
    cbn [app]. rewrite <- !app_assoc.
    replace (firstn 32 (current_hash q)) with (current_hash q)
      by (symmetry; apply firstn_all2; rewrite Hl; apply Nat.le_refl).
    reflexivity.
Qed.

End MoreMerkle.

Section MoreHash.

Lemma hash_elements_ext (s s' : ct_sample_t) (m m' : machine) (idxs : list Z) :
  forall ctx,
    (forall i, i ∈ idxs -> fst (load (data s) i m) = fst (load (data s') i m')) ->
    fst (hash_elements s idxs ctx m) = fst (hash_elements s' idxs ctx m').
Proof.
  induction idxs as [|i idxs IH]; intros ctx H; [reflexivity|].
  cbn [hash_elements]. unfold bind.
  pose proof (H i ltac:(left)) as Hi. unfold load in Hi |- *. cbn [fst] in Hi.
  rewrite Hi. apply IH. intros j Hj. apply H. right. exact Hj.
Qed.

Lemma flat_map_ext_elem {A B : Type} (f g : A -> list B) (l : list A) :
  (forall x, In x l -> f x = g x) -> flat_map f l = flat_map g l.
Proof.
  induction l as [|x l IH]; intros H; [reflexivity|].
  cbn [flat_map]. rewrite (H x) by (left; reflexivity).
  rewrite IH; [reflexivity|]. intros y Hy. apply H. right. exact Hy.
Qed.

(** X14: [ct_hash_sample] is a function of the serialised sample only:
    two samples with the same version, dtype, ndims and total_elements, the
    same dimensions below ndims and the same first total_elements elements
    have the same 32-byte hash, whatever their data pointers, their unused
    dimensions and the rest of their buffers hold.  It changes nothing of
    the machine. *)
Theorem ct_hash_sample_canonical (s s' : ct_sample_t) (m m' : machine) :
  version s = version s' -> dtype s = dtype s' -> ndims s = ndims s' ->
  total_elements s = total_elements s' ->
  (forall i, (i < CT_MAX_DIMS)%nat -> Z.of_nat i < ndims s -> dim s i = dim s' i) ->
  (forall i, 0 <= i < total_elements s ->
     fst (load (data s) i m) = fst (load (data s') i m')) ->
  fst (ct_hash_sample s m) = fst (ct_hash_sample s' m') /\
  snd (ct_hash_sample s m) = m /\
  length (fst (ct_hash_sample s m)) = 32%nat.
Proof.
  intros Hv Hd Hn Ht Hdim Hdata.
  split; [|split; [apply ct_hash_sample_pure|]].
  - unfold ct_hash_sample, bind, ret.
    rewrite <- Hv, <- Hd, <- Hn, <- Ht.
    assert (Hh : flat_map (fun i => le32 (if Z.of_nat i <? ndims s
                                          then dim s i else 0))
                          (seq 0 CT_MAX_DIMS)
               = flat_map (fun i => le32 (if Z.of_nat i <? ndims s
                                          then dim s' i else 0))
                          (seq 0 CT_MAX_DIMS)).
    { apply flat_map_ext_elem. intros i Hi. apply in_seq in Hi.
      destruct (Z.ltb_spec (Z.of_nat i) (ndims s)); [|reflexivity].
      rewrite Hdim by lia. reflexivity. }
    rewrite <- Hh.
    match goal with |- context [hash_elements s ?l ?c m] =>
      pose proof (hash_elements_ext s s' m m' l c) as He;
      destruct (hash_elements s l c m) as [c1 m1];
      destruct (hash_elements s' l c m') as [c2 m2] end.
    cbn [fst] in *. rewrite He; [reflexivity|].
    intros i Hi. apply elem_of_seqZ in Hi. apply Hdata. lia.
  - unfold ct_hash_sample, bind, ret.
    match goal with |- context [hash_elements s ?l ?c m] =>
      destruct (hash_elements s l c m) as [c1 m1] end.
    cbn [fst]. apply digest_length.
Qed.

(** A shallow copy under another pointer, with other values in the unused
    dimensions and a longer buffer, hashes like the original. *)
Lemma ct_hash_sample_canonical_witness :
  let s' := Sample 1 0 1 [1; 9; 9; 9] 1 2%nat in
  let m' := Inputs.machine0 {[ 2%nat := [65536; 7] ]} in
  (forall i, (i < CT_MAX_DIMS)%nat -> Z.of_nat i < ndims Inputs.one_sample ->
     dim Inputs.one_sample i = dim s' i) /\
  (forall i, 0 <= i < total_elements Inputs.one_sample ->
     fst (load (data Inputs.one_sample) i (Inputs.machine0 Inputs.one_heap))
     = fst (load (data s') i m')) /\
  fst (ct_hash_sample Inputs.one_sample (Inputs.machine0 Inputs.one_heap))
  = fst (ct_hash_sample s' m').
Proof.
  intros s' m'.
  assert (Hd : forall i, (i < CT_MAX_DIMS)%nat -> Z.of_nat i < ndims Inputs.one_sample ->
             dim Inputs.one_sample i = dim s' i).
  { intros i _ Hi. assert (i = 0%nat) by (cbn in Hi; lia). subst i. reflexivity. }
  assert (Hl : forall i, 0 <= i < total_elements Inputs.one_sample ->
             fst (load (data Inputs.one_sample) i (Inputs.machine0 Inputs.one_heap))
             = fst (load (data s') i m')).
  { intros i Hi. assert (i = 0) by (cbn in Hi; lia). subst i. reflexivity. }
  split; [exact Hd|]. split; [exact Hl|].
  exact (proj1 (ct_hash_sample_canonical Inputs.one_sample s'
                  (Inputs.machine0 Inputs.one_heap) m'
                  eq_refl eq_refl eq_refl eq_refl Hd Hl)).
Defined.


End MoreHash.

Section MoreBatch.







(** X16: when [batch_index * batch_size + batch_size] fits in 32 bits,
    the number of slots [ct_batch_fill] fills from the dataset is
    min(batch_size, N - start) for start = batch_index * batch_size <= N;
    for a batch that starts beyond the end of the dataset (start > N) the
    subtraction wraps and the count is 2^32 + N - start. *)
Theorem samples_in_batch_count (batch : ct_batch_t) (dataset : ct_dataset_t)
    (bi : Z) :
  let B := batch_size batch in
  let N := num_samples dataset in
  0 <= B -> 0 <= N -> 0 <= bi -> bi * B + B < 2 ^ 32 ->
  samples_in_batch batch dataset bi
  = if bi * B <=? N then Z.min B (N - bi * B) else 2 ^ 32 + N - bi * B.
Proof.
  intros B N HB HN Hbi Hw. unfold samples_in_batch. fold B N.
  assert (Hs : 0 <= bi * B) by nia.
  rewrite (u32_small (bi * B)) by lia.
  rewrite (u32_small (bi * B + B)) by lia.
  destruct (Z.leb_spec (bi * B) N) as [Hle|Hgt].
  - destruct (Z.gtb_spec (bi * B + B) N).
    + rewrite u32_small by lia. lia.
    + lia.
  - destruct (Z.gtb_spec (bi * B + B) N); [|lia].
    unfold u32. change (2 ^ 32) with 4294967296 in *.
    rewrite <- (Z.mod_add _ 1) by lia.
    rewrite Z.mod_small by lia. lia.
Qed.

Lemma samples_in_batch_count_witness :
  0 <= batch_size Inputs.batch_of_two /\ 0 <= num_samples Inputs.one_dataset /\
  0 * batch_size Inputs.batch_of_two + batch_size Inputs.batch_of_two < 2 ^ 32 /\
  samples_in_batch Inputs.batch_of_two Inputs.one_dataset 0 = 1.
Proof.
  assert (H1 : 0 <= batch_size Inputs.batch_of_two) by (cbn; lia).
  assert (H2 : 0 <= num_samples Inputs.one_dataset) by (cbn; lia).
  assert (H3 : 0 * batch_size Inputs.batch_of_two + batch_size Inputs.batch_of_two
               < 2 ^ 32) by (cbn; lia).
  split; [exact H1|]. split; [exact H2|]. split; [exact H3|].
  exact (samples_in_batch_count Inputs.batch_of_two Inputs.one_dataset 0 H1 H2
           ltac:(lia) H3).
Defined.


(** X19: a batch of at most 1024 slots that starts inside the dataset
    and was filled by [ct_batch_fill] passes [ct_batch_verify], and goes on
    passing it whatever is done afterwards to its [samples] array, to its
    [batch_index] and to the heap the samples point into: the verification
    reads [sample_hashes], [batch_size] and [batch_hash] only. *)
Theorem ct_batch_fill_then_verify (batch : ct_batch_t) (dataset : ct_dataset_t)
    (bi ep sd : Z) (m : machine) :
  fill_fits batch dataset bi m ->
  batch_size batch <= 1024 ->
  let filled := fst (ct_batch_fill batch dataset bi ep sd m) in
  forall (ss' : list ct_sample_t) (idx' : Z) (m' : machine),
    ct_batch_verify (Batch ss' (sample_hashes filled) (batch_size filled) idx'
                           (batch_hash filled)) m'
    = (1, m').
Proof.
  intros Hfit Hcap filled ss' idx' m'. subst filled.
  assert (HB : 0 <= batch_size batch <= 1024)
    by (destruct Hfit as (_ & HB & _); lia).
  rewrite ct_batch_fill_unfold. cbn [fst snd sample_hashes batch_size batch_hash].
  unfold ct_batch_verify, bind, ret, ct_hash_batch. cbn [sample_hashes batch_size batch_hash].
  set (hs := snd (pad_slots _ _ _)).
  pose proof (ct_merkle_root_pure hs (batch_size batch) m') as Hq.
  pose proof (ct_merkle_root_resize hs (batch_size batch) m' HB) as Hr'.
  rewrite (ct_merkle_root_resize hs (batch_size batch) m HB).
  destruct (ct_merkle_root hs (batch_size batch) m') as [h m2].
  cbn [fst snd] in *. subst m2 h.
  unfold memcmp32_eq. rewrite bool_decide_eq_true_2 by reflexivity. reflexivity.
Qed.

Lemma ct_batch_fill_then_verify_witness :
  fill_fits Inputs.batch_of_two Inputs.one_dataset 0
            (Inputs.machine0 Inputs.one_heap) /\
  batch_size Inputs.batch_of_two <= 1024 /\
  forall (ss' : list ct_sample_t) (idx' : Z) (m' : machine),
    ct_batch_verify
      (Batch ss'
         (sample_hashes (fst (ct_batch_fill Inputs.batch_of_two Inputs.one_dataset
                                0 0 0 (Inputs.machine0 Inputs.one_heap))))
         (batch_size (fst (ct_batch_fill Inputs.batch_of_two Inputs.one_dataset
                             0 0 0 (Inputs.machine0 Inputs.one_heap))))
         idx'
         (batch_hash (fst (ct_batch_fill Inputs.batch_of_two Inputs.one_dataset
                             0 0 0 (Inputs.machine0 Inputs.one_heap))))) m'
    = (1, m').
Proof.
  assert (H1 : fill_fits Inputs.batch_of_two Inputs.one_dataset 0
                 (Inputs.machine0 Inputs.one_heap)).
  { unfold fill_fits. cbn [Inputs.batch_of_two Inputs.one_dataset batch_size
      num_samples samples sample_hashes ds_samples length].
    repeat (split; [lia|]).
    intros j Hj. assert (j = 0%nat) as -> by lia.
    exists Inputs.one_sample, [65536].
    split; [reflexivity|]. split; [reflexivity|]. cbn. lia. }
  assert (H2 : batch_size Inputs.batch_of_two <= 1024) by (cbn; lia).
  split; [exact H1|]. split; [exact H2|].
  exact (ct_batch_fill_then_verify Inputs.batch_of_two Inputs.one_dataset 0 0 0
           (Inputs.machine0 Inputs.one_heap) H1 H2).
Defined.


End MoreBatch.

End ChainAndBatch.

(** ** Loops over a buffer *)

Section Heap.

Lemma load_rd (p : nat) (i : Z) (m : machine) :
  load p i m = (rd (mem m) p (Z.to_nat i), m).
Proof. reflexivity. Qed.

Lemma store_wr (p : nat) (i v : Z) (m : machine) :
  mem (snd (store p i v m)) = wr (mem m) p (Z.to_nat i) v.
Proof. unfold store, wr. destruct (mem m !! p); reflexivity. Qed.

Lemma quiet_ret {A} (x : A) : quiet (ret x).
Proof. intros m. cbn. split; [|split]; try reflexivity. apply faults_le_refl. Qed.

Lemma quiet_bind {A B} (c : M A) (k : A -> M B) :
  quiet c -> (forall a, quiet (k a)) -> quiet (bind c k).
Proof.
  intros Hc Hk m. unfold bind. specialize (Hc m).
  destruct (c m) as [a m1]. cbn [snd] in Hc. specialize (Hk a m1).
  destruct Hc as (H1 & H2 & H3), Hk as (K1 & K2 & K3).
  split; [|split]; try congruence. eapply faults_le_trans; eassumption.
Qed.

Lemma quiet_only_raises {A} (c : M A) : only_raises c -> quiet c.
Proof. intros H m. destruct (H m) as (_ & H1 & H2 & H3). auto. Qed.

Lemma quiet_load (p : nat) (i : Z) : quiet (load p i).
Proof. intros m. cbn. split; [|split]; try reflexivity. apply faults_le_refl. Qed.

Lemma quiet_store (p : nat) (i v : Z) : quiet (store p i v).
Proof.
  intros m. unfold store. destruct (mem m !! p); cbn;
    (split; [|split]; try reflexivity; apply faults_le_refl).
Qed.

Lemma quiet_for_each {K} (l : list K) (body : K -> M unit) :
  (forall k, quiet (body k)) -> quiet (for_each l body).
Proof.
  intros Hb. induction l as [|k l IH]; [apply quiet_ret|].
  cbn [for_each]. apply quiet_bind; [apply Hb|intros _; exact IH].
Qed.

Lemma for_each_mem {K} (T : gmap nat (list Z) -> K -> gmap nat (list Z))
    (body : K -> M unit) :
  (forall k m, mem (snd (body k m)) = T (mem m) k) ->
  forall l m, mem (snd (for_each l body m)) = fold_left T l (mem m).
Proof.
  intros Hb l. induction l as [|k l IH]; intros m; [reflexivity|].
  cbn [for_each fold_left]. unfold bind. specialize (Hb k m).
  destruct (body k m) as [[] m1]. cbn [snd] in Hb. rewrite IH, Hb. reflexivity.
Qed.

Section Gather.
Context {K : Type}.
Variables (src dst : nat) (s d : K -> nat) (f : K -> Z -> Z).

(** A loop whose writes go to increasing places, none above the place it
    reads in the same pass, computes every element from the buffer as it was
    on entry, also when [src] and [dst] are one buffer. *)
Lemma gather_fold (ks : list K) :
  forall (h : gmap nat (list Z)) (xs ys : list Z),
    h !! src = Some xs -> h !! dst = Some ys ->
    StronglySorted (fun a b => (d a < d b)%nat) ks ->
    (src = dst -> Forall (fun k => (d k <= s k)%nat) ks) ->
    exists ys',
      fold_left (gather_step src dst s d f) ks h = <[dst := ys']> h /\
      length ys' = length ys /\
      (forall k, k ∈ ks -> (d k < length ys)%nat ->
         ys' !! d k = Some (f k (default 0 (xs !! s k)))) /\
      (forall j, (forall k, k ∈ ks -> d k <> j) -> ys' !! j = ys !! j).
Proof.
  induction ks as [|k ks IH]; intros h xs ys Hs Hd Hsort Hle.
  - exists ys. cbn [fold_left]. split; [symmetry; apply insert_id; exact Hd|].
    split; [reflexivity|]. split; [|reflexivity].
    intros k Hk. apply elem_of_nil in Hk. contradiction.
  - apply StronglySorted_inv in Hsort as [Hsort Hhd].
    rewrite Forall_forall in Hhd.
    cbn [fold_left]. unfold gather_step at 2. unfold wr, rd. rewrite Hd, Hs. cbn [mbind option_bind].
    set (v := f k (default 0 (xs !! s k))).
    set (ys1 := <[d k := v]> ys).
    set (h1 := <[dst := ys1]> h).
    set (xs1 := if decide (src = dst) then ys1 else xs).
    assert (Hs1 : h1 !! src = Some xs1).
    { subst h1 xs1. destruct (decide (src = dst)) as [->|Hne].
      - apply lookup_insert_eq.
      - rewrite lookup_insert_ne by congruence. exact Hs. }
    assert (Hd1 : h1 !! dst = Some ys1) by (subst h1; apply lookup_insert_eq).
    assert (Hle1 : src = dst -> Forall (fun k => (d k <= s k)%nat) ks).
    { intros E. specialize (Hle E). apply Forall_cons in Hle as [_ Hle]. exact Hle. }
    destruct (IH h1 xs1 ys1 Hs1 Hd1 Hsort Hle1) as (ys' & Hf & Hl & Hin & Hout).
    exists ys'. split; [rewrite Hf; subst h1; apply insert_insert_eq|].
    split; [rewrite Hl; subst ys1; apply length_insert|].
    split.
    + intros k' Hk' Hlt. apply elem_of_cons in Hk' as [->|Hk'].
      * rewrite Hout.
        -- subst ys1. apply list_lookup_insert_eq. exact Hlt.
        -- intros k' Hk'. specialize (Hhd k' Hk'). lia.
      * rewrite Hin; [|exact Hk'|subst ys1; rewrite length_insert; exact Hlt].
        do 3 f_equal. subst xs1.
        destruct (decide (src = dst)) as [E|_]; [|reflexivity].
        assert (xs = ys) by (rewrite E in Hs; congruence). subst xs ys1.
        apply list_lookup_insert_ne.
        pose proof (Hle1 E) as Hle'. rewrite Forall_forall in Hle'.
        specialize (Hle' k' Hk'). specialize (Hhd k' Hk'). lia.
    + intros j Hj. rewrite Hout.
      * subst ys1. apply list_lookup_insert_ne. apply Hj. left.
      * intros k' Hk'. apply Hj. right. exact Hk'.
Qed.

End Gather.

Lemma seqZ_sorted (a n : Z) :
  0 <= a -> StronglySorted (fun x y => (Z.to_nat x < Z.to_nat y)%nat) (seqZ a n).
Proof.
  intros Ha. destruct (Z.le_gt_cases n 0) as [Hn|Hn].
  - rewrite seqZ_nil by lia. constructor.
  - rewrite <- (Z2Nat.id n) by lia. generalize (Z.to_nat n) as k. clear n Hn.
    intros k. revert a Ha. induction k as [|k IH]; intros a Ha.
    + rewrite seqZ_nil by lia. constructor.
    + rewrite seqZ_cons by lia. constructor.
      * replace (Z.pred (Z.of_nat (S k))) with (Z.of_nat k) by lia.
        apply IH. lia.
      * apply Forall_forall. intros x Hx. apply elem_of_seqZ in Hx. lia.
Qed.

End Heap.

Section NormalizeFacts.
Import DVM Normalize.

(** The rounded quotient of a shift in [1, 62], before saturation. *)
Lemma dvm_round_shift_rne_value (x shift : Z) (m : machine) :
  0 < shift <= 62 ->
  exists y, Spec.is_rne x shift y /\
            dvm_round_shift_rne x shift m = dvm_clamp32 y m.
Proof.
  intros Hs. unfold dvm_round_shift_rne.
  destruct (Z.gtb_spec shift 62) as [|_]; [lia|].
  destruct (Z.eqb_spec shift 0) as [|_]; [lia|].
  destruct (rne_split x shift ltac:(lia)) as (Hx & Hr & Hh).
  set (q := Z.shiftr x shift) in *.
  set (r := Z.land x (Z.shiftl 1 shift - 1)) in *.
  set (h := Z.shiftl 1 (shift - 1)) in *.
  destruct (Z.ltb_spec r h) as [Hlt|Hge].
  - exists q. split; [split; lia|reflexivity].
  - destruct (Z.gtb_spec r h) as [Hgt|Hng].
    + exists (q + 1). split; [split; lia|reflexivity].
    + exists (q + Z.land q 1). split; [|reflexivity].
      split; [|intros _; apply even_round_up].
      assert (Hb : Z.land q 1 = 0 \/ Z.land q 1 = 1).
      { rewrite land_1_mod. pose proof (Z.mod_pos_bound q 2). lia. }
      nia.
Qed.

Lemma dvm_mul_q16_value (a b : Z) (m : machine) :
  exists y, Spec.is_rne (a * b) 16 y /\
            fst (dvm_mul_q16 a b m) = Spec.clamp_range y.
Proof.
  destruct (dvm_round_shift_rne_value (a * b) 16 m ltac:(lia)) as (y & Hy & He).
  exists y. split; [exact Hy|]. unfold dvm_mul_q16, dvm_mul64.
  rewrite He. apply dvm_clamp32_value.
Qed.

Lemma dvm_mul_q16_any_machine (a b : Z) (m m' : machine) :
  fst (dvm_mul_q16 a b m) = fst (dvm_mul_q16 a b m').
Proof.
  destruct (dvm_mul_q16_value a b m) as (y & Hy & ->).
  destruct (dvm_mul_q16_value a b m') as (y' & Hy' & ->).
  rewrite (is_rne_unique (a * b) 16 y y' ltac:(lia) Hy Hy'). reflexivity.
Qed.



Lemma quiet_normalize_element ctx input output i :
  quiet (normalize_element ctx input output i).
Proof.
  unfold normalize_element.
  apply quiet_bind; [apply quiet_load|intros x].
  apply quiet_bind; [apply quiet_only_raises, only_raises_sub32|intros c].
  apply quiet_bind; [apply quiet_only_raises, only_raises_mul_q16|intros n].
  apply quiet_store.
Qed.

Lemma quiet_copy_element input output i : quiet (copy_element input output i).
Proof.
  unfold copy_element. apply quiet_bind; [apply quiet_load|intros x].
  apply quiet_store.
Qed.




End NormalizeFacts.

Section CleanFlags.
Import DVM.

Lemma dvm_clamp32_clean (x : Z) (m : machine) :
  ct_has_fault (faults (snd (dvm_clamp32 x m))) = false ->
  fst (dvm_clamp32 x m) = x.
Proof.
  unfold dvm_clamp32.
  destruct (x >? INT32_MAX); [cbn; discriminate|].
  destruct (x <? INT32_MIN); [cbn|reflexivity].
  unfold ct_has_fault. cbn. rewrite orb_true_r. discriminate.
Qed.

(** X6: a fault word that [ct_has_fault] finds clean after an operation
    certifies the exact result: the sum for [dvm_add32], the difference for
    [dvm_sub32], the round-half-to-even value of a * b / 2^16 for
    [dvm_mul_q16], the truncated quotient of a * 2^16 by a non-zero b for
    [dvm_div_q16].  After [ct_fault_clear], [ct_has_fault] answers 0. *)
Theorem clean_flags_mean_exact (a b : Z) (m : machine) :
  (ct_has_fault (faults (snd (dvm_add32 a b m))) = false ->
   fst (dvm_add32 a b m) = a + b) /\
  (ct_has_fault (faults (snd (dvm_sub32 a b m))) = false ->
   fst (dvm_sub32 a b m) = a - b) /\
  (ct_has_fault (faults (snd (dvm_mul_q16 a b m))) = false ->
   Spec.is_rne (a * b) 16 (fst (dvm_mul_q16 a b m))) /\
  (ct_has_fault (faults (snd (dvm_div_q16 a b m))) = false ->
   b <> 0 /\ fst (dvm_div_q16 a b m) = Z.quot (a * 65536) b) /\
  ct_has_fault (faults (snd (ct_fault_clear m))) = false.
Proof.
  split; [apply dvm_clamp32_clean|]. split; [apply dvm_clamp32_clean|].
  split; [|split; [|reflexivity]].
  - destruct (dvm_round_shift_rne_value (a * b) 16 m ltac:(lia)) as (y & Hy & He).
    unfold dvm_mul_q16, dvm_mul64. rewrite He. intros Hc.
    rewrite (dvm_clamp32_clean y m Hc). exact Hy.
  - unfold dvm_div_q16. destruct (Z.eqb_spec b 0) as [->|Hb].
    + cbn. unfold ct_has_fault. cbn. rewrite !orb_true_r. discriminate.
    + intros Hc. split; [exact Hb|].
      rewrite (dvm_clamp32_clean _ m Hc).
      rewrite Z.shiftl_mul_pow2 by lia. reflexivity.
Qed.

Lemma clean_flags_mean_exact_witness :
  ct_has_fault (faults (snd (dvm_add32 1 2 (Inputs.machine0 ∅)))) = false /\
  fst (dvm_add32 1 2 (Inputs.machine0 ∅)) = 1 + 2.
Proof.
  assert (H : ct_has_fault (faults (snd (dvm_add32 1 2 (Inputs.machine0 ∅)))) = false)
    by reflexivity.
  split; [exact H|].
  exact (proj1 (clean_flags_mean_exact 1 2 (Inputs.machine0 ∅)) H).
Defined.

End CleanFlags.

(** ** augment.c: flip, crop, noise *)

Section FlipFacts.
Import Augment.

Lemma fold_left_buf {K} (p : nat)
    (T : gmap nat (list Z) -> K -> gmap nat (list Z))
    (t : list Z -> K -> list Z) :
  (forall h buf k, h !! p = Some buf -> T h k = <[p := t buf k]> h) ->
  forall l h buf, h !! p = Some buf ->
    fold_left T l h = <[p := fold_left t l buf]> h.
Proof.
  intros HT l. induction l as [|k l IH]; intros h buf Hb.
  - cbn. symmetry. apply insert_id. exact Hb.
  - cbn [fold_left]. rewrite (HT h buf k Hb).
    rewrite (IH _ (t buf k)) by apply lookup_insert_eq.
    apply insert_insert_eq.
Qed.

Lemma swap_columns_mem (sample : ct_sample_t) (width row col : Z) (m : machine)
    (buf : list Z) :
  mem m !! data sample = Some buf ->
  mem (snd (swap_columns sample width row col m))
  = <[data sample := swap_cells buf (u32 (row * width + col))
                       (u32 (row * width + (width - 1 - col)))]> (mem m).
Proof.
  intros Hb. unfold swap_columns, bind. rewrite !load_rd.
  set (li := u32 (row * width + col)).
  set (ri := u32 (row * width + (width - 1 - col))).
  pose proof (store_wr (data sample) li (rd (mem m) (data sample) (Z.to_nat ri)) m) as H1.
  destruct (store (data sample) li _ m) as [[] m1]. cbn [snd] in H1.
  rewrite store_wr, H1. unfold wr, rd. rewrite Hb. cbn [mbind option_bind].
  rewrite lookup_insert_eq, insert_insert_eq. reflexivity.
Qed.

Lemma swap_cells_length (buf : list Z) (a b : Z) :
  length (swap_cells buf a b) = length buf.
Proof. unfold swap_cells. rewrite !length_insert. reflexivity. Qed.

Lemma swap_cells_lookup (buf : list Z) (a b j : Z) :
  0 <= a < Z.of_nat (length buf) -> 0 <= b < Z.of_nat (length buf) ->
  0 <= j -> a <> b ->
  swap_cells buf a b !! Z.to_nat j
  = if j =? b then buf !! Z.to_nat a
    else if j =? a then buf !! Z.to_nat b
    else buf !! Z.to_nat j.
Proof.
  intros Ha Hb Hj Hab. unfold swap_cells.
  destruct (lookup_lt_is_Some_2 buf (Z.to_nat a) ltac:(lia)) as [x Hx].
  destruct (lookup_lt_is_Some_2 buf (Z.to_nat b) ltac:(lia)) as [y Hy].
  rewrite Hx, Hy. cbn [default].
  destruct (Z.eqb_spec j b) as [->|Hjb].
  - apply list_lookup_insert_eq. rewrite length_insert. lia.
  - rewrite list_lookup_insert_ne by lia.
    destruct (Z.eqb_spec j a) as [->|Hja].
    + apply list_lookup_insert_eq. lia.
    + rewrite list_lookup_insert_ne by lia. reflexivity.
Qed.

Section Row.
Variables (w r : Z) (buf : list Z).
Hypothesis Hw : 0 <= w.
Hypothesis Hr : 0 <= r.
Hypothesis Hfit : r * w + w <= Z.of_nat (length buf).
Hypothesis Hsmall : Z.of_nat (length buf) <= 2 ^ 32.

(** The row loop after [k] passes. *)
Lemma row_pass_mirror (k : nat) :
  2 * Z.of_nat k <= w ->
  let buf' := fold_left (fun b col => swap_cells b (u32 (r * w + col))
                                        (u32 (r * w + (w - 1 - col))))
                        (upto (Z.of_nat k)) buf in
  length buf' = length buf /\
  forall j, 0 <= j -> buf' !! Z.to_nat j = buf !! Z.to_nat (mirror w r (Z.of_nat k) j).
Proof.
  assert (Hrw : 0 <= r * w) by nia.
  induction k as [|k IH]; intros Hk buf'.
  - subst buf'. cbn [upto seqZ Z.of_nat Z.to_nat seq fmap list_fmap fold_left].
    split; [reflexivity|]. intros j Hj. f_equal. f_equal. unfold mirror.
    repeat match goal with
    | |- context [?a <=? ?b] => destruct (Z.leb_spec a b)
    | |- context [?a <? ?b] => destruct (Z.ltb_spec a b)
    end; cbn [andb orb]; lia.
  - destruct (IH ltac:(lia)) as [Hl Hm]. clear IH.
    subst buf'. rewrite upto_snoc, fold_left_app. cbn [fold_left].
    set (b1 := fold_left _ (upto (Z.of_nat k)) buf) in *.
    rewrite !u32_small by lia.
    split; [rewrite swap_cells_length; exact Hl|].
    intros j Hj.
    rewrite swap_cells_lookup by lia.
    destruct (Z.eqb_spec j (r * w + (w - 1 - Z.of_nat k))) as [->|Hj1];
      [|destruct (Z.eqb_spec j (r * w + Z.of_nat k)) as [->|Hj2]];
      rewrite Hm by lia; f_equal; f_equal; unfold mirror;
      repeat match goal with
      | |- context [?a <=? ?b] => destruct (Z.leb_spec a b)
      | |- context [?a <? ?b] => destruct (Z.ltb_spec a b)
      end; cbn [andb orb]; lia.
Qed.

End Row.

Section Rows.
Variables (w h : Z) (buf : list Z).
Hypothesis Hw : 0 <= w.
Hypothesis Hh : 0 <= h.
Hypothesis Hfit : w * h <= Z.of_nat (length buf).
Hypothesis Hsmall : Z.of_nat (length buf) <= 2 ^ 32.

(** The outer loop after [R] rows. *)
Lemma rows_pass_flip (R : nat) :
  Z.of_nat R <= h ->
  let buf' :=
    fold_left (fun b row =>
                 fold_left (fun b col => swap_cells b (u32 (row * w + col))
                                           (u32 (row * w + (w - 1 - col))))
                           (upto (w / 2)) b)
              (upto (Z.of_nat R)) buf in
  length buf' = length buf /\
  (forall r c, 0 <= r < Z.of_nat R -> 0 <= c < w ->
     buf' !! Z.to_nat (r * w + c) = buf !! Z.to_nat (r * w + (w - 1 - c))) /\
  (forall j, Z.of_nat R * w <= j -> buf' !! Z.to_nat j = buf !! Z.to_nat j).
Proof.
  induction R as [|R IH]; intros HR buf'.
  - subst buf'. cbn. split; [reflexivity|]. split; [lia|reflexivity].
  - destruct (IH ltac:(lia)) as (Hl & Hin & Hout). clear IH.
    subst buf'. rewrite upto_snoc, fold_left_app. cbn [fold_left].
    set (b1 := fold_left _ (upto (Z.of_nat R)) buf) in *.
    assert (Hfit1 : Z.of_nat R * w + w <= Z.of_nat (length b1)) by (rewrite Hl; nia).
    assert (Hhalf : 0 <= w / 2 /\ 2 * (w / 2) <= w < 2 * (w / 2) + 2).
    { pose proof (Z.div_mod w 2 ltac:(lia)). pose proof (Z.mod_pos_bound w 2 ltac:(lia)).
      lia. }
    assert (Hk : w / 2 = Z.of_nat (Z.to_nat (w / 2)))
      by (symmetry; apply Z2Nat.id; lia).
    rewrite Hk.
    destruct (row_pass_mirror w (Z.of_nat R) b1 Hw ltac:(lia) Hfit1
                ltac:(rewrite Hl; exact Hsmall) (Z.to_nat (w / 2)) ltac:(lia))
      as [Hl2 Hm].
    rewrite <- Hk in *.
    split; [rewrite Hl2; exact Hl|].
    assert (HRw : 0 <= Z.of_nat R * w) by nia.
    split.
    + intros r c Hr Hc.
      assert (Hrc : 0 <= r * w) by nia.
      rewrite Hm by lia.
      destruct (Z.eq_dec r (Z.of_nat R)) as [->|Hne].
      * unfold mirror.
        repeat match goal with
        | |- context [?a <=? ?b] => destruct (Z.leb_spec a b)
        | |- context [?a <? ?b] => destruct (Z.ltb_spec a b)
        end; cbn [andb orb]; try lia.
        -- rewrite Hout by lia. f_equal. f_equal. lia.
        -- rewrite Hout by lia. f_equal. f_equal. lia.
        -- rewrite Hout by lia. f_equal. f_equal. lia.
      * assert (r * w + w <= Z.of_nat R * w) by nia.
        unfold mirror.
        destruct (Z.ltb_spec (r * w + c) (Z.of_nat R * w + w));
          destruct (Z.leb_spec (Z.of_nat R * w) (r * w + c)); cbn [andb]; try lia.
        apply Hin; lia.
    + intros j Hj.
      assert (Z.of_nat (S R) * w = Z.of_nat R * w + w) by lia.
      rewrite Hm by lia. unfold mirror.
      destruct (Z.ltb_spec j (Z.of_nat R * w + w)); [lia|].
      rewrite andb_false_r. cbn [andb]. apply Hout. lia.
Qed.

End Rows.

(** X21: on a buffer holding width * height elements, [horizontal_flip]
    reverses every row in place: the element at (row, col) becomes the one
    that was at (row, width - 1 - col); the middle column of an odd width
    and the elements after the image stay, and nothing else of the machine
    changes. *)
Theorem horizontal_flip_reverses_rows (sample : ct_sample_t) (width height : Z)
    (m : machine) (buf : list Z) :
  mem m !! data sample = Some buf ->
  0 <= width -> 0 <= height ->
  width * height <= Z.of_nat (length buf) ->
  Z.of_nat (length buf) <= 2 ^ 32 ->
  let m' := snd (horizontal_flip sample width height m) in
  exists buf',
    m' = Machine (<[data sample := buf']> (mem m)) (faults m) (prf_log m)
                 (stack_junk m) /\
    length buf' = length buf /\
    (forall row col, 0 <= row < height -> 0 <= col < width ->
       buf' !! Z.to_nat (row * width + col)
       = buf !! Z.to_nat (row * width + (width - 1 - col))) /\
    (forall j, width * height <= j -> buf' !! Z.to_nat j = buf !! Z.to_nat j).
Proof.
  intros Hb Hw Hh Hfit Hsmall m'.
  set (t := fun b row =>
              fold_left (fun b col => swap_cells b (u32 (row * width + col))
                                        (u32 (row * width + (width - 1 - col))))
                        (upto (width / 2)) b).
  exists (fold_left t (upto height) buf).
  destruct (rows_pass_flip width height buf Hw Hh Hfit Hsmall (Z.to_nat height)
              ltac:(lia)) as (Hl & Hin & Hout).
  rewrite Z2Nat.id in * by lia. fold t in Hl, Hin, Hout.
  split; [|split; [exact Hl|split; [exact Hin|]]].
  - assert (Hmem : mem m' = <[data sample := fold_left t (upto height) buf]> (mem m)).
    { subst m'. unfold horizontal_flip.
      set (Tc := fun row (h : gmap nat (list Z)) (col : Z) =>
                   match h !! data sample with
                   | Some b => <[data sample := swap_cells b (u32 (row * width + col))
                                   (u32 (row * width + (width - 1 - col)))]> h
                   | None => h
                   end).
      set (Tr := fun (h : gmap nat (list Z)) (row : Z) =>
                   fold_left (Tc row) (upto (width / 2)) h).
      assert (Hsw : forall row col m0,
                 mem (snd (swap_columns sample width row col m0)) = Tc row (mem m0) col).
      { intros row col m0. subst Tc. cbv beta.
        destruct (mem m0 !! data sample) as [b|] eqn:E.
        - apply swap_columns_mem. exact E.
        - unfold swap_columns, bind, load, store. rewrite E. cbv beta iota zeta.
          rewrite E. reflexivity. }
      rewrite (for_each_mem Tr).
      - apply (fold_left_buf (data sample) Tr t); [|exact Hb].
        intros h b row Hhb. subst Tr t. cbv beta.
        apply (fold_left_buf (data sample) (Tc row)); [|exact Hhb].
        intros h' b' col Hb'. subst Tc. cbv beta. rewrite Hb'. reflexivity.
      - intros row m0. subst Tr. cbv beta. apply for_each_mem.
        intros col m1. apply Hsw. }
    assert (Hrest : faults m' = faults m /\ prf_log m' = prf_log m /\
                    stack_junk m' = stack_junk m).
    { subst m'. clear. unfold horizontal_flip. revert m.
      assert (Hsw : forall row col m0,
                 let m1 := snd (swap_columns sample width row col m0) in
                 faults m1 = faults m0 /\ prf_log m1 = prf_log m0 /\
                 stack_junk m1 = stack_junk m0).
      { intros row col m0. unfold swap_columns, bind, load, store.
        destruct (mem m0 !! data sample) as [b|] eqn:E; cbn.
        - rewrite lookup_insert_eq. cbn. auto.
        - rewrite E. cbn. auto. }
      assert (Hfe : forall {K} (l : list K) (body : K -> M unit),
                 (forall k m0, let m1 := snd (body k m0) in
                    faults m1 = faults m0 /\ prf_log m1 = prf_log m0 /\
                    stack_junk m1 = stack_junk m0) ->
                 forall m0, let m1 := snd (for_each l body m0) in
                    faults m1 = faults m0 /\ prf_log m1 = prf_log m0 /\
                    stack_junk m1 = stack_junk m0).
      { intros K l body Hbody. induction l as [|k l IH]; intros m0; [cbn; auto|].
        cbn [for_each]. unfold bind. specialize (Hbody k m0).
        destruct (body k m0) as [[] m1]. cbn [snd] in *.
        specialize (IH m1). cbn zeta in *.
        destruct Hbody as (A1 & A2 & A3), IH as (B1 & B2 & B3).
        repeat split; congruence. }
      intros m. apply Hfe. intros row m0. apply Hfe. intros col m1. apply Hsw. }
    destruct m' as [me fa lo ju]. cbn in Hmem, Hrest.
    destruct Hrest as (-> & -> & ->). rewrite Hmem. reflexivity.
  - intros j Hj. apply Hout. lia.
Qed.

(** The 1 x 2 image [10; 20] becomes [20; 10]. *)
Lemma horizontal_flip_reverses_rows_witness :
  mem (Inputs.machine0 Inputs.image_heap) !! data Inputs.image = Some [10; 20] /\
  2 * 1 <= Z.of_nat (length [10; 20]) /\
  mem (snd (horizontal_flip Inputs.image 2 1 (Inputs.machine0 Inputs.image_heap)))
    !! 1%nat = Some [20; 10].
Proof.
  assert (H1 : mem (Inputs.machine0 Inputs.image_heap) !! data Inputs.image
               = Some [10; 20]) by reflexivity.
  assert (H2 : 2 * 1 <= Z.of_nat (length [10; 20])) by (cbn; lia).
  split; [exact H1|]. split; [exact H2|].
  destruct (horizontal_flip_reverses_rows Inputs.image 2 1
              (Inputs.machine0 Inputs.image_heap) [10; 20] H1
              ltac:(lia) ltac:(lia) H2 ltac:(cbn; lia))
    as (buf' & Hm & Hl & Hin & _).
  rewrite Hm. cbn [mem Inputs.image data]. rewrite lookup_insert_eq.
  pose proof (Hin 0 0 ltac:(lia) ltac:(lia)) as E0.
  pose proof (Hin 0 1 ltac:(lia) ltac:(lia)) as E1.
  destruct buf' as [|a [|b [|c t]]]; try discriminate Hl.
  cbn in E0, E1. injection E0 as ->. injection E1 as ->. reflexivity.
Defined.


End FlipFacts.

Section CropFacts.
Import PRNG Augment.

Lemma ct_prng_uniform_run (sd ep op_id n : Z) (m : machine) :
  0 <= n < 2 ^ 32 ->
  let r := ct_prng_uniform sd ep op_id n m in
  0 <= fst r <= Z.max 0 (n - 1) /\
  fst r = fst (ct_prng_uniform sd ep op_id n (Inputs.machine0 ∅)) /\
  snd r = Machine (mem m) (faults m)
                  (prf_log m ++ uniform_calls sd ep op_id n) (stack_junk m).
Proof.
  intros Hn r. subst r. unfold ct_prng_uniform, uniform_calls.
  destruct (Z.eqb_spec n 0) as [->|H0].
  { cbn. rewrite app_nil_r. destruct m. repeat split; lia. }
  destruct (Z.eqb_spec n 1) as [->|H1].
  { cbn. rewrite app_nil_r. destruct m. repeat split; lia. }
  destruct (Z.leb_spec 2 n); [|lia].
  unfold bind. rewrite !call_ct_prng_run.
  destruct (n <=? 65536); cbn [fst snd ret].
  - split; [|split; reflexivity].
    pose proof (Z.mod_pos_bound
                  (reject_loop 4 (u32 (4294967295 / n * n)) (ct_prng sd ep op_id)
                     (u32 (Z.land (ct_prng sd ep op_id) 4294967295))) n ltac:(lia)).
    lia.
  - split; [|split; reflexivity].
    pose proof (Z.mod_pos_bound (ct_prng sd ep op_id) n ltac:(lia)).
    rewrite u32_small by lia. lia.
Qed.

Lemma fold_left_nested {A Y X} (T : A -> Y * X -> A) (lx : list X) (ly : list Y) :
  forall a,
    fold_left (fun a y => fold_left (fun a x => T a (y, x)) lx a) ly a
    = fold_left T (flat_map (fun y => map (pair y) lx) ly) a.
Proof.
  induction ly as [|y ly IH]; intros a; [reflexivity|].
  cbn [fold_left flat_map]. rewrite fold_left_app, IH. f_equal.
  clear. revert a. induction lx as [|x lx IH]; intros a; [reflexivity|].
  cbn [fold_left map]. apply IH.
Qed.

Lemma StronglySorted_app {A} (R : A -> A -> Prop) (l1 l2 : list A) :
  StronglySorted R l1 -> StronglySorted R l2 ->
  (forall a b, a ∈ l1 -> b ∈ l2 -> R a b) ->
  StronglySorted R (l1 ++ l2).
Proof.
  intros H1 H2 H. induction l1 as [|a l1 IH]; [exact H2|].
  apply StronglySorted_inv in H1 as [H1 Ha]. cbn [app]. constructor.
  - apply IH; [exact H1|]. intros x y Hx Hy. apply H; [right; exact Hx|exact Hy].
  - apply Forall_app. split; [exact Ha|].
    apply Forall_forall. intros y Hy. apply H; [left|exact Hy].
Qed.

Lemma StronglySorted_map {A B} (R : B -> B -> Prop) (g : A -> B) (l : list A) :
  StronglySorted (fun a b => R (g a) (g b)) l -> StronglySorted R (map g l).
Proof.
  induction 1 as [|a l Hl IH Ha]; cbn [map]; constructor; [exact IH|].
  apply Forall_forall. intros y Hy. apply list_elem_of_In, in_map_iff in Hy as (x & <- & Hx).
  rewrite Forall_forall in Ha. apply Ha. apply list_elem_of_In. exact Hx.
Qed.

Lemma elem_of_window (cw : Z) (ly : list Z) (y x : Z) :
  (y, x) ∈ flat_map (fun y => map (pair y) (upto cw)) ly <->
  y ∈ ly /\ 0 <= x < cw.
Proof.
  rewrite list_elem_of_In, in_flat_map. split.
  - intros (y' & Hy' & Hin). apply in_map_iff in Hin as (x' & E & Hx').
    injection E as -> ->. split; [apply list_elem_of_In; exact Hy'|].
    apply list_elem_of_In, elem_of_seqZ in Hx'. lia.
  - intros [Hy Hx]. exists y. split; [apply list_elem_of_In; exact Hy|].
    apply in_map_iff. exists x. split; [reflexivity|].
    apply list_elem_of_In, elem_of_seqZ. lia.
Qed.

Lemma seqZ_increasing (c a n : Z) :
  StronglySorted (fun x y => c + x < c + y) (seqZ a n).
Proof.
  destruct (Z.le_gt_cases n 0) as [Hn|Hn].
  - rewrite seqZ_nil by lia. constructor.
  - rewrite <- (Z2Nat.id n) by lia. generalize (Z.to_nat n) as k. clear n Hn.
    intros k. revert a. induction k as [|k IH]; intros a.
    + rewrite seqZ_nil by lia. constructor.
    + rewrite seqZ_cons by lia. constructor.
      * replace (Z.pred (Z.of_nat (S k))) with (Z.of_nat k) by lia. apply IH.
      * apply Forall_forall. intros x Hx. apply elem_of_seqZ in Hx. lia.
Qed.

(** The destination indices of the copy loop increase along the loop. *)
Lemma window_sorted (cw : Z) (R : nat) :
  0 <= cw ->
  StronglySorted (fun a b => fst a * cw + snd a < fst b * cw + snd b)
                 (flat_map (fun y => map (pair y) (upto cw)) (upto (Z.of_nat R))).
Proof.
  intros Hcw. induction R as [|R IH]; [constructor|].
  rewrite upto_snoc, flat_map_app. cbn [flat_map]. rewrite app_nil_r.
  apply StronglySorted_app; [exact IH| |].
  - apply StronglySorted_map. cbn [fst snd]. apply seqZ_increasing.
  - intros [y x] [y' x'] Ha Hb. cbn [fst snd].
    apply elem_of_window in Ha as [Hy Hx]. apply elem_of_seqZ in Hy.
    apply list_elem_of_In, in_map_iff in Hb as (x2 & E & Hx2). injection E as <- <-.
    apply list_elem_of_In, elem_of_seqZ in Hx2. nia.
Qed.

Lemma copy_pixel_mem (input output : ct_sample_t)
    (src_width crop_width crop_x crop_y y x : Z) (m : machine) :
  mem (snd (copy_pixel input output src_width crop_width crop_x crop_y y x m))
  = gather_step (data input) (data output)
      (fun k => Z.to_nat (u32 ((crop_y + fst k) * src_width + (crop_x + snd k))))
      (fun k => Z.to_nat (u32 (fst k * crop_width + snd k)))
      (fun _ v => v) (mem m) (y, x).
Proof.
  unfold copy_pixel, bind, gather_step. rewrite load_rd, store_wr. reflexivity.
Qed.

Lemma copy_pixel_frame (input output : ct_sample_t)
    (src_width crop_width crop_x crop_y y x : Z) (m : machine) :
  let m' := snd (copy_pixel input output src_width crop_width crop_x crop_y y x m) in
  faults m' = faults m /\ prf_log m' = prf_log m /\ stack_junk m' = stack_junk m.
Proof.
  unfold copy_pixel, bind, load, store.
  destruct (mem m !! data output); cbn; auto.
Qed.

Lemma for_each_frame {K} (l : list K) (body : K -> M unit) :
  (forall k m0, let m1 := snd (body k m0) in
     faults m1 = faults m0 /\ prf_log m1 = prf_log m0 /\
     stack_junk m1 = stack_junk m0) ->
  forall m0, let m1 := snd (for_each l body m0) in
     faults m1 = faults m0 /\ prf_log m1 = prf_log m0 /\
     stack_junk m1 = stack_junk m0.
Proof.
  intros Hbody. induction l as [|k l IH]; intros m0; [cbn; auto|].
  cbn [for_each]. unfold bind. specialize (Hbody k m0).
  destruct (body k m0) as [[] m1]. cbn [snd] in *.
  specialize (IH m1). cbn zeta in *.
  destruct Hbody as (A1 & A2 & A3), IH as (B1 & B2 & B3).
  repeat split; congruence.
Qed.

(** X22: [random_crop] with a window that fits the source: the offsets
    drawn lie in [0, src_width - crop_width] and [0, src_height -
    crop_height]; a dimension in which the window fills the source draws
    nothing; element (y, x) of the output becomes the source element at
    (crop_y + y, crop_x + x) as it was on entry, also when input and output
    share their buffer, as they do in [ct_augment_sample]; the output
    dimensions become crop_height x crop_width, and elements beyond the
    window stay. *)
Theorem random_crop_copies_window (input output : ct_sample_t)
    (src_width src_height crop_width crop_height sd ep sample_idx : Z)
    (m : machine) (xs ys : list Z) :
  mem m !! data input = Some xs ->
  mem m !! data output = Some ys ->
  0 < crop_width <= src_width ->
  0 < crop_height <= src_height ->
  src_width * src_height <= Z.of_nat (length xs) ->
  crop_width * crop_height <= Z.of_nat (length ys) ->
  Z.of_nat (length xs) < 2 ^ 32 ->
  let r := random_crop_fn input output src_width src_height crop_width crop_height
                          sd ep sample_idx m in
  let nx := src_width - crop_width + 1 in
  let ny := src_height - crop_height + 1 in
  let crop_x := fst (ct_prng_uniform sd ep (crop_x_op sample_idx) nx
                                     (Inputs.machine0 ∅)) in
  let crop_y := fst (ct_prng_uniform sd ep (crop_y_op sample_idx) ny
                                     (Inputs.machine0 ∅)) in
  0 <= crop_x <= src_width - crop_width /\
  0 <= crop_y <= src_height - crop_height /\
  fst r = Sample (version output) (dtype output) (ndims output)
                 (<[1%nat := crop_width]> (<[0%nat := crop_height]> (dims output)))
                 (crop_width * crop_height) (data output) /\
  exists ys',
    snd r = Machine (<[data output := ys']> (mem m)) (faults m)
              (prf_log m ++ uniform_calls sd ep (crop_x_op sample_idx) nx
                         ++ uniform_calls sd ep (crop_y_op sample_idx) ny)
              (stack_junk m) /\
    length ys' = length ys /\
    (forall y x, 0 <= y < crop_height -> 0 <= x < crop_width ->
       ys' !! Z.to_nat (y * crop_width + x)
       = xs !! Z.to_nat ((crop_y + y) * src_width + (crop_x + x))) /\
    (forall j, crop_width * crop_height <= j -> ys' !! Z.to_nat j = ys !! Z.to_nat j).
Proof.
  intros Hs Hd Hcw Hch Hsrc Hdst Hsmall r nx ny crop_x crop_y.
  assert (HWH : src_width <= src_width * src_height) by nia.
  assert (HHW : src_height <= src_width * src_height) by nia.
  assert (Hcc : crop_width * crop_height <= src_width * src_height) by nia.
  assert (Hnx : u32 (u32 (src_width - crop_width) + 1) = nx).
  { subst nx. rewrite (u32_small (src_width - crop_width)) by lia.
    apply u32_small. lia. }
  assert (Hny : u32 (u32 (src_height - crop_height) + 1) = ny).
  { subst ny. rewrite (u32_small (src_height - crop_height)) by lia.
    apply u32_small. lia. }
  destruct (ct_prng_uniform_run sd ep (crop_x_op sample_idx) nx m ltac:(lia))
    as (Hx1 & Hx2 & Hx3).
  fold crop_x in Hx2.
  set (m1 := Machine (mem m) (faults m)
               (prf_log m ++ uniform_calls sd ep (crop_x_op sample_idx) nx)
               (stack_junk m)) in *.
  destruct (ct_prng_uniform_run sd ep (crop_y_op sample_idx) ny m1 ltac:(lia))
    as (Hy1 & Hy2 & Hy3).
  fold crop_y in Hy2.
  rewrite Hx2 in Hx1. rewrite Hy2 in Hy1.
  split; [lia|]. split; [lia|].
  set (body := fun y => for_each (upto crop_width) (fun x =>
                 copy_pixel input output src_width crop_width crop_x crop_y y x)).
  set (out := Sample (version output) (dtype output) (ndims output)
                (<[1%nat := crop_width]> (<[0%nat := crop_height]> (dims output)))
                (crop_width * crop_height) (data output)).
  set (m2 := Machine (mem m) (faults m)
               (prf_log m ++ uniform_calls sd ep (crop_x_op sample_idx) nx
                          ++ uniform_calls sd ep (crop_y_op sample_idx) ny)
               (stack_junk m)).
  assert (Hr : r = (out, snd (for_each (upto crop_height) body m2))).
  { subst r. unfold random_crop_fn. fold (crop_x_op sample_idx) (crop_y_op sample_idx).
    rewrite Hnx, Hny. unfold bind at 1.
    destruct (ct_prng_uniform sd ep (crop_x_op sample_idx) nx m) as [cx m1'].
    cbn [fst snd] in Hx2, Hx3. subst cx m1'. unfold bind at 1.
    destruct (ct_prng_uniform sd ep (crop_y_op sample_idx) ny m1) as [cy m2'].
    cbn [fst snd] in Hy2, Hy3. subst cy m2'.
    replace (Machine (mem m1) (faults m1)
               (prf_log m1 ++ uniform_calls sd ep (crop_y_op sample_idx) ny)
               (stack_junk m1)) with m2
      by (subst m1 m2; cbn; rewrite app_assoc; reflexivity).
    unfold bind, ret. fold body.
    destruct (for_each (upto crop_height) body m2) as [[] m3]. cbn [snd].
    subst out. rewrite (u32_small (crop_width * crop_height)) by nia. reflexivity. }
  rewrite Hr. cbn [fst snd]. split; [reflexivity|].
  set (s := fun k : Z * Z =>
              Z.to_nat (u32 ((crop_y + fst k) * src_width + (crop_x + snd k)))).
  set (d := fun k : Z * Z => Z.to_nat (u32 (fst k * crop_width + snd k))).
  set (T := gather_step (data input) (data output) s d (fun _ v => v)).
  set (ks := flat_map (fun y => map (pair y) (upto crop_width)) (upto crop_height)).
  assert (Hmem : mem (snd (for_each (upto crop_height) body m2)) = fold_left T ks (mem m)).
  { rewrite (for_each_mem (fun h y => fold_left (fun h x => T h (y, x))
                                        (upto crop_width) h)).
    - subst ks. apply fold_left_nested.
    - intros y m0. subst body. cbv beta.
      apply (for_each_mem (fun h x => T h (y, x))).
      intros x m3. apply copy_pixel_mem. }
  assert (Hfr : let m3 := snd (for_each (upto crop_height) body m2) in
                faults m3 = faults m2 /\ prf_log m3 = prf_log m2 /\
                stack_junk m3 = stack_junk m2).
  { apply for_each_frame. intros y m0. subst body. cbv beta.
    apply for_each_frame. intros x m3. apply copy_pixel_frame. }
  assert (Hdk : forall y x, 0 <= y < crop_height -> 0 <= x < crop_width ->
                 0 <= y * crop_width + x < crop_width * crop_height) by (intros; nia).
  assert (Hsk : forall y x, 0 <= y < crop_height -> 0 <= x < crop_width ->
                 y * crop_width + x <= (crop_y + y) * src_width + (crop_x + x)
                 /\ (crop_y + y) * src_width + (crop_x + x) < src_width * src_height).
  { intros y x Hy Hx. split; nia. }
  assert (Hks : forall k, k ∈ ks <-> 0 <= fst k < crop_height /\ 0 <= snd k < crop_width).
  { intros [y x]. subst ks. rewrite elem_of_window. unfold upto.
    rewrite elem_of_seqZ. cbn [fst snd]. lia. }
  destruct (gather_fold (data input) (data output) s d (fun _ v => v) ks
              (mem m) xs ys Hs Hd) as (ys' & Hf & Hl & Hin & Hout).
  { assert (Hsorted := window_sorted crop_width (Z.to_nat crop_height) ltac:(lia)).
    rewrite Z2Nat.id in Hsorted by lia. fold ks in Hsorted.
    assert (Hks' : forall k, k ∈ ks ->
                     0 <= fst k < crop_height /\ 0 <= snd k < crop_width)
      by (intros k Hk; apply Hks; exact Hk).
    clear - Hsorted Hks' Hdk Hdst Hsmall Hsrc Hcc.
    induction Hsorted as [|a l Hl IH Ha]; constructor.
    - apply IH. intros k Hk. apply Hks'. right. exact Hk.
    - rewrite Forall_forall in Ha. apply Forall_forall. intros b Hb.
      specialize (Ha b Hb). subst d. cbv beta.
      destruct (Hks' a ltac:(left)) as [A1 A2].
      destruct (Hks' b ltac:(right; exact Hb)) as [B1 B2].
      pose proof (Hdk _ _ A1 A2). pose proof (Hdk _ _ B1 B2).
      rewrite !u32_small by lia. lia. }
  { intros _. apply Forall_forall. intros k Hk. apply Hks in Hk as [K1 K2].
    subst s d. cbv beta. pose proof (Hdk _ _ K1 K2). pose proof (Hsk _ _ K1 K2).
    rewrite !u32_small by lia. lia. }
  exists ys'.
  split.
  - destruct (snd (for_each (upto crop_height) body m2)) as [me fa lo ju].
    cbn in Hmem, Hfr. destruct Hfr as (-> & -> & ->). rewrite Hmem. subst T.
    rewrite Hf. reflexivity.
  - split; [exact Hl|]. split.
    + intros y x Hy Hx.
      pose proof (Hdk _ _ Hy Hx). pose proof (Hsk _ _ Hy Hx).
      specialize (Hin (y, x) ltac:(apply Hks; cbn; lia)).
      subst s d. cbn [fst snd] in Hin. rewrite !u32_small in Hin by lia.
      rewrite Hin by lia.
      destruct (lookup_lt_is_Some_2 xs
                  (Z.to_nat ((crop_y + y) * src_width + (crop_x + x))) ltac:(lia))
        as [v Hv].
      rewrite Hv. reflexivity.
    + intros j Hj. apply Hout. intros [y x] Hk. apply Hks in Hk as [K1 K2].
      subst d. cbn [fst snd] in *. pose proof (Hdk _ _ K1 K2).
      rewrite u32_small by lia. lia.
Qed.

(** A 1 x 1 window of the 1 x 2 image, cropped in place. *)
Lemma random_crop_copies_window_witness :
  mem (Inputs.machine0 Inputs.image_heap) !! data Inputs.image = Some [10; 20] /\
  0 < 1 <= 2 /\ 2 * 1 <= Z.of_nat (length [10; 20]) /\
  fst (random_crop_fn Inputs.image Inputs.image 2 1 1 1 4 0 0
         (Inputs.machine0 Inputs.image_heap))
  = Sample (version Inputs.image) (dtype Inputs.image) (ndims Inputs.image)
           (<[1%nat := 1]> (<[0%nat := 1]> (dims Inputs.image)))
           (1 * 1) (data Inputs.image).
Proof.
  assert (H1 : mem (Inputs.machine0 Inputs.image_heap) !! data Inputs.image
               = Some [10; 20]) by reflexivity.
  assert (H2 : 0 < 1 <= 2) by lia.
  assert (H3 : 2 * 1 <= Z.of_nat (length [10; 20])) by (cbn; lia).
  split; [exact H1|]. split; [exact H2|]. split; [exact H3|].
  exact (proj1 (proj2 (proj2
           (random_crop_copies_window Inputs.image Inputs.image 2 1 1 1 4 0 0
              (Inputs.machine0 Inputs.image_heap) [10; 20] [10; 20]
              H1 H1 H2 ltac:(lia) H3 ltac:(cbn; lia) ltac:(cbn; lia))))).
Defined.


End CropFacts.

Section Runs.

Lemma runs_ret {A} (x : A) : runs (ret x) (fun h => (x, h)) [].
Proof.
  intros m. cbn. rewrite app_nil_r. runs_split; try reflexivity. apply faults_le_refl.
Qed.

Lemma runs_bind {A B} (c : M A) (k : A -> M B) F G L1 L2 :
  runs c F L1 -> (forall a, runs (k a) (G a) L2) ->
  runs (bind c k) (fun h => G (fst (F h)) (snd (F h))) (L1 ++ L2).
Proof.
  intros Hc Hk m. unfold bind. specialize (Hc m).
  destruct (c m) as [a m1]. cbn [fst snd] in Hc.
  destruct Hc as (C1 & C2 & C3 & C4 & C5). subst a.
  destruct (Hk (fst (F (mem m))) m1) as (K1 & K2 & K3 & K4 & K5).
  rewrite K1, K2, K3, K4, C2, C3, C4, app_assoc.
  runs_split; try reflexivity. eapply faults_le_trans; eassumption.
Qed.

Lemma runs_ext {A} (c : M A) F F' L L' :
  (forall h, F h = F' h) -> L = L' -> runs c F L -> runs c F' L'.
Proof. intros HF <- Hc m. rewrite <- HF. apply Hc. Qed.

Lemma runs_only_raises {A} (c : M A) (v : A) :
  only_raises c -> (forall m, fst (c m) = v) -> runs c (fun h => (v, h)) [].
Proof.
  intros Hc Hv m. destruct (Hc m) as (H1 & H2 & H3 & H4).
  cbn [fst snd]. rewrite app_nil_r. runs_split; auto.
Qed.

Lemma runs_call (sd ep op_id : Z) :
  runs (PRNG.call_ct_prng sd ep op_id) (fun h => (PRNG.ct_prng sd ep op_id, h))
       [(sd, ep, op_id)].
Proof. intros m. cbn. runs_split; try reflexivity. apply faults_le_refl. Qed.

Lemma runs_load (p : nat) (i : Z) :
  runs (load p i) (fun h => (rd h p (Z.to_nat i), h)) [].
Proof.
  intros m. cbn. rewrite app_nil_r. runs_split; try reflexivity. apply faults_le_refl.
Qed.

Lemma runs_store (p : nat) (i v : Z) :
  runs (store p i v) (fun h => (tt, wr h p (Z.to_nat i) v)) [].
Proof.
  intros m. unfold store, wr. destruct (mem m !! p); cbn; rewrite app_nil_r;
    (runs_split; try reflexivity; apply faults_le_refl).
Qed.

Lemma runs_bind_pure {A B} (c : M A) (v : A) (k : A -> M B) H L1 L :
  runs c (fun h => (v, h)) L1 -> runs (k v) H L -> runs (bind c k) H (L1 ++ L).
Proof.
  intros Hc Hk m. unfold bind. specialize (Hc m).
  destruct (c m) as [a m1]. cbn [fst snd] in Hc.
  destruct Hc as (C1 & C2 & C3 & C4 & C5). subst a.
  destruct (Hk m1) as (K1 & K2 & K3 & K4 & K5).
  rewrite K1, K2, K3, K4, C2, C3, C4, app_assoc.
  runs_split; try reflexivity. eapply faults_le_trans; eassumption.
Qed.

Lemma runs_bind_load {B} (p : nat) (i : Z) (k : Z -> M B) G L :
  (forall x, runs (k x) (G x) L) ->
  runs (bind (load p i) k) (fun h => G (rd h p (Z.to_nat i)) h) L.
Proof. intros Hk m. unfold bind. rewrite load_rd. apply Hk. Qed.

Lemma runs_bind_store {B} (p : nat) (i v : Z) (k : unit -> M B) H L :
  runs (k tt) H L ->
  runs (bind (store p i v) k) (fun h => H (wr h p (Z.to_nat i) v)) L.
Proof.
  intros Hk m. unfold bind. pose proof (runs_store p i v m) as Hs.
  destruct (store p i v m) as [[] m1]. cbn [fst snd] in Hs.
  destruct Hs as (_ & C2 & C3 & C4 & C5). rewrite app_nil_r in C3.
  destruct (Hk m1) as (K1 & K2 & K3 & K4 & K5).
  rewrite K1, K2, K3, K4, C2, C3, C4.
  runs_split; try reflexivity. eapply faults_le_trans; eassumption.
Qed.

Lemma runs_for_each {K} (l : list K) (body : K -> M unit) T L :
  (forall k, runs (body k) (fun h => (tt, T h k)) (L k)) ->
  runs (for_each l body) (fun h => (tt, fold_left T l h)) (flat_map L l).
Proof.
  intros Hb. induction l as [|k l IH].
  - apply runs_ret.
  - cbn [for_each fold_left flat_map].
    eapply runs_ext; [| |apply (runs_bind _ _ _ _ _ _ (Hb k) (fun _ => IH))];
      reflexivity.
Qed.

End Runs.

Section NoiseFacts.
Import DVM PRNG Augment.

Lemma dvm_add32_value (a b : Z) (m : machine) :
  fst (dvm_add32 a b m) = Spec.clamp_range (a + b).
Proof. apply dvm_clamp32_value. Qed.

Lemma dvm_sub32_value (a b : Z) (m : machine) :
  fst (dvm_sub32 a b m) = Spec.clamp_range (a - b).
Proof. apply dvm_clamp32_value. Qed.

Lemma runs_sub32 (a b : Z) :
  runs (dvm_sub32 a b) (fun h => (Spec.clamp_range (a - b), h)) [].
Proof.
  apply runs_only_raises; [apply only_raises_sub32|intros; apply dvm_sub32_value].
Qed.

Lemma runs_add32 (a b : Z) :
  runs (dvm_add32 a b) (fun h => (Spec.clamp_range (a + b), h)) [].
Proof.
  apply runs_only_raises; [apply only_raises_add32|intros; apply dvm_add32_value].
Qed.

Lemma runs_mul_q16 (a b : Z) :
  runs (dvm_mul_q16 a b) (fun h => (fst (dvm_mul_q16 a b (Inputs.machine0 ∅)), h)) [].
Proof.
  apply runs_only_raises; [apply only_raises_mul_q16|].
  intros. apply dvm_mul_q16_any_machine.
Qed.

Lemma noise_pair_runs (sample : ct_sample_t) (noise_std sd ep sample_idx i : Z) :
  runs (noise_pair sample noise_std sd ep sample_idx i)
       (fun h => (tt, noise_step (data sample) (total_elements sample)
                                 noise_std sd ep sample_idx h i))
       [(sd, ep, noise_op sample_idx i); (sd, ep, noise_op sample_idx (i + 1))].
Proof.
  unfold noise_pair, noise_step, gather_step, noise_value, noise_u_fixed, noise_op.
  replace (4096 + i + 1) with (4096 + (i + 1)) by lia.
  set (op1 := Z.lor (u32 (Z.shiftl sample_idx 16)) (u32 (4096 + i))).
  set (op2 := Z.lor (u32 (Z.shiftl sample_idx 16)) (u32 (4096 + (i + 1)))).
  set (u1 := ct_prng sd ep op1). set (u2 := ct_prng sd ep op2).
  set (c1 := Spec.clamp_range (i32 (Z.land (Z.shiftr u1 32) 4294901760) - FIXED_HALF)).
  set (c2 := Spec.clamp_range (i32 (Z.land (Z.shiftr u2 32) 4294901760) - FIXED_HALF)).
  set (n1 := fst (dvm_mul_q16 noise_std c1 (Inputs.machine0 ∅))).
  set (n2 := fst (dvm_mul_q16 noise_std c2 (Inputs.machine0 ∅))).
  set (Tail := fun h : gmap nat (list Z) =>
      if u32 (i + 1) <? total_elements sample
      then (tt, wr h (data sample) (Z.to_nat (i + 1))
                  (Spec.clamp_range (rd h (data sample) (Z.to_nat (i + 1))
                     + Spec.clamp_range (n2 + n2))))
      else (tt, h)).
  eapply runs_ext; cycle 2.
  - eapply (runs_bind_pure _ u1 _ _ _ _ (runs_call sd ep op1)).
    eapply (runs_bind_pure _ u2 _ _ _ _ (runs_call sd ep op2)).
    eapply (runs_bind_pure _ c1 _ _ _ _ (runs_sub32 _ _)).
    eapply (runs_bind_pure _ n1 _ _ _ _ (runs_mul_q16 _ _)).
    eapply (runs_bind_pure _ _ _ _ _ _ (runs_add32 n1 n1)).
    eapply (runs_bind_pure _ c2 _ _ _ _ (runs_sub32 _ _)).
    eapply (runs_bind_pure _ n2 _ _ _ _ (runs_mul_q16 _ _)).
    eapply (runs_bind_pure _ _ _ _ _ _ (runs_add32 n2 n2)).
    eapply (runs_bind_load _ _ _
             (fun d0 h => Tail (wr h (data sample) (Z.to_nat i)
                (Spec.clamp_range (d0 + Spec.clamp_range (n1 + n1)))))).
    intros d0.
    eapply (runs_bind_pure _ _ _ _ _ _ (runs_add32 d0 (Spec.clamp_range (n1 + n1)))).
    eapply (runs_bind_store _ _ _ _ Tail).
    subst Tail. cbv beta.
    destruct (u32 (i + 1) <? total_elements sample).
    + eapply (runs_bind_load _ _ _
               (fun e0 h => (tt, wr h (data sample) (Z.to_nat (i + 1))
                  (Spec.clamp_range (e0 + Spec.clamp_range (n2 + n2)))))).
      intros e0.
      eapply runs_ext; cycle 2.
      * eapply (runs_bind_pure _ _ _ _ _ _ (runs_add32 e0 (Spec.clamp_range (n2 + n2)))).
        apply runs_store.
      * intros h. reflexivity.
      * reflexivity.
    + apply runs_ret.
  - intros h. subst Tail. cbv beta. unfold wr, rd.
    destruct (u32 (i + 1) <? total_elements sample); reflexivity.
  - reflexivity.
Qed.


Lemma seqZ_one (a : Z) : seqZ a 1 = [a].
Proof. rewrite seqZ_cons, seqZ_nil by lia. reflexivity. Qed.

Lemma seqZ_two (a : Z) : seqZ a 2 = [a; a + 1].
Proof.
  rewrite seqZ_cons by lia. change (Z.pred 2) with 1. rewrite seqZ_one.
  reflexivity.
Qed.

Lemma noise_fold (p : nat) (total noise_std sd ep sample_idx : Z)
    (h : gmap nat (list Z)) :
  0 <= total < 2 ^ 32 ->
  fold_left (noise_step p total noise_std sd ep sample_idx)
            (map (fun j => 2 * j) (upto ((total + 1) / 2))) h
  = fold_left (gather_step p p Z.to_nat Z.to_nat
                 (fun e x => Spec.clamp_range
                               (x + noise_value noise_std sd ep sample_idx e)))
              (seqZ 0 total) h.
Proof.
  intros Ht.
  set (G := gather_step p p Z.to_nat Z.to_nat
              (fun e x => Spec.clamp_range
                            (x + noise_value noise_std sd ep sample_idx e))).
  assert (Hk : forall k : nat, 2 * Z.of_nat k <= total + 1 ->
            fold_left (noise_step p total noise_std sd ep sample_idx)
                      (map (fun j => 2 * j) (upto (Z.of_nat k))) h
            = fold_left G (seqZ 0 (Z.min (2 * Z.of_nat k) total)) h).
  { induction k as [|k IH]; intros Hle.
    { change (2 * Z.of_nat 0) with 0. rewrite Z.min_l by lia. reflexivity. }
    rewrite upto_snoc, map_app, fold_left_app, IH by lia. cbn [map fold_left].
    unfold noise_step at 1. fold G. cbv zeta.
    rewrite u32_small by lia.
    rewrite (Z.min_l (2 * Z.of_nat k)) by lia.
    destruct (Z.ltb_spec (2 * Z.of_nat k + 1) total) as [Hlt|Hge].
    - rewrite Z.min_l by lia.
      replace (2 * Z.of_nat (S k)) with (2 * Z.of_nat k + 2) by lia.
      rewrite seqZ_app by lia. rewrite fold_left_app.
      rewrite Z.add_0_l, seqZ_two. reflexivity.
    - rewrite Z.min_r by lia.
      replace (seqZ 0 total) with (seqZ 0 (2 * Z.of_nat k + 1)) by (f_equal; lia).
      rewrite seqZ_app by lia. rewrite fold_left_app.
      rewrite Z.add_0_l, seqZ_one. reflexivity. }
  assert (Hhalf : 0 <= (total + 1) / 2 /\
                  2 * ((total + 1) / 2) <= total + 1 < 2 * ((total + 1) / 2) + 2).
  { pose proof (Z.div_mod (total + 1) 2 ltac:(lia)).
    pose proof (Z.mod_pos_bound (total + 1) 2 ltac:(lia)). lia. }
  specialize (Hk (Z.to_nat ((total + 1) / 2))).
  rewrite Z2Nat.id in Hk by lia. rewrite Hk by lia.
  rewrite Z.min_r by lia. reflexivity.
Qed.

Lemma noise_calls (sd ep sample_idx : Z) (k : nat) :
  flat_map (fun i => [(sd, ep, noise_op sample_idx i);
                      (sd, ep, noise_op sample_idx (i + 1))])
           (map (fun j => 2 * j) (upto (Z.of_nat k)))
  = map (fun e => (sd, ep, noise_op sample_idx e)) (seqZ 0 (2 * Z.of_nat k)).
Proof.
  induction k as [|k IH]; [reflexivity|].
  rewrite upto_snoc, map_app, flat_map_app, IH. cbn [map flat_map app].
  replace (2 * Z.of_nat (S k)) with (2 * Z.of_nat k + 2) by lia.
  rewrite seqZ_app by lia. rewrite map_app. f_equal.
  rewrite Z.add_0_l, seqZ_two. reflexivity.
Qed.

(** X23: for a total_elements below 2^32 - 1 (so that the loop counter,
    which advances by two, cannot wrap) the noise loop adds to every
    element e < total_elements the noise value of e, saturating, in place; it makes one PRF call per
    element, in index order, with op_id (sample_idx << 16) | (0x1000 + e),
    and for an odd total_elements one more call, whose value is not used;
    elements from total_elements on and the scratch memory are untouched
    and no fault flag is cleared. *)
Theorem gaussian_noise_adds (sample : ct_sample_t) (noise_std sd ep sample_idx : Z)
    (m : machine) (buf : list Z) :
  mem m !! data sample = Some buf ->
  0 <= total_elements sample <= Z.of_nat (length buf) ->
  total_elements sample < 2 ^ 32 - 1 ->
  let m' := snd (gaussian_noise_fn sample noise_std sd ep sample_idx m) in
  (exists buf',
     mem m' = <[data sample := buf']> (mem m) /\
     length buf' = length buf /\
     (forall e, 0 <= e < total_elements sample ->
        buf' !! Z.to_nat e
        = Some (Spec.clamp_range (default 0 (buf !! Z.to_nat e)
                                  + noise_value noise_std sd ep sample_idx e))) /\
     (forall j, total_elements sample <= j -> buf' !! Z.to_nat j = buf !! Z.to_nat j)) /\
  prf_log m'
  = prf_log m ++ map (fun e => (sd, ep, noise_op sample_idx e))
                     (seqZ 0 (2 * ((total_elements sample + 1) / 2))) /\
  stack_junk m' = stack_junk m /\
  faults_le (faults m) (faults m').
Proof.
  intros Hb Ht Hsmall m'.
  set (total := total_elements sample) in *.
  assert (Hhalf : 0 <= (total + 1) / 2).
  { apply Z.div_pos; lia. }
  pose proof (runs_for_each (map (fun j => 2 * j) (upto ((total + 1) / 2)))
                (noise_pair sample noise_std sd ep sample_idx) _ _
                (noise_pair_runs sample noise_std sd ep sample_idx) m)
    as (_ & Hmem & Hlog & Hjunk & Hfl).
  fold total in Hmem. cbn [snd] in Hmem.
  change (for_each _ _ m) with (gaussian_noise_fn sample noise_std sd ep sample_idx m)
    in Hmem, Hlog, Hjunk, Hfl.
  fold m' in Hmem, Hlog, Hjunk, Hfl.
  split; [|split; [|split; [exact Hjunk|exact Hfl]]].
  - rewrite noise_fold in Hmem by lia.
    destruct (gather_fold (data sample) (data sample) Z.to_nat Z.to_nat
                (fun e x => Spec.clamp_range
                              (x + noise_value noise_std sd ep sample_idx e))
                (seqZ 0 total) (mem m) buf buf Hb Hb (seqZ_sorted 0 total ltac:(lia)))
      as (buf' & Hf & Hl & Hin & Hout).
    { intros _. apply Forall_forall. intros k _. apply Nat.le_refl. }
    exists buf'. split; [rewrite Hmem; exact Hf|]. split; [exact Hl|]. split.
    + intros e He. apply Hin; [apply elem_of_seqZ; lia|lia].
    + intros j Hj. apply Hout. intros k Hk. apply elem_of_seqZ in Hk. lia.
  - rewrite Hlog. f_equal.
    rewrite <- (Z2Nat.id ((total + 1) / 2)) by lia. apply noise_calls.
Qed.

Lemma gaussian_noise_adds_witness :
  mem (Inputs.machine0 Inputs.image_heap) !! data Inputs.image = Some [10; 20] /\
  0 <= total_elements Inputs.image <= Z.of_nat (length [10; 20]) /\
  total_elements Inputs.image < 2 ^ 32 - 1 /\
  prf_log (snd (gaussian_noise_fn Inputs.image FIXED_ONE 4 0 0
                  (Inputs.machine0 Inputs.image_heap)))
  = prf_log (Inputs.machine0 Inputs.image_heap)
    ++ map (fun e => (4, 0, noise_op 0 e))
           (seqZ 0 (2 * ((total_elements Inputs.image + 1) / 2))).
Proof.
  assert (H1 : mem (Inputs.machine0 Inputs.image_heap) !! data Inputs.image
               = Some [10; 20]) by reflexivity.
  assert (H2 : 0 <= total_elements Inputs.image <= Z.of_nat (length [10; 20]))
    by (cbn; lia).
  assert (H3 : total_elements Inputs.image < 2 ^ 32 - 1) by (cbn; lia).
  split; [exact H1|]. split; [exact H2|]. split; [exact H3|].
  exact (proj1 (proj2
           (gaussian_noise_adds Inputs.image FIXED_ONE 4 0 0
              (Inputs.machine0 Inputs.image_heap) [10; 20] H1 H2 H3))).
Defined.


End NoiseFacts.

Section NoiseValue.
Import DVM PRNG.

Lemma land_high16 (v : Z) :
  0 <= v < 2 ^ 32 -> Z.land v 0xFFFF0000 = (v / 65536) * 65536.
Proof.
  intros Hv.
  change 65536 with (2 ^ 16).
  rewrite <- Z.shiftr_div_pow2, <- Z.shiftl_mul_pow2 by lia.
  apply Z.bits_inj'. intros n Hn.
  rewrite Z.land_spec.
  change 0xFFFF0000 with (Z.shiftl (Z.ones 16) 16).
  destruct (Z.lt_ge_cases n 16) as [Hlt|Hge].
  - rewrite !Z.shiftl_spec_low by lia. apply andb_false_r.
  - rewrite !Z.shiftl_spec_high by lia. rewrite Z.shiftr_spec by lia.
    replace (n - 16 + 16) with n by lia.
    destruct (Z.lt_ge_cases n 32) as [Hlt|Hge32].
    + rewrite Z.ones_spec_low by lia. apply andb_true_r.
    + rewrite Z.ones_spec_high by lia. rewrite andb_false_r.
      rewrite <- (Z.mod_small v (2 ^ 32)) by lia.
      symmetry. apply Z.mod_pow2_bits_high. lia.
Qed.

(** The pattern the noise loop reads as a number of [0, 1) in Q16.16 is a
    whole number of units: its sixteen fraction bits are zero. *)
Lemma noise_u_fixed_whole (sd ep sample_idx e : Z) :
  exists U, -32768 <= U <= 32767 /\ noise_u_fixed sd ep sample_idx e = U * 65536.
Proof.
  unfold noise_u_fixed.
  set (u := ct_prng sd ep (noise_op sample_idx e)).
  assert (Hu : 0 <= u < 2 ^ 64) by (subst u; unfold ct_prng; apply splitmix64_range).
  assert (Hv : 0 <= Z.shiftr u 32 < 2 ^ 32).
  { rewrite Z.shiftr_div_pow2 by lia. split.
    - apply Z.div_pos; lia.
    - apply Z.div_lt_upper_bound; lia. }
  rewrite (land_high16 _ Hv).
  set (U' := Z.shiftr u 32 / 65536).
  assert (HU' : 0 <= U' < 65536).
  { subst U'. split; [apply Z.div_pos; lia|apply Z.div_lt_upper_bound; lia]. }
  unfold i32. rewrite Z.mod_small by lia.
  destruct (Z.ltb_spec (U' * 65536) (2 ^ 31)).
  - exists U'. lia.
  - exists (U' - 65536). lia.
Qed.

Lemma dvm_mul_q16_whole (a y : Z) (b : Z) (m : machine) :
  a * b = y * 65536 -> is_int32 y -> fst (dvm_mul_q16 a b m) = y.
Proof.
  intros Hp Hy. unfold dvm_mul_q16, dvm_mul64. rewrite Hp, rne16_exact.
  rewrite dvm_clamp32_exact by exact Hy. reflexivity.
Qed.

(** X24: the pattern the noise loop reads as its uniform number has its
    16 fraction bits zero: it is U * 2^16 for a signed 16-bit U.  For an
    even noise_std of at most 32767 the noise added to an element is
    exactly (2 U - 1) * noise_std (2 U * noise_std for U = -32768, where the
    subtraction of one half saturates), so that its magnitude is never below
    noise_std. *)
Theorem noise_value_odd_multiple (noise_std sd ep sample_idx e : Z) :
  0 < noise_std <= 32767 -> Z.even noise_std = true ->
  exists U, -32768 <= U <= 32767 /\
    noise_u_fixed sd ep sample_idx e = U * 65536 /\
    noise_value noise_std sd ep sample_idx e
    = (if U =? -32768 then 2 * U else 2 * U - 1) * noise_std /\
    noise_std <= Z.abs (noise_value noise_std sd ep sample_idx e).
Proof.
  intros Hstd Heven.
  destruct (noise_u_fixed_whole sd ep sample_idx e) as (U & HU & HUf).
  exists U. split; [exact HU|]. split; [exact HUf|].
  apply Z.even_spec in Heven as [s Hs].
  assert (Hval : noise_value noise_std sd ep sample_idx e
                 = (if U =? -32768 then 2 * U else 2 * U - 1) * noise_std).
  { unfold noise_value. rewrite HUf. change FIXED_HALF with 32768.
    destruct (Z.eqb_spec U (-32768)) as [->|Hne].
    - replace (Spec.clamp_range (-32768 * 65536 - 32768)) with (-32768 * 65536)
        by (unfold Spec.clamp_range, INT32_MIN, INT32_MAX; lia).
      rewrite (dvm_mul_q16_whole noise_std (-32768 * noise_std));
        [|lia|unfold is_int32, INT32_MIN, INT32_MAX; lia].
      unfold Spec.clamp_range, INT32_MIN, INT32_MAX. lia.
    - rewrite (clamp_in_range (U * 65536 - 32768))
        by (unfold is_int32, INT32_MIN, INT32_MAX; lia).
      rewrite (dvm_mul_q16_whole noise_std (s * (2 * U - 1)));
        [|lia|unfold is_int32, INT32_MIN, INT32_MAX; nia].
      unfold Spec.clamp_range, INT32_MIN, INT32_MAX. nia. }
  split; [exact Hval|]. rewrite Hval.
  rewrite Z.abs_mul, (Z.abs_eq noise_std) by lia.
  assert (Hk : 1 <= Z.abs (if U =? -32768 then 2 * U else 2 * U - 1))
    by (destruct (Z.eqb_spec U (-32768)); lia).
  nia.
Qed.

Lemma noise_value_odd_multiple_witness :
  0 < 6554 <= 32767 /\ Z.even 6554 = true /\
  6554 <= Z.abs (noise_value 6554 4 0 0 0).
Proof.
  assert (H1 : 0 < 6554 <= 32767) by lia.
  split; [exact H1|]. split; [reflexivity|].
  destruct (noise_value_odd_multiple 6554 4 0 0 0 H1 eq_refl) as (U & _ & _ & _ & H).
  exact H.
Defined.

End NoiseValue.

Section OpIds.

Lemma op_id_split (sample_idx low : Z) :
  0 <= sample_idx < 2 ^ 16 -> 0 <= low < 2 ^ 16 ->
  Z.lor (u32 (Z.shiftl sample_idx 16)) low = sample_idx * 65536 + low.
Proof.
  intros Hi Hl.
  assert (Hs : Z.shiftl sample_idx 16 = sample_idx * 65536)
    by (rewrite Z.shiftl_mul_pow2 by lia; reflexivity).
  rewrite u32_small by (rewrite Hs; lia).
  apply (lor_shiftl_low sample_idx low 16); lia.
Qed.

(** X25: for sample indices below 2^16 and elements below 0xF000, the
    op_id of a noise draw is sample_idx * 2^16 + 0x1000 + e: two draws with
    the same op_id are the same draw of the same sample, and no noise draw
    shares its op_id with a crop or flip draw of any sample.  Beyond that
    the ids run into the next sample: for an even sample_idx, element
    0xF001 uses the op_id of the crop-x draw of sample_idx + 1. *)
Theorem noise_op_ids_separate (sample_idx sample_idx' e e' : Z) :
  0 <= sample_idx < 2 ^ 16 -> 0 <= sample_idx' < 2 ^ 16 ->
  0 <= e < 0xF000 -> 0 <= e' < 0xF000 ->
  noise_op sample_idx e = sample_idx * 65536 + 0x1000 + e /\
  (noise_op sample_idx e = noise_op sample_idx' e' ->
     sample_idx = sample_idx' /\ e = e') /\
  noise_op sample_idx e <> crop_x_op sample_idx' /\
  noise_op sample_idx e <> crop_y_op sample_idx' /\
  noise_op sample_idx e <> flip_op sample_idx' /\
  (Z.even sample_idx = true -> sample_idx + 1 < 2 ^ 16 ->
     noise_op sample_idx (0xF000 + 1) = crop_x_op (sample_idx + 1)).
Proof.
  intros Hi Hi' He He'.
  assert (Hn : forall i x, 0 <= i < 2 ^ 16 -> 0 <= x < 0xF000 ->
             noise_op i x = i * 65536 + 0x1000 + x).
  { intros i x Hi0 Hx. unfold noise_op. rewrite (u32_small (4096 + x)) by lia.
    rewrite op_id_split by lia. lia. }
  unfold crop_x_op, crop_y_op, flip_op.
  rewrite !(op_id_split sample_idx') by lia.
  rewrite (Hn sample_idx e Hi He), (Hn sample_idx' e' Hi' He').
  split; [reflexivity|]. split; [lia|]. split; [lia|]. split; [lia|]. split; [lia|].
  intros Heven Hnext.
  rewrite (op_id_split (sample_idx + 1)) by lia.
  unfold noise_op. rewrite (u32_small (4096 + (61440 + 1))) by lia.
  change (4096 + (61440 + 1)) with (Z.lor (Z.shiftl 1 16) 1).
  assert (Hs : Z.shiftl sample_idx 16 = sample_idx * 65536)
    by (rewrite Z.shiftl_mul_pow2 by lia; reflexivity).
  rewrite u32_small by (rewrite Hs; lia).
  rewrite Z.lor_assoc, <- Z.shiftl_lor.
  apply Z.even_spec in Heven as [t Ht].
  assert (Hl : Z.lor sample_idx 1 = sample_idx + 1).
  { rewrite Ht. replace (2 * t) with (Z.shiftl t 1)
      by (rewrite Z.shiftl_mul_pow2 by lia; lia).
    rewrite (lor_shiftl_low t 1 1) by lia. rewrite Z.shiftl_mul_pow2 by lia. lia. }
  rewrite Hl. rewrite (lor_shiftl_low (sample_idx + 1) 1 16) by lia. lia.
Qed.

Lemma noise_op_ids_separate_witness :
  0 <= 2 < 2 ^ 16 /\ 0 <= 3 < 2 ^ 16 /\ 0 <= 5 < 0xF000 /\ 0 <= 7 < 0xF000 /\
  noise_op 2 5 <> crop_x_op 3.
Proof.
  assert (H1 : 0 <= 2 < 2 ^ 16) by lia. assert (H2 : 0 <= 3 < 2 ^ 16) by lia.
  assert (H3 : 0 <= 5 < 0xF000) by lia. assert (H4 : 0 <= 7 < 0xF000) by lia.
  split; [exact H1|]. split; [exact H2|]. split; [exact H3|]. split; [exact H4|].
  exact (proj1 (proj2 (proj2 (noise_op_ids_separate 2 3 5 7 H1 H2 H3 H4)))).
Defined.

End OpIds.


Section Touches.
Import DVM PRNG Augment.

Lemma touches_ret {A} (p : nat) (x : A) : touches p (ret x).
Proof.
  intros m. cbn. touches_split; try reflexivity. apply faults_le_refl.
Qed.

Lemma touches_bind {A B} (p : nat) (c : M A) (k : A -> M B) :
  touches p c -> (forall a, touches p (k a)) -> touches p (bind c k).
Proof.
  intros Hc Hk m. unfold bind. specialize (Hc m).
  destruct (c m) as [a m1]. cbn [snd] in Hc.
  destruct Hc as (C1 & C2 & C3 & C4 & C5).
  destruct (Hk a m1) as (K1 & K2 & K3 & K4 & K5).
  touches_split.
  - intros q Hq. rewrite K1, C1 by exact Hq. reflexivity.
  - rewrite K2, C2. reflexivity.
  - etransitivity; eassumption.
  - congruence.
  - eapply faults_le_trans; eassumption.
Qed.

Lemma touches_bind_val {A B} (p : nat) (c : M A) (v : A) (k : A -> M B) :
  (forall m, fst (c m) = v) -> touches p c -> touches p (k v) ->
  touches p (bind c k).
Proof.
  intros Hv Hc Hk m. unfold bind. specialize (Hc m). specialize (Hv m).
  destruct (c m) as [a m1]. cbn [fst snd] in Hc, Hv. subst a.
  destruct Hc as (C1 & C2 & C3 & C4 & C5).
  destruct (Hk m1) as (K1 & K2 & K3 & K4 & K5).
  touches_split.
  - intros q Hq. rewrite K1, C1 by exact Hq. reflexivity.
  - rewrite K2, C2. reflexivity.
  - etransitivity; eassumption.
  - congruence.
  - eapply faults_le_trans; eassumption.
Qed.

Lemma touches_for_each {K} (p : nat) (l : list K) (body : K -> M unit) :
  (forall k, touches p (body k)) -> touches p (for_each l body).
Proof.
  intros Hb. induction l as [|k l IH]; [apply touches_ret|].
  cbn [for_each]. apply touches_bind; [apply Hb|intros _; exact IH].
Qed.

Lemma touches_only_raises {A} (p : nat) (c : M A) : only_raises c -> touches p c.
Proof.
  intros H m. destruct (H m) as (H1 & H2 & H3 & H4).
  touches_split; try assumption.
  - intros q _. rewrite H1. reflexivity.
  - rewrite H1. reflexivity.
  - rewrite H2. reflexivity.
Qed.

Lemma touches_load (p q : nat) (i : Z) : touches p (load q i).
Proof.
  intros m. cbn. touches_split; try reflexivity. apply faults_le_refl.
Qed.

Lemma touches_store (p : nat) (i v : Z) : touches p (store p i v).
Proof.
  intros m. unfold store. destruct (mem m !! p) as [buf|] eqn:E; cbn [snd mem].
  - touches_split; try reflexivity; cbn.
    + intros q Hq. apply lookup_insert_ne. congruence.
    + rewrite lookup_insert_eq. cbn. rewrite length_insert. reflexivity.
    + apply faults_le_refl.
  - touches_split; try reflexivity; [rewrite E; reflexivity|apply faults_le_refl].
Qed.

Lemma touches_call (p : nat) (sd ep op_id : Z) : touches p (call_ct_prng sd ep op_id).
Proof.
  intros m. cbn. touches_split; try reflexivity.
  - apply prefix_app_r. reflexivity.
  - apply faults_le_refl.
Qed.

Lemma touches_uniform (p : nat) (sd ep op_id n : Z) :
  touches p (ct_prng_uniform sd ep op_id n).
Proof.
  unfold ct_prng_uniform.
  destruct (n =? 0); [apply touches_ret|].
  destruct (n =? 1); [apply touches_ret|].
  apply touches_bind; [apply touches_call|intros rand].
  destruct (n <=? 65536); apply touches_ret.
Qed.

Lemma touches_horizontal_flip (sample : ct_sample_t) (width height : Z) :
  touches (data sample) (horizontal_flip sample width height).
Proof.
  unfold horizontal_flip.
  apply touches_for_each. intros row. apply touches_for_each. intros col.
  unfold swap_columns.
  apply touches_bind; [apply touches_load|intros t].
  apply touches_bind; [apply touches_load|intros r].
  apply touches_bind; [apply touches_store|intros _].
  apply touches_store.
Qed.

Lemma touches_random_crop (input output : ct_sample_t) (w h cw ch sd ep idx : Z) :
  touches (data output) (random_crop_fn input output w h cw ch sd ep idx).
Proof.
  unfold random_crop_fn.
  apply touches_bind; [apply touches_uniform|intros cx].
  apply touches_bind; [apply touches_uniform|intros cy].
  apply touches_bind; [|intros _; apply touches_ret].
  apply touches_for_each. intros y. apply touches_for_each. intros x.
  unfold copy_pixel.
  apply touches_bind; [apply touches_load|intros v]. apply touches_store.
Qed.

Lemma touches_gaussian_noise (sample : ct_sample_t) (noise_std sd ep idx : Z) :
  touches (data sample) (gaussian_noise_fn sample noise_std sd ep idx).
Proof.
  unfold gaussian_noise_fn. apply touches_for_each. intros i. unfold noise_pair.
  apply touches_bind; [apply touches_call|intros u1].
  apply touches_bind; [apply touches_call|intros u2].
  apply touches_bind; [apply touches_only_raises, only_raises_sub32|intros c1].
  apply touches_bind; [apply touches_only_raises, only_raises_mul_q16|intros n1].
  apply touches_bind; [apply touches_only_raises, only_raises_add32|intros n1'].
  apply touches_bind; [apply touches_only_raises, only_raises_sub32|intros c2].
  apply touches_bind; [apply touches_only_raises, only_raises_mul_q16|intros n2].
  apply touches_bind; [apply touches_only_raises, only_raises_add32|intros n2'].
  apply touches_bind; [apply touches_load|intros d0].
  apply touches_bind; [apply touches_only_raises, only_raises_add32|intros d1].
  apply touches_bind; [apply touches_store|intros _].
  destruct (_ <? _); [|apply touches_ret].
  apply touches_bind; [apply touches_load|intros e0].
  apply touches_bind; [apply touches_only_raises, only_raises_add32|intros e1].
  apply touches_store.
Qed.

Lemma fst_bind_const {A B} (c : M A) (k : A -> M B) (v : B) (m : machine) :
  (forall a m', fst (k a m') = v) -> fst (bind c k m) = v.
Proof. intros H. unfold bind. destruct (c m) as [a m1]. apply H. Qed.

Lemma stage_hflip_fst ctx idx w h output m :
  fst (stage_hflip ctx idx w h output m) = output.
Proof.
  unfold stage_hflip. destruct (h_flip (flags ctx)); [|reflexivity].
  apply fst_bind_const. intros rand m1. apply fst_bind_const. reflexivity.
Qed.

Lemma stage_crop_fst ctx idx w h output m :
  fst (stage_crop ctx idx w h output m)
  = if random_crop (flags ctx) && (crop_height ctx >? 0) && (crop_width ctx >? 0)
    then cropped output (crop_width ctx) (crop_height ctx)
    else output.
Proof.
  unfold stage_crop. destruct (_ && _ && _); [|reflexivity].
  unfold random_crop_fn. apply fst_bind_const. intros cx m1.
  apply fst_bind_const. intros cy m2. apply fst_bind_const. reflexivity.
Qed.

Lemma stage_noise_fst ctx idx output m :
  fst (stage_noise ctx idx output m) = output.
Proof.
  unfold stage_noise. destruct (_ && _); [|reflexivity].
  apply fst_bind_const. reflexivity.
Qed.

Lemma ct_augment_sample_fst (ctx : ct_augment_ctx_t) (input : ct_sample_t)
    (sample_idx : Z) (m : machine) :
  fst (ct_augment_sample ctx input sample_idx m)
  = if random_crop (flags ctx) && (crop_height ctx >? 0) && (crop_width ctx >? 0)
    then cropped input (crop_width ctx) (crop_height ctx)
    else input.
Proof.
  set (height := dim input 0).
  set (width := if ndims input >? 1 then dim input 1 else 1).
  unfold ct_augment_sample. fold height width. unfold bind.
  pose proof (stage_hflip_fst ctx sample_idx width height input m) as H1.
  destruct (stage_hflip ctx sample_idx width height input m) as [o1 m1].
  cbn [fst] in H1. subst o1.
  pose proof (stage_crop_fst ctx sample_idx width height input m1) as H2.
  destruct (stage_crop ctx sample_idx width height input m1) as [o2 m2].
  cbn [fst] in H2.
  pose proof (stage_noise_fst ctx sample_idx o2 m2) as H3.
  destruct (stage_noise ctx sample_idx o2 m2) as [o3 m3].
  unfold ret. cbn [fst] in H3 |- *. congruence.
Qed.

Lemma touches_ct_augment_sample (ctx : ct_augment_ctx_t) (input : ct_sample_t)
    (sample_idx : Z) :
  touches (data input) (ct_augment_sample ctx input sample_idx).
Proof.
  set (height := dim input 0).
  set (width := if ndims input >? 1 then dim input 1 else 1).
  set (crop := random_crop (flags ctx) && (crop_height ctx >? 0) && (crop_width ctx >? 0)).
  unfold ct_augment_sample. fold height width.
  apply (touches_bind_val _ _ input);
    [intros m0; apply stage_hflip_fst| |].
  { unfold stage_hflip. destruct (h_flip (flags ctx)); [|apply touches_ret].
    apply touches_bind; [apply touches_call|intros rand].
    apply touches_bind; [|intros _; apply touches_ret].
    destruct (_ =? _); [apply touches_horizontal_flip|apply touches_ret]. }
  apply (touches_bind_val _ _
           (if crop then cropped input (crop_width ctx) (crop_height ctx) else input));
    [intros m0; apply stage_crop_fst| |].
  { unfold stage_crop. fold crop. destruct crop; [|apply touches_ret].
    apply touches_random_crop. }
  set (o2 := if crop then cropped input (crop_width ctx) (crop_height ctx) else input).
  assert (Ho2 : data o2 = data input) by (subst o2; destruct crop; reflexivity).
  apply touches_bind; [|intros o3; apply touches_ret].
  unfold stage_noise.
  destruct (gaussian_noise (flags ctx) && (noise_std ctx >? 0)); [|apply touches_ret].
  apply touches_bind; [|intros _; apply touches_ret].
  rewrite <- Ho2. apply touches_gaussian_noise.
Qed.

(** X26: on a sample whose buffer holds the image and whose crop window
    lies inside it, [ct_augment_sample] returns the input sample, with the
    dimensions and element count of the crop window when the crop stage
    runs and unchanged otherwise; in both cases the result holds the
    input's own data pointer: the operations work in place on the input's
    buffer.  No other buffer is written, no buffer is resized, the PRF log
    only grows, the scratch memory is untouched and no fault flag is
    cleared. *)
Theorem ct_augment_sample_in_place (ctx : ct_augment_ctx_t) (input : ct_sample_t)
    (sample_idx : Z) (m : machine) :
  augment_fits ctx input m ->
  let r := ct_augment_sample ctx input sample_idx m in
  fst r = (if random_crop (flags ctx) && (crop_height ctx >? 0) && (crop_width ctx >? 0)
           then cropped input (crop_width ctx) (crop_height ctx)
           else input) /\
  data (fst r) = data input /\
  (forall q, q <> data input -> mem (snd r) !! q = mem m !! q) /\
  length <$> (mem (snd r) !! data input) = length <$> (mem m !! data input) /\
  prf_log m `prefix_of` prf_log (snd r) /\
  stack_junk (snd r) = stack_junk m /\
  faults_le (faults m) (faults (snd r)).
Proof.
  intros _ r. subst r.
  split; [apply ct_augment_sample_fst|].
  split.
  - rewrite ct_augment_sample_fst.
    destruct (random_crop (flags ctx) && (crop_height ctx >? 0) && (crop_width ctx >? 0));
      reflexivity.
  - exact (touches_ct_augment_sample ctx input sample_idx m).
Qed.

(** The 1 x 2 image with the flip, a 1 x 1 crop and the noise enabled. *)
Lemma ct_augment_sample_in_place_witness :
  let ctx := AugmentCtx 4 0 (AugmentFlags true false true true) 1 1 FIXED_ONE in
  augment_fits ctx Inputs.image (Inputs.machine0 Inputs.image_heap) /\
  data (fst (ct_augment_sample ctx Inputs.image 0
               (Inputs.machine0 Inputs.image_heap))) = data Inputs.image.
Proof.
  intros ctx.
  assert (H : augment_fits ctx Inputs.image (Inputs.machine0 Inputs.image_heap)).
  { exists [10; 20]. split; [reflexivity|]. cbn. change (u32 (1 * 1)) with 1.
    repeat split; intros; lia. }
  split; [exact H|].
  exact (proj1 (proj2 (ct_augment_sample_in_place ctx Inputs.image 0
                         (Inputs.machine0 Inputs.image_heap) H))).
Defined.

(** *** The PRF calls of a whole augmentation *)

Lemma logs_ret {A} (x : A) : logs (ret x) [].
Proof. intros m. cbn. rewrite app_nil_r. reflexivity. Qed.

Lemma logs_ext {A} (c : M A) (L L' : list prf_call) : logs c L -> L = L' -> logs c L'.
Proof. intros H <-. exact H. Qed.

Lemma logs_bind {A B} (c : M A) (k : A -> M B) (L1 L2 : list prf_call) :
  logs c L1 -> (forall a, logs (k a) L2) -> logs (bind c k) (L1 ++ L2).
Proof.
  intros Hc Hk m. unfold bind. specialize (Hc m). destruct (c m) as [a m1].
  cbn [snd] in Hc. rewrite (Hk a m1), Hc, app_assoc. reflexivity.
Qed.

Lemma logs_bind_val {A B} (c : M A) (v : A) (k : A -> M B) (L1 L2 : list prf_call) :
  (forall m, fst (c m) = v) -> logs c L1 -> logs (k v) L2 ->
  logs (bind c k) (L1 ++ L2).
Proof.
  intros Hv Hc Hk m. unfold bind. specialize (Hc m). specialize (Hv m).
  destruct (c m) as [a m1]. cbn [fst snd] in Hc, Hv. subst a.
  rewrite (Hk m1), Hc, app_assoc. reflexivity.
Qed.

Lemma logs_quiet {A} (c : M A) : quiet c -> logs c [].
Proof. intros H m. rewrite app_nil_r. apply H. Qed.

Lemma logs_runs {A} (c : M A) F (L : list prf_call) : runs c F L -> logs c L.
Proof. intros H m. apply H. Qed.

Lemma logs_call (sd ep op_id : Z) : logs (call_ct_prng sd ep op_id) [(sd, ep, op_id)].
Proof. intros m. reflexivity. Qed.

Lemma logs_uniform (sd ep op_id n : Z) :
  0 <= n < 2 ^ 32 ->
  logs (ct_prng_uniform sd ep op_id n) (uniform_calls sd ep op_id n).
Proof.
  intros Hn m. destruct (ct_prng_uniform_run sd ep op_id n m Hn) as (_ & _ & H).
  rewrite H. reflexivity.
Qed.

Lemma quiet_horizontal_flip (sample : ct_sample_t) (width height : Z) :
  quiet (horizontal_flip sample width height).
Proof.
  unfold horizontal_flip. apply quiet_for_each. intros row.
  apply quiet_for_each. intros col. unfold swap_columns.
  apply quiet_bind; [apply quiet_load|intros t].
  apply quiet_bind; [apply quiet_load|intros r].
  apply quiet_bind; [apply quiet_store|intros _]. apply quiet_store.
Qed.

Lemma logs_stage_hflip (ctx : ct_augment_ctx_t) (idx w h : Z) (output : ct_sample_t) :
  logs (stage_hflip ctx idx w h output)
       (if h_flip (flags ctx) then [(seed ctx, epoch ctx, flip_op idx)] else []).
Proof.
  unfold stage_hflip, flip_op. destruct (h_flip (flags ctx)); [|apply logs_ret].
  apply (logs_ext _ ([(seed ctx, epoch ctx, Z.lor (u32 (Z.shiftl idx 16)) 256)] ++ []));
    [|reflexivity].
  apply logs_bind; [apply logs_call|intros rand].
  apply logs_quiet. apply quiet_bind; [|intros _; apply quiet_ret].
  destruct (_ =? _); [apply quiet_horizontal_flip|apply quiet_ret].
Qed.

Lemma logs_stage_crop (ctx : ct_augment_ctx_t) (idx w h : Z) (output : ct_sample_t) :
  (random_crop (flags ctx) && (crop_height ctx >? 0) && (crop_width ctx >? 0) = true ->
   crop_width ctx <= w < 2 ^ 32 /\ crop_height ctx <= h < 2 ^ 32) ->
  logs (stage_crop ctx idx w h output)
       (if random_crop (flags ctx) && (crop_height ctx >? 0) && (crop_width ctx >? 0)
        then uniform_calls (seed ctx) (epoch ctx) (crop_x_op idx) (w - crop_width ctx + 1)
             ++ uniform_calls (seed ctx) (epoch ctx) (crop_y_op idx)
                              (h - crop_height ctx + 1)
        else []).
Proof.
  intros Hc. unfold stage_crop.
  destruct (random_crop (flags ctx) && (crop_height ctx >? 0) && (crop_width ctx >? 0))
    eqn:E; [|apply logs_ret].
  destruct (Hc eq_refl) as [Hw Hh].
  apply andb_true_iff in E as [E Ecw]. apply andb_true_iff in E as [_ Ech].
  apply Z.gtb_lt in Ecw, Ech.
  unfold random_crop_fn. cbv zeta. fold (crop_x_op idx) (crop_y_op idx).
  rewrite (u32_small (w - crop_width ctx)) by lia.
  rewrite (u32_small (h - crop_height ctx)) by lia.
  rewrite (u32_small (w - crop_width ctx + 1)) by lia.
  rewrite (u32_small (h - crop_height ctx + 1)) by lia.
  apply (logs_ext _
           (uniform_calls (seed ctx) (epoch ctx) (crop_x_op idx) (w - crop_width ctx + 1)
            ++ (uniform_calls (seed ctx) (epoch ctx) (crop_y_op idx)
                              (h - crop_height ctx + 1) ++ [])));
    [|rewrite app_nil_r; reflexivity].
  apply logs_bind; [apply logs_uniform; lia|intros cx].
  apply logs_bind; [apply logs_uniform; lia|intros cy].
  apply logs_quiet. apply quiet_bind; [|intros _; apply quiet_ret].
  apply quiet_for_each. intros y. apply quiet_for_each. intros x.
  unfold copy_pixel. apply quiet_bind; [apply quiet_load|intros v]. apply quiet_store.
Qed.

Lemma logs_stage_noise (ctx : ct_augment_ctx_t) (idx : Z) (output : ct_sample_t) :
  (gaussian_noise (flags ctx) && (noise_std ctx >? 0) = true ->
   0 <= total_elements output) ->
  logs (stage_noise ctx idx output)
       (if gaussian_noise (flags ctx) && (noise_std ctx >? 0)
        then map (fun e => (seed ctx, epoch ctx, noise_op idx e))
                 (seqZ 0 (2 * ((total_elements output + 1) / 2)))
        else []).
Proof.
  intros Ht. unfold stage_noise.
  destruct (gaussian_noise (flags ctx) && (noise_std ctx >? 0)); [|apply logs_ret].
  specialize (Ht eq_refl).
  apply (logs_ext _ (map (fun e => (seed ctx, epoch ctx, noise_op idx e))
                         (seqZ 0 (2 * ((total_elements output + 1) / 2))) ++ []));
    [|apply app_nil_r].
  apply logs_bind; [|intros _; apply logs_ret].
  unfold gaussian_noise_fn.
  eapply logs_ext.
  - exact (logs_runs _ _ _
             (runs_for_each _ _ _ _
                (noise_pair_runs output (noise_std ctx) (seed ctx) (epoch ctx) idx))).
  - rewrite <- (Z2Nat.id ((total_elements output + 1) / 2))
      by (apply Z.div_pos; lia).
    apply noise_calls.
Qed.

Lemma logs_ct_augment_sample (ctx : ct_augment_ctx_t) (input : ct_sample_t)
    (sample_idx : Z) :
  let height := dim input 0 in
  let width := if ndims input >? 1 then dim input 1 else 1 in
  (random_crop (flags ctx) && (crop_height ctx >? 0) && (crop_width ctx >? 0) = true ->
   crop_width ctx <= width < 2 ^ 32 /\ crop_height ctx <= height < 2 ^ 32) ->
  (gaussian_noise (flags ctx) && (noise_std ctx >? 0) = true ->
   0 <= total_elements (augmented ctx input)) ->
  logs (ct_augment_sample ctx input sample_idx)
       ((if h_flip (flags ctx)
         then [(seed ctx, epoch ctx, flip_op sample_idx)] else [])
        ++ (if random_crop (flags ctx) && (crop_height ctx >? 0) && (crop_width ctx >? 0)
            then uniform_calls (seed ctx) (epoch ctx) (crop_x_op sample_idx)
                               (width - crop_width ctx + 1)
                 ++ uniform_calls (seed ctx) (epoch ctx) (crop_y_op sample_idx)
                                  (height - crop_height ctx + 1)
            else [])
        ++ (if gaussian_noise (flags ctx) && (noise_std ctx >? 0)
            then map (fun e => (seed ctx, epoch ctx, noise_op sample_idx e))
                     (seqZ 0 (2 * ((total_elements (augmented ctx input) + 1) / 2)))
            else [])).
Proof.
  intros height width Hc Hn. unfold ct_augment_sample. fold height width.
  apply (logs_bind_val _ input);
    [intros m0; apply stage_hflip_fst|apply logs_stage_hflip|].
  apply (logs_bind_val _ (augmented ctx input));
    [intros m0; apply stage_crop_fst|apply logs_stage_crop; exact Hc|].
  eapply logs_ext; [|apply app_nil_r].
  apply logs_bind; [apply logs_stage_noise; exact Hn|intros o; apply logs_ret].
Qed.

(** C2, as amended: for every configuration, seed, epoch and sample index,
    and every sample the enabled operations fit, the PRF calls of
    [ct_augment_sample] are exactly: the flip decision, with op_id
    (sample_idx << 16) | 0x0100, if the flip is enabled; then, if the crop
    is enabled with positive sizes, the draws of the two offsets, with
    op_ids (sample_idx << 16) | 0x0001 and | 0x0002, each made only when
    there is more than one offset to choose from; then, if the noise is
    enabled with a positive amplitude, one draw per element, in pairs, with
    op_ids (sample_idx << 16) | (0x1000 + e).  A disabled operation makes no
    PRF call, so the sequence depends on which flags are enabled. *)
Theorem augment_prf_calls_follow_flags (ctx : ct_augment_ctx_t)
    (input : ct_sample_t) (sample_idx : Z) (m : machine) :
  augment_fits ctx input m ->
  let height := dim input 0 in
  let width := if ndims input >? 1 then dim input 1 else 1 in
  let total := total_elements (augmented ctx input) in
  prf_log (snd (ct_augment_sample ctx input sample_idx m))
  = prf_log m
    ++ (if h_flip (flags ctx)
        then [(seed ctx, epoch ctx, flip_op sample_idx)] else [])
    ++ (if random_crop (flags ctx) && (crop_height ctx >? 0) && (crop_width ctx >? 0)
        then uniform_calls (seed ctx) (epoch ctx) (crop_x_op sample_idx)
                           (width - crop_width ctx + 1)
             ++ uniform_calls (seed ctx) (epoch ctx) (crop_y_op sample_idx)
                              (height - crop_height ctx + 1)
        else [])
    ++ (if gaussian_noise (flags ctx) && (noise_std ctx >? 0)
        then map (fun e => (seed ctx, epoch ctx, noise_op sample_idx e))
                 (seqZ 0 (2 * ((total + 1) / 2)))
        else []).
Proof.
  intros (buf & Hb & Hlen & Hw & Hh & Hflip & Hcrop & Hnoise) height width total.
  fold height width in Hw, Hh, Hcrop.
  apply (logs_ct_augment_sample ctx input sample_idx).
  - intros E. destruct (Hcrop E) as (Hcw & Hch & Hfit).
    apply andb_true_iff in E as [E Ecw]. apply andb_true_iff in E as [_ Ech].
    apply Z.gtb_lt in Ecw, Ech. fold height width. nia.
  - intros E. apply (Hnoise E).
Qed.

(** The 1 x 2 image with the flip, a 1 x 1 crop and the noise enabled: the
    flip decision, the x offset (two to choose from; the y offset has one,
    and is not drawn) and the pair of draws of the one element left. *)
Lemma augment_prf_calls_follow_flags_witness :
  let ctx := AugmentCtx 4 0 (AugmentFlags true false true true) 1 1 FIXED_ONE in
  augment_fits ctx Inputs.image (Inputs.machine0 Inputs.image_heap) /\
  prf_log (snd (ct_augment_sample ctx Inputs.image 0
                  (Inputs.machine0 Inputs.image_heap)))
  = [(4, 0, 0x0100); (4, 0, 0x0001); (4, 0, 0x1000); (4, 0, 0x1001)].
Proof.
  intros ctx.
  assert (H : augment_fits ctx Inputs.image (Inputs.machine0 Inputs.image_heap)).
  { exists [10; 20]. split; [reflexivity|]. cbn. change (u32 (1 * 1)) with 1.
    repeat split; intros; lia. }
  split; [exact H|].
  exact (augment_prf_calls_follow_flags ctx Inputs.image 0
           (Inputs.machine0 Inputs.image_heap) H).
Defined.


End Touches.

(** ** Rounding order, whole batches, whole epochs *)

Section RoundingOrder.
Import DVM.

Lemma is_rne_monotone (x x' shift y y' : Z) :
  0 <= shift -> x <= x' ->
  Spec.is_rne x shift y -> Spec.is_rne x' shift y' -> y <= y'.
Proof.
  intros Hs Hx [H1 T1] [H2 T2].
  assert (Hp : 0 < 2 ^ shift) by (apply Z.pow_pos_nonneg; lia).
  destruct (Z.le_gt_cases y y') as [|Hgt]; [assumption|exfalso].
  assert (Hy : y = y' + 1) by nia.
  assert (Ht1 : 2 * Z.abs (x - y * 2 ^ shift) = 2 ^ shift) by nia.
  assert (Ht2 : 2 * Z.abs (x' - y' * 2 ^ shift) = 2 ^ shift) by nia.
  specialize (T1 Ht1). specialize (T2 Ht2).
  apply Z.even_spec in T1, T2. destruct T1 as [a Ha], T2 as [b Hb]. lia.
Qed.

Lemma is_rne_opp (x shift y : Z) :
  Spec.is_rne x shift y -> Spec.is_rne (- x) shift (- y).
Proof.
  intros [H1 T1]. unfold Spec.is_rne.
  replace (- x - - y * 2 ^ shift) with (- (x - y * 2 ^ shift)) by ring.
  rewrite Z.abs_opp, Z.even_opp. split; assumption.
Qed.

Lemma dvm_round_shift_rne_any (x shift : Z) (m : machine) :
  0 <= shift <= 62 ->
  exists y, Spec.is_rne x shift y /\
            dvm_round_shift_rne x shift m = dvm_clamp32 y m.
Proof.
  intros Hs. destruct (Z.eq_dec shift 0) as [->|Hnz].
  - exists x. split; [|reflexivity].
    unfold Spec.is_rne. rewrite Z.pow_0_r. split; lia.
  - apply dvm_round_shift_rne_value. lia.
Qed.

(** X27: for a shift of [0, 62], [dvm_round_shift_rne] is monotone in its
    64-bit argument, whatever the machines it runs on: x <= x' gives a
    result for x that is at most the result for x'; and it commutes with
    negation wherever it does not saturate: when the result for x lies
    strictly inside the 32-bit range, the result for -x is its opposite. *)
Theorem dvm_round_shift_rne_monotone (x x' shift : Z) (m m' : machine) :
  0 <= shift <= 62 -> x <= x' ->
  fst (dvm_round_shift_rne x shift m) <= fst (dvm_round_shift_rne x' shift m') /\
  (INT32_MIN < fst (dvm_round_shift_rne x shift m) < INT32_MAX ->
   fst (dvm_round_shift_rne (- x) shift m') = - fst (dvm_round_shift_rne x shift m)).
Proof.
  intros Hs Hx.
  destruct (dvm_round_shift_rne_any x shift m Hs) as (y & Hy & Ey).
  destruct (dvm_round_shift_rne_any x' shift m' Hs) as (y' & Hy' & Ey').
  destruct (dvm_round_shift_rne_any (- x) shift m' Hs) as (z & Hz & Ez).
  rewrite Ey, Ey', Ez, !dvm_clamp32_value.
  pose proof (is_rne_monotone x x' shift y y' ltac:(lia) Hx Hy Hy') as Hle.
  assert (Hzy : z = - y)
    by (apply (is_rne_unique (- x) shift); [lia|exact Hz|apply is_rne_opp; exact Hy]).
  unfold Spec.clamp_range, INT32_MIN, INT32_MAX. split; lia.
Qed.

Lemma dvm_round_shift_rne_monotone_witness :
  0 <= 16 <= 62 /\ 0x18000 <= 0x28000 /\
  fst (dvm_round_shift_rne 0x18000 16 (Inputs.machine0 ∅))
  <= fst (dvm_round_shift_rne 0x28000 16 (Inputs.machine0 ∅)).
Proof.
  assert (H1 : 0 <= 16 <= 62) by lia.
  assert (H2 : 0x18000 <= 0x28000) by lia.
  split; [exact H1|]. split; [exact H2|].
  exact (proj1 (dvm_round_shift_rne_monotone 0x18000 0x28000 16
                  (Inputs.machine0 ∅) (Inputs.machine0 ∅) H1 H2)).
Defined.

End RoundingOrder.

Section Slots.
Import DVM Normalize Augment.

Lemma touches_ct_normalize_sample (ctx : ct_normalize_ctx_t)
    (input output : ct_sample_t) :
  touches (data output) (ct_normalize_sample ctx input output).
Proof.
  unfold ct_normalize_sample.
  apply touches_bind.
  { apply touches_for_each. intros i. unfold normalize_element.
    apply touches_bind; [apply touches_load|intros x].
    apply touches_bind; [apply touches_only_raises, only_raises_sub32|intros c].
    apply touches_bind; [apply touches_only_raises, only_raises_mul_q16|intros n].
    apply touches_store. }
  intros _. apply touches_bind; [|intros _; apply touches_ret].
  apply touches_for_each. intros i. unfold copy_element.
  apply touches_bind; [apply touches_load|intros x]. apply touches_store.
Qed.

Lemma ct_normalize_sample_fst (ctx : ct_normalize_ctx_t)
    (input output : ct_sample_t) (m : machine) :
  fst (ct_normalize_sample ctx input output m) = normalized_into input output.
Proof.
  unfold ct_normalize_sample. apply fst_bind_const. intros _ m1.
  apply fst_bind_const. reflexivity.
Qed.

Lemma quiet_ct_normalize_sample (ctx : ct_normalize_ctx_t)
    (input output : ct_sample_t) :
  quiet (ct_normalize_sample ctx input output).
Proof.
  unfold ct_normalize_sample.
  apply quiet_bind; [apply quiet_for_each; intros k; apply quiet_normalize_element|].
  intros _. apply quiet_bind; [|intros _; apply quiet_ret].
  apply quiet_for_each. intros k. apply quiet_copy_element.
Qed.

(** The slots of [ct_normalize_batch], one pass of the loop after the
    other. *)
Lemma normalize_slots_spec (ctx : ct_normalize_ctx_t) (input : ct_batch_t)
    (P : nat -> Prop) (idxs : list Z) :
  forall (outs : list ct_sample_t) (m : machine),
    NoDup (Z.to_nat <$> idxs) ->
    (forall i, i ∈ idxs -> P (data (sample_at outs i))) ->
    let r := normalize_slots ctx input idxs outs m in
    length (fst r) = length outs /\
    (forall j, j ∉ (Z.to_nat <$> idxs) -> fst r !! j = outs !! j) /\
    (forall i, i ∈ idxs -> (Z.to_nat i < length outs)%nat ->
       fst r !! Z.to_nat i
       = Some (normalized_into (sample_at (samples input) i) (sample_at outs i))) /\
    (forall q, ~ P q -> mem (snd r) !! q = mem m !! q) /\
    prf_log m `prefix_of` prf_log (snd r) /\
    stack_junk (snd r) = stack_junk m /\
    faults_le (faults m) (faults (snd r)).
Proof.
  induction idxs as [|i idxs IH]; intros outs m Hnd HP r.
  - subst r. cbn. split; [reflexivity|]. split; [reflexivity|].
    split; [intros i Hi; apply elem_of_nil in Hi; contradiction|].
    split; [reflexivity|]. split; [reflexivity|]. split; [reflexivity|].
    apply faults_le_refl.
  - rewrite fmap_cons in Hnd. apply NoDup_cons in Hnd as [Hni Hnd].
    subst r. cbn [normalize_slots]. unfold normalize_slot, bind, ret.
    set (in_i := sample_at (samples input) i).
    set (out_i := sample_at outs i).
    pose proof (ct_normalize_sample_fst ctx in_i out_i m) as Hf.
    pose proof (touches_ct_normalize_sample ctx in_i out_i m) as (T1 & _ & T3 & T4 & T5).
    destruct (ct_normalize_sample ctx in_i out_i m) as [s m1].
    cbn [fst snd] in Hf, T1, T3, T4, T5. subst s.
    set (outs1 := <[Z.to_nat i := normalized_into in_i out_i]> outs).
    assert (Hsame : forall x, x ∈ idxs -> sample_at outs1 x = sample_at outs x).
    { intros x Hx. unfold sample_at. subst outs1.
      rewrite list_lookup_insert_ne; [reflexivity|].
      intros E. apply Hni. rewrite E. apply list_elem_of_fmap_2. exact Hx. }
    destruct (IH outs1 m1 Hnd) as (Hl & Hout & Hin & Hq & Hp & Hj & Hfl).
    { intros x Hx. rewrite Hsame by exact Hx. apply HP. right. exact Hx. }
    split; [rewrite Hl; subst outs1; apply length_insert|].
    split.
    { intros j Hj'. rewrite fmap_cons in Hj'. apply not_elem_of_cons in Hj' as [Hji Hj'].
      rewrite Hout by exact Hj'. subst outs1.
      apply list_lookup_insert_ne. congruence. }
    split.
    { intros x Hx Hlt. apply elem_of_cons in Hx as [->|Hx].
      - rewrite Hout by exact Hni. subst outs1.
        apply list_lookup_insert_eq. exact Hlt.
      - rewrite Hin; [|exact Hx|subst outs1; rewrite length_insert; exact Hlt].
        rewrite Hsame by exact Hx. reflexivity. }
    split.
    { intros q Hnq. rewrite Hq by exact Hnq. apply T1.
      intros ->. apply Hnq. apply (HP i). left. }
    split; [etransitivity; eassumption|].
    split; [congruence|]. eapply faults_le_trans; eassumption.
Qed.

(** The slots of [ct_augment_batch]. *)
Lemma augment_slots_spec (ctx : ct_augment_ctx_t) (input : ct_batch_t)
    (P : nat -> Prop) (idxs : list Z) :
  forall (outs : list ct_sample_t) (m : machine),
    NoDup (Z.to_nat <$> idxs) ->
    (forall i, i ∈ idxs -> P (data (sample_at (samples input) i))) ->
    let r := augment_slots ctx input idxs outs m in
    length (fst r) = length outs /\
    (forall j, j ∉ (Z.to_nat <$> idxs) -> fst r !! j = outs !! j) /\
    (forall i, i ∈ idxs -> (Z.to_nat i < length outs)%nat ->
       fst r !! Z.to_nat i = Some (augmented ctx (sample_at (samples input) i))) /\
    (forall q, ~ P q -> mem (snd r) !! q = mem m !! q) /\
    prf_log m `prefix_of` prf_log (snd r) /\
    stack_junk (snd r) = stack_junk m /\
    faults_le (faults m) (faults (snd r)).
Proof.
  induction idxs as [|i idxs IH]; intros outs m Hnd HP r.
  - subst r. cbn. split; [reflexivity|]. split; [reflexivity|].
    split; [intros i Hi; apply elem_of_nil in Hi; contradiction|].
    split; [reflexivity|]. split; [reflexivity|]. split; [reflexivity|].
    apply faults_le_refl.
  - rewrite fmap_cons in Hnd. apply NoDup_cons in Hnd as [Hni Hnd].
    subst r. cbn [augment_slots]. unfold bind.
    set (in_i := sample_at (samples input) i).
    set (g := u32 (batch_index input * batch_size input + i)).
    pose proof (ct_augment_sample_fst ctx in_i g m) as Hf.
    pose proof (touches_ct_augment_sample ctx in_i g m) as (T1 & _ & T3 & T4 & T5).
    destruct (ct_augment_sample ctx in_i g m) as [s m1].
    cbn [fst snd] in Hf, T1, T3, T4, T5. fold (augmented ctx in_i) in Hf. subst s.
    cbv beta iota.
    set (outs1 := <[Z.to_nat i := augmented ctx in_i]> outs).
    destruct (IH outs1 m1 Hnd) as (Hl & Hout & Hin & Hq & Hp & Hj & Hfl).
    { intros x Hx. apply HP. right. exact Hx. }
    split; [rewrite Hl; subst outs1; apply length_insert|].
    split.
    { intros j Hj'. rewrite fmap_cons in Hj'. apply not_elem_of_cons in Hj' as [Hji Hj'].
      rewrite Hout by exact Hj'. subst outs1.
      apply list_lookup_insert_ne. congruence. }
    split.
    { intros x Hx Hlt. apply elem_of_cons in Hx as [->|Hx].
      - rewrite Hout by exact Hni. subst outs1.
        apply list_lookup_insert_eq. exact Hlt.
      - apply Hin; [exact Hx|subst outs1; rewrite length_insert; exact Hlt]. }
    split.
    { intros q Hnq. rewrite Hq by exact Hnq. apply T1.
      intros ->. apply Hnq. apply (HP i). left. }
    split; [etransitivity; eassumption|].
    split; [congruence|]. eapply faults_le_trans; eassumption.
Qed.

(** X28: on batches whose slots exist and whose buffers hold the samples'
    elements, after [ct_normalize_batch] every slot i below the input's
    [batch_size] holds the metadata of input sample i with the data pointer
    the output had in slot i; the only buffers written are those the
    output's slots below [batch_size] point to; the array keeps its length,
    the PRF log and the scratch memory are untouched and no fault flag is
    cleared. *)
Theorem ct_normalize_batch_slots (ctx : ct_normalize_ctx_t)
    (input output : ct_batch_t) (m : machine) :
  normalize_batch_fits ctx input output m ->
  let r := ct_normalize_batch ctx input output m in
  (forall i, 0 <= i < batch_size input ->
     (Z.to_nat i < length (samples output))%nat ->
     samples (fst r) !! Z.to_nat i
     = Some (normalized_into (sample_at (samples input) i)
                             (sample_at (samples output) i))) /\
  (forall q,
     (forall i, 0 <= i < batch_size input ->
        q <> data (sample_at (samples output) i)) ->
     mem (snd r) !! q = mem m !! q) /\
  length (samples (fst r)) = length (samples output) /\
  prf_log (snd r) = prf_log m /\
  stack_junk (snd r) = stack_junk m /\
  faults_le (faults m) (faults (snd r)).
Proof.
  intros _ r.
  set (B := batch_size input).
  set (P := fun q => exists i, 0 <= i < B /\ q = data (sample_at (samples output) i)).
  assert (Hnd : NoDup (Z.to_nat <$> upto B)) by (apply NoDup_to_nat_seqZ; lia).
  destruct (normalize_slots_spec ctx input P (upto B) (samples output) m Hnd)
    as (Hl & _ & Hin & Hq & Hp & Hj & Hfl).
  { intros i Hi. apply elem_of_seqZ in Hi. exists i. split; [lia|reflexivity]. }
  assert (Hlog : prf_log (snd (normalize_slots ctx input (upto B) (samples output) m))
                 = prf_log m).
  { clear. generalize (samples output) as outs. revert m.
    induction (upto B) as [|i l IH]; intros m outs; [reflexivity|].
    cbn [normalize_slots]. unfold bind at 1. unfold normalize_slot, bind, ret.
    pose proof (proj1 (quiet_ct_normalize_sample ctx
                  (sample_at (samples input) i) (sample_at outs i) m)) as Hc.
    destruct (ct_normalize_sample ctx (sample_at (samples input) i)
                (sample_at outs i) m) as [s m1].
    cbn [snd] in Hc. rewrite IH. exact Hc. }
  subst r. unfold ct_normalize_batch, bind, ret. fold B.
  destruct (normalize_slots ctx input (upto B) (samples output) m) as [outs m1].
  cbn [fst snd samples] in *.
  split; [intros i Hi Hlt; apply Hin; [apply elem_of_seqZ; lia|exact Hlt]|].
  split.
  { intros q Hnq. apply Hq. intros (i & Hi & ->). exact (Hnq i Hi eq_refl). }
  split; [exact Hl|]. split; [exact Hlog|]. split; [exact Hj|exact Hfl].
Qed.

(** The image batch normalised into the blank batch. *)
Lemma ct_normalize_batch_slots_witness :
  let ctx := NormalizeCtx [FIXED_HALF] [FIXED_ONE] 1 in
  normalize_batch_fits ctx image_batch blank_batch (Inputs.machine0 two_buffers) /\
  samples (fst (ct_normalize_batch ctx image_batch blank_batch
                  (Inputs.machine0 two_buffers))) !! Z.to_nat 0
  = Some (normalized_into (sample_at (samples image_batch) 0)
                          (sample_at (samples blank_batch) 0)).
Proof.
  intros ctx.
  assert (H : normalize_batch_fits ctx image_batch blank_batch
                (Inputs.machine0 two_buffers)).
  { split; [unfold slots_exist, image_batch, blank_batch; cbn; lia|].
    intros i Hi. unfold image_batch in Hi. cbn in Hi. assert (i = 0) as -> by lia.
    exists [10; 20], [0; 0]. split; [reflexivity|]. split; [reflexivity|].
    vm_compute. repeat split; intros; congruence. }
  split; [exact H|].
  exact (proj1 (ct_normalize_batch_slots ctx image_batch blank_batch
                  (Inputs.machine0 two_buffers) H) 0 ltac:(unfold image_batch; cbn; lia)
                  ltac:(unfold blank_batch; cbn; lia)).
Defined.

(** X29: on batches whose slots exist and whose samples the enabled
    operations fit, after [ct_augment_batch] every slot i below the input's
    [batch_size] holds the augmented input sample i, whose data pointer is
    the input's own: the output batch shares its buffers with the input
    batch, and the buffers the output's samples pointed to before are not
    written.  Only buffers of the input's slots are written; the PRF log
    only grows, the scratch memory is untouched and no fault flag is
    cleared. *)
Theorem ct_augment_batch_aliases_input (ctx : ct_augment_ctx_t)
    (input output : ct_batch_t) (m : machine) :
  augment_batch_fits ctx input output m ->
  let r := ct_augment_batch ctx input output m in
  (forall i, 0 <= i < batch_size input ->
     (Z.to_nat i < length (samples output))%nat ->
     samples (fst r) !! Z.to_nat i
     = Some (augmented ctx (sample_at (samples input) i)) /\
     data (augmented ctx (sample_at (samples input) i))
     = data (sample_at (samples input) i)) /\
  (forall q,
     (forall i, 0 <= i < batch_size input ->
        q <> data (sample_at (samples input) i)) ->
     mem (snd r) !! q = mem m !! q) /\
  length (samples (fst r)) = length (samples output) /\
  prf_log m `prefix_of` prf_log (snd r) /\
  stack_junk (snd r) = stack_junk m /\
  faults_le (faults m) (faults (snd r)).
Proof.
  intros _ r.
  set (B := batch_size input).
  set (P := fun q => exists i, 0 <= i < B /\ q = data (sample_at (samples input) i)).
  assert (Hnd : NoDup (Z.to_nat <$> upto B)) by (apply NoDup_to_nat_seqZ; lia).
  destruct (augment_slots_spec ctx input P (upto B) (samples output) m Hnd)
    as (Hl & _ & Hin & Hq & Hp & Hj & Hfl).
  { intros i Hi. apply elem_of_seqZ in Hi. exists i. split; [lia|reflexivity]. }
  subst r. unfold ct_augment_batch, bind, ret. fold B.
  destruct (augment_slots ctx input (upto B) (samples output) m) as [outs m1].
  cbn [fst snd samples] in *.
  split.
  { intros i Hi Hlt. split; [apply Hin; [apply elem_of_seqZ; lia|exact Hlt]|].
    unfold augmented. destruct (_ && _); reflexivity. }
  split.
  { intros q Hnq. apply Hq. intros (i & Hi & ->). exact (Hnq i Hi eq_refl). }
  split; [exact Hl|]. split; [exact Hp|]. split; [exact Hj|exact Hfl].
Qed.

(** The image batch augmented into the blank batch: the slot of the output
    now points to the image's buffer. *)
Lemma ct_augment_batch_aliases_input_witness :
  let ctx := Inputs.aug_ctx Inputs.flags_hflip in
  augment_batch_fits ctx image_batch blank_batch (Inputs.machine0 two_buffers) /\
  samples (fst (ct_augment_batch ctx image_batch blank_batch
                  (Inputs.machine0 two_buffers))) !! Z.to_nat 0
  = Some (augmented ctx (sample_at (samples image_batch) 0)).
Proof.
  intros ctx.
  assert (H : augment_batch_fits ctx image_batch blank_batch
                (Inputs.machine0 two_buffers)).
  { split; [unfold slots_exist, image_batch, blank_batch; cbn; lia|].
    intros i Hi. unfold image_batch in Hi. cbn in Hi. assert (i = 0) as -> by lia.
    exists [10; 20]. split; [reflexivity|].
    vm_compute. repeat split; intros; congruence. }
  split; [exact H|].
  exact (proj1 (proj1 (ct_augment_batch_aliases_input ctx image_batch blank_batch
                         (Inputs.machine0 two_buffers) H)
                  0 ltac:(unfold image_batch; cbn; lia)
                  ltac:(unfold blank_batch; cbn; lia))).
Defined.

(** *** What a slot's buffer holds after the batch operation *)



























End Slots.

Section Epoch.
Import Shuffle Merkle BatchOps.





End Epoch.
